(** * SPC packaging control: the p-chart engine of [spc_system_v2.py]

    A shallow embedding of the statistical process control engine
    ([mhConverter], [calculate_control_limits], [inspection],
    [initialize_control_limits], [run_simulation]) and the properties
    of it that the specification states, followed by further
    properties of the code.

    Numbers.  Python's [float] and NumPy's [float64] are IEEE 754
    binary64; they are modelled by Rocq's primitive [float], whose
    operations are the same correctly rounded binary64 operations
    (with NaN, infinities and signed zeros).  Python's [int] is [Z].

    Effects.  The two NumPy generators are the only effects of the
    engine; they are threaded as an explicit generator state, and
    the exceptions that the Python code can raise are explicit
    outcomes. *)

From Stdlib Require Import ZArith QArith Qpower String List Permutation Bool.
From Stdlib Require Import Lia Lra Psatz Floats.
From Stdlib Require DecimalString DecimalZ.
Import ListNotations.

Set Warnings "-inexact-float".

Local Open Scope Z_scope.

(** * Part I.  The program *)

(** ** Python and NumPy primitives *)

Module Py.

(** The exceptions the engine can raise. *)
Inductive exn : Type :=
| ValueError
| OverflowError
| ZeroDivisionError
| KeyError
| EOFError.

(** The outcome of a call: a value, or a raised exception. *)
Inductive outcome (A : Type) : Type :=
| Returned (a : A)
| Raised (e : exn).

Arguments Returned {A} a.
Arguments Raised {A} e.

(** [float(n)] for a Python [int], and NumPy's [int64 -> float64]
    cast: the integer rounded to the nearest binary64 number. *)
Definition Z2F (z : Z) : float :=
  SF2Prim (binary_normalize prec emax z 0 false).

(** [a / b] on two Python [int]s (true division).  Below [2^53] both
    operands convert exactly and the quotient is the correctly
    rounded one. *)
Definition truediv (a b : Z) : outcome float :=
  if b =? 0 then Raised ZeroDivisionError
  else Returned (Z2F a / Z2F b)%float.

(** [int(x)] on a float: truncation toward zero; NaN and the
    infinities are refused. *)
Definition int (x : float) : outcome Z :=
  match Prim2SF x with
  | S754_nan => Raised ValueError
  | S754_infinity _ => Raised OverflowError
  | S754_zero _ => Returned 0
  | S754_finite s m e => Returned (cond_Zopp s (Z.shiftl (Zpos m) e))
  end.

(** [max(0, x)]: Python keeps the first argument unless the second
    compares strictly greater (so a NaN [x] gives [0]). *)
Definition max0 (x : float) : float :=
  if (0 <? x)%float then x else 0%float.

(** *** [np.mean]

    NumPy sums a contiguous [float64] buffer by pairwise summation:
    fewer than 8 numbers are added left to right; up to 128 numbers
    go through eight running accumulators that are then combined as
    a balanced tree, the remainder being added left to right; longer
    buffers are split in two at a multiple of eight. *)

Definition sum_seq (acc : float) (l : list float) : float :=
  fold_left add l acc.

(** Adds the next eight numbers to the eight accumulators, as long as
    eight numbers are left; returns the accumulators and the rest. *)
Fixpoint accumulate8 (fuel : nat) (r l : list float)
  : list float * list float :=
  match fuel with
  | O => (r, l)
  | S fuel' =>
      if (8 <=? length l)%nat
      then accumulate8 fuel' (map (fun p => (fst p + snd p)%float)
                                  (combine r (firstn 8 l)))
                       (skipn 8 l)
      else (r, l)
  end.

Definition combine8 (r : list float) : float :=
  let a (i : nat) := nth i r 0%float in
  (((a 0%nat + a 1%nat) + (a 2%nat + a 3%nat))
   + ((a 4%nat + a 5%nat) + (a 6%nat + a 7%nat)))%float.

Definition sum_block (l : list float) : float :=
  let '(r, rest) := accumulate8 (length l) (firstn 8 l) (skipn 8 l) in
  sum_seq (combine8 r) rest.

Fixpoint pairwise_sum (fuel : nat) (l : list float) : float :=
  let n := length l in
  if (n <? 8)%nat then sum_seq 0%float l
  else if (n <=? 128)%nat then sum_block l
  else
    match fuel with
    | O => sum_block l
    | S fuel' =>
        let n2 := (n / 2 - (n / 2) mod 8)%nat in
        (pairwise_sum fuel' (firstn n2 l)
         + pairwise_sum fuel' (skipn n2 l))%float
    end.

Definition np_sum (l : list float) : float :=
  pairwise_sum (length l) l.

(** [np.mean] of a list of floats: the sum divided by the count (an
    empty list gives [0/0], that is NaN, with a warning only). *)
Definition np_mean (l : list float) : float :=
  (np_sum l / Z2F (Z.of_nat (length l)))%float.

(** [np.mean] of a list of [int]s: accumulated in [float64].  The
    [int64] buffer is cast to [float64] 8192 numbers at a time; the
    pairwise sum of each chunk is added to the running total, which
    starts at 0. *)
Definition BUFSIZE : nat := (2 ^ 13)%nat.

Fixpoint sum_chunks (fuel : nat) (acc : float) (l : list float) : float :=
  match fuel, l with
  | S fuel', _ :: _ =>
      sum_chunks fuel' (acc + np_sum (firstn BUFSIZE l))%float
                 (skipn BUFSIZE l)
  | _, _ => acc
  end.

Definition np_sum_int (l : list Z) : float :=
  sum_chunks (length l) 0%float (map Z2F l).

Definition np_mean_int (l : list Z) : float :=
  (np_sum_int l / Z2F (Z.of_nat (length l)))%float.

(** A Python [str]: the sequence of its code points. *)
Definition str : Type := list N.

End Py.
Import Py.

(** ** The line registry *)

Record line_data : Type :=
  { monthly_production : Z; monthly_defects : Z }.

(** [PRODUCTION_LINES]: a dict, read in insertion order. *)
Definition PRODUCTION_LINES : list (string * line_data) :=
  [ ("First Exterior"%string,
     {| monthly_production := 800000; monthly_defects := 11000 |});
    ("First Interior"%string,
     {| monthly_production := 950000; monthly_defects := 10000 |});
    ("Second Exterior"%string,
     {| monthly_production := 800000; monthly_defects := 11000 |});
    ("Second Interior"%string,
     {| monthly_production := 1045000; monthly_defects := 10000 |});
    ("Third Exterior"%string,
     {| monthly_production := 825000; monthly_defects := 11000 |});
    ("Third Interior"%string,
     {| monthly_production := 2440000; monthly_defects := 10000 |});
    ("Fourth Exterior"%string,
     {| monthly_production := 908000; monthly_defects := 10000 |});
    ("Fourth Interior"%string,
     {| monthly_production := 798000; monthly_defects := 11000 |}) ].

(** Dicts keyed by line name, as association lists in insertion
    order. *)
Fixpoint dict_get {V : Type} (k : string) (d : list (string * V))
  : option V :=
  match d with
  | [] => None
  | (k', v) :: d' => if String.eqb k k' then Some v else dict_get k d'
  end.

Fixpoint dict_set {V : Type} (k : string) (v : V) (d : list (string * V))
  : list (string * V) :=
  match d with
  | [] => [(k, v)]
  | (k', v') :: d' =>
      if String.eqb k k' then (k, v) :: d' else (k', v') :: dict_set k v d'
  end.

(** ** The control limit estimator *)

(** [calculate_control_limits]: returns [(CL, UCL, LCL)]. *)
Definition calculate_control_limits
  (failure_rates : list float) (production_counts : list Z)
  : float * float * float :=
  let CL := np_mean failure_rates in
  let avg_n := np_mean_int production_counts in
  let std_dev := sqrt (CL * (1 - CL) / avg_n)%float in
  let UCL := (CL + Z2F 3 * std_dev)%float in
  let LCL := (CL - Z2F 3 * std_dev)%float in
  let LCL := max0 LCL in
  (CL, UCL, LCL).

(** ** The rule inspector *)

Definition msg_rule1 : string :=
  "⚠️ KURAL 1: Kontrol dışı nokta tespit edildi! (UCL/LCL aşıldı)".
Definition msg_rule2 : string :=
  "⚠️ KURAL 2: Sistematik kayma tespit edildi! (7 ardışık nokta CL'nin aynı tarafında)".
Definition msg_rule3_inc : string :=
  "⚠️ KURAL 3: Artan trend tespit edildi! (6 ardışık artan nokta)".
Definition msg_rule3_dec : string :=
  "⚠️ KURAL 3: Azalan trend tespit edildi! (6 ardışık azalan nokta)".
Definition msg_rule4 : string :=
  "⚠️ KURAL 4: Varyans artışı olabilir! (4 nokta uçta kümelenmiş)".
Definition msg_in_control : string :=
  "✓ Süreç kontrol altında".

(** [data[-k:]] for [k <= len(data)]. *)
Definition lastn {A : Type} (k : nat) (l : list A) : list A :=
  skipn (length l - k) l.

(** Each rule appends its message to [comments] when it fires. *)
Definition rule1 (data : list float) (UCL LCL : float)
  (comments : list string) : list string :=
  let x := last data 0%float in
  if (UCL <? x)%float || (x <? LCL)%float
  then comments ++ [msg_rule1] else comments.

Definition rule2 (data : list float) (CL : float)
  (comments : list string) : list string :=
  if (7 <=? length data)%nat then
    let last_7 := lastn 7 data in
    let above_cl := forallb (fun x => (CL <? x)%float) last_7 in
    let below_cl := forallb (fun x => (x <? CL)%float) last_7 in
    if above_cl || below_cl then comments ++ [msg_rule2] else comments
  else comments.

Definition rule3 (data : list float) (comments : list string)
  : list string :=
  if (6 <=? length data)%nat then
    let last_6 := lastn 6 data in
    let at_ (i : nat) := nth i last_6 0%float in
    let increasing :=
      forallb (fun i => (at_ i <? at_ (S i))%float) (seq 0 5) in
    let decreasing :=
      forallb (fun i => (at_ (S i) <? at_ i)%float) (seq 0 5) in
    if increasing then comments ++ [msg_rule3_inc]
    else if decreasing then comments ++ [msg_rule3_dec]
    else comments
  else comments.

Definition rule4 (data : list float) (CL UCL : float)
  (comments : list string) : list string :=
  if (4 <=? length data)%nat then
    let last_4 := lastn 4 data in
    let upper_zone :=
      forallb (fun x => (CL <? x)%float && (x <? UCL)%float) last_4 in
    let mid_upper := (CL + (UCL - CL) * Z2F 2 / Z2F 3)%float in
    let upper_extreme :=
      forallb (fun x => (mid_upper <? x)%float) last_4 in
    if upper_extreme && upper_zone
    then comments ++ [msg_rule4] else comments
  else comments.

(** [inspection]: the first four Nelson rules on the tail of [data]. *)
Definition inspection (data : list float) (CL UCL LCL : float)
  : list string :=
  let comments := [] in
  let n := length data in
  if (n =? 0)%nat then comments
  else
    let comments := rule1 data UCL LCL comments in
    let comments := rule2 data CL comments in
    let comments := rule3 data comments in
    let comments := rule4 data CL UCL comments in
    match comments with
    | [] => comments ++ [msg_in_control]
    | _ :: _ => comments
    end.

(** ** The world: generator and console output *)

(** What the simulation prints, without the text formatting. *)
Inductive event : Type :=
| PrintLimits (line_name : string) (CL UCL LCL : float)
| PrintHour (current_hour : Z)
| PrintSample (line_name : string) (prod defects : Z) (rate : float)
| PrintComment (comment : string)
| PrintSummary (total_hours : Z).

Section Engine.

(** NumPy's global generator: an abstract state with a standard
    normal variate and a Poisson variate of a given mean. *)
Variable G : Type.
Variable standard_normal : G -> float * G.
Variable poisson_variate : float -> G -> Z * G.

Record world : Type :=
  { gen : G;
    stdout : list event }.

(** Computations: an exception leaves the world as it was when it
    was raised. *)
Definition M (A : Type) : Type := world -> outcome A * world.

Definition ret {A : Type} (a : A) : M A := fun w => (Returned a, w).

Definition raise {A : Type} (e : exn) : M A := fun w => (Raised e, w).

Definition bind {A B : Type} (m : M A) (f : A -> M B) : M B :=
  fun w =>
    match m w with
    | (Returned a, w') => f a w'
    | (Raised e, w') => (Raised e, w')
    end.

Definition lift {A : Type} (o : outcome A) : M A := fun w => (o, w).

Definition print (e : event) : M unit :=
  fun w => (Returned tt, {| gen := gen w; stdout := stdout w ++ [e] |}).

Definition with_gen {A : Type} (f : G -> A * G) : M A :=
  fun w =>
    let '(a, g) := f (gen w) in
    (Returned a, {| gen := g; stdout := stdout w |}).

(** [np.random.normal(loc, scale)]: [loc + scale * z] for a standard
    normal [z]; a negative [scale] is refused. *)
Definition np_random_normal (loc scale : float) : M float :=
  if (scale <? 0)%float then raise ValueError
  else bind (with_gen standard_normal)
            (fun z => ret (loc + scale * z)%float).

(** The largest mean [np.random.poisson] accepts. *)
Definition POISSON_LAM_MAX : float := 9.223372006484771e18%float.

(** [np.random.poisson(lam)]: a negative or NaN [lam] is refused
    with [ValueError], as is one that is too large. *)
Definition np_random_poisson (lam : float) : M Z :=
  if (lam <? 0)%float || is_nan lam || (POISSON_LAM_MAX <? lam)%float
  then raise ValueError
  else with_gen (poisson_variate lam).

End Engine.

Arguments ret {G A} a.
Arguments raise {G A} e.
Arguments bind {G A B} m f.
Arguments lift {G A} o.
Arguments print {G} e.
Arguments with_gen {G A} f.
Arguments world G : clear implicits.
Arguments M G A : clear implicits.
Arguments gen {G} w.
Arguments stdout {G} w.

Declare Scope engine_scope.
Delimit Scope engine_scope with engine.
Notation "x <- m ;; k" := (bind m (fun x => k))
  (at level 61, m at next level, right associativity) : engine_scope.
Notation "' p <- m ;; k" := (bind m (fun x => match x with p => k end))
  (at level 61, p pattern, m at next level, right associativity)
  : engine_scope.
Notation "m ;;; k" := (bind m (fun _ => k))
  (at level 61, right associativity) : engine_scope.

Local Open Scope engine_scope.

(** ** The hourly sample generator, the baseline and the loop *)

Definition default_days : Z := 26.
Definition default_shifts : Z := 2.
Definition default_hours_per_shift : Z := 8.
Definition default_sigma : float := 0.03%float.

Record history : Type :=
  { hours : list Z; rates : list float; productions : list Z }.

(** [c.isspace()]: the whitespace of [str.strip], that is the code
    points U+0009..U+000D, U+001C..U+0020, U+0085, U+00A0, U+1680,
    U+2000..U+200A, U+2028, U+2029, U+202F, U+205F and U+3000. *)
Definition is_blank (c : N) : bool :=
  ((9 <=? c) && (c <=? 13) || (28 <=? c) && (c <=? 32)
   || (c =? 133) || (c =? 160) || (c =? 5760)
   || (8192 <=? c) && (c <=? 8202)
   || (c =? 8232) || (c =? 8233) || (c =? 8239) || (c =? 8287)
   || (c =? 12288))%N.

Fixpoint lstrip (s : str) : str :=
  match s with
  | c :: s' => if is_blank c then lstrip s' else s
  | [] => s
  end.

Fixpoint rstrip (s : str) : str :=
  match s with
  | c :: s' =>
      match rstrip s' with
      | [] => if is_blank c then [] else [c]
      | t => c :: t
      end
  | [] => s
  end.

(** [s.lower() == 'q']: lowercasing keeps the number of code points
    or increases it, and [q] (113) is the lowercase of [q] and of [Q]
    (81) only. *)
Definition lower_is_q (s : str) : bool :=
  match s with
  | [c] => ((c =? 113) || (c =? 81))%N
  | _ => false
  end.

(** [input().strip().lower() == 'q']. *)
Definition wants_quit (user_input : str) : bool :=
  lower_is_q (rstrip (lstrip user_input)).

Section Simulation.

Variable G : Type.
Variable standard_normal : G -> float * G.
Variable poisson_variate : float -> G -> Z * G.

(** [mhConverter]: one simulated hour,
    [(hourly_production, hourly_defects, failure_rate)]. *)
Definition mhConverter
  (monthly_production monthly_defects days shifts hours_per_shift : Z)
  (sigma : float) : M G (Z * Z * float) :=
  let total_hours := days * shifts * hours_per_shift in
  avg_hourly_production <- lift (truediv monthly_production total_hours) ;;
  x <- np_random_normal G standard_normal
         avg_hourly_production (avg_hourly_production * sigma)%float ;;
  hourly_production <- lift (int x) ;;
  defect_rate <- lift (truediv monthly_defects monthly_production) ;;
  let expected_hourly_defects := (defect_rate * Z2F hourly_production)%float in
  hourly_defects <- np_random_poisson G poisson_variate
                      expected_hourly_defects ;;
  failure_rate <- (if 0 <? hourly_production
                   then lift (truediv hourly_defects hourly_production)
                   else ret 0%float) ;;
  ret (hourly_production, hourly_defects, failure_rate).

(** The body of [for _ in range(k)] in [initialize_control_limits]. *)
Fixpoint warm_up (k : nat) (line : line_data) (sigma : float)
  (failure_rates : list float) (production_counts : list Z)
  : M G (list float * list Z) :=
  match k with
  | O => ret (failure_rates, production_counts)
  | S k' =>
      '(prod, defects, rate) <-
         mhConverter (monthly_production line) (monthly_defects line)
                     default_days default_shifts default_hours_per_shift
                     sigma ;;
      warm_up k' line sigma (failure_rates ++ [rate])
              (production_counts ++ [prod])
  end.

(** [initialize_control_limits]: limits from 50 simulated hours. *)
Definition initialize_control_limits
  (line_name : string) (line : line_data) (sigma : float)
  : M G (float * float * float) :=
  '(failure_rates, production_counts) <- warm_up 50 line sigma [] [] ;;
  ret (calculate_control_limits failure_rates production_counts).

(** The first loop of [run_simulation]: the limits of every line. *)
Fixpoint freeze_limits (lines : list (string * line_data))
  (control_limits : list (string * (float * float * float)))
  : M G (list (string * (float * float * float))) :=
  match lines with
  | [] => ret control_limits
  | (line_name, line) :: lines' =>
      '(CL, UCL, LCL) <-
         initialize_control_limits line_name line 0.03%float ;;
      let control_limits := dict_set line_name (CL, UCL, LCL) control_limits in
      print (PrintLimits line_name CL UCL LCL) ;;;
      freeze_limits lines' control_limits
  end.

(** One tick of the monitoring loop over the lines. *)
Fixpoint tick (sigma : float)
  (control_limits : list (string * (float * float * float)))
  (lines : list (string * line_data))
  (hourly_data : list (string * history)) (current_hour : Z)
  : M G (list (string * history)) :=
  match lines with
  | [] => ret hourly_data
  | (line_name, line) :: lines' =>
      match dict_get line_name control_limits,
            dict_get line_name hourly_data with
      | Some (CL, UCL, LCL), Some h =>
          '(prod, defects, rate) <-
             mhConverter (monthly_production line) (monthly_defects line)
                         default_days default_shifts default_hours_per_shift
                         sigma ;;
          let h := {| hours := hours h ++ [current_hour];
                      rates := rates h ++ [rate];
                      productions := productions h ++ [prod] |} in
          let hourly_data := dict_set line_name h hourly_data in
          let comments := inspection (rates h) CL UCL LCL in
          print (PrintSample line_name prod defects rate) ;;;
          fold_right (fun c k => print (PrintComment c) ;;; k)
                     (ret tt) comments ;;;
          tick sigma control_limits lines' hourly_data current_hour
      | _, _ => raise KeyError
      end
  end.

(** [while True]: one tick per answer of the console, until [q]. *)
Fixpoint monitoring (sigma : float)
  (control_limits : list (string * (float * float * float)))
  (hourly_data : list (string * history)) (current_hour : Z)
  (console : list str) : M G unit :=
  print (PrintHour current_hour) ;;;
  hourly_data <- tick sigma control_limits PRODUCTION_LINES
                      hourly_data current_hour ;;
  match console with
  | [] => raise EOFError
  | user_input :: console' =>
      if wants_quit user_input then print (PrintSummary current_hour)
      else monitoring sigma control_limits hourly_data (current_hour + 1)
                      console'
  end.

(** [run_simulation] in text mode, on the answers of the console. *)
Definition run_simulation (sigma : float) (console : list str)
  : M G unit :=
  control_limits <- freeze_limits PRODUCTION_LINES [] ;;
  let hourly_data :=
    map (fun l => (fst l, {| hours := []; rates := []; productions := [] |}))
        PRODUCTION_LINES in
  monitoring sigma control_limits hourly_data 1 console.

End Simulation.

Arguments mhConverter {G} _ _ _ _ _ _ _ _.
Arguments warm_up {G} _ _ _ _ _ _ _.
Arguments initialize_control_limits {G} _ _ _ _ _.
Arguments freeze_limits {G} _ _ _ _.
Arguments tick {G} _ _ _ _ _ _ _.
Arguments monitoring {G} _ _ _ _ _ _ _.
Arguments run_simulation {G} _ _ _ _.

(** ** A scripted generator

    The variates are read from two scripts (and are [0] when a
    script is over): this fixes the draws of NumPy's generator. *)
Definition script : Type := (list float * list Z)%type.

Definition scripted_normal (g : script) : float * script :=
  match fst g with
  | [] => (0%float, g)
  | z :: zs => (z, (zs, snd g))
  end.

Definition scripted_poisson (lam : float) (g : script) : Z * script :=
  match snd g with
  | [] => (0, g)
  | k :: ks => (k, (fst g, ks))
  end.

Definition run_scripted {A : Type} (m : M script A) (g : script)
  : outcome A * world script :=
  m {| gen := g; stdout := [] |}.

(** ** The summary chart

    Of [create_summary_chart], which draws with matplotlib: the
    colour of the marker on the latest point of a line, and the name
    of the file the chart is saved to (with the POSIX [os.path]). *)

Inductive color : Type := red | green.

(** The marker of a panel: none on an empty history. *)
Definition last_point_color (rates : list float) (UCL LCL : float)
  : option color :=
  if (0 <? length rates)%nat then
    let last_rate := last rates 0%float in
    Some (if (UCL <? last_rate)%float || (last_rate <? LCL)%float
          then red else green)
  else None.

(** [str.zfill] on the digits of a number. *)
Definition zfill (width : nat) (d : Decimal.uint) : Decimal.uint :=
  Nat.iter (width - Decimal.nb_digits d) Decimal.D0 d.

(** [f'{n:03d}']: at least three characters, the sign included,
    padded with zeros after the sign. *)
Definition format_03d (n : Z) : string :=
  DecimalString.NilEmpty.string_of_int
    match Z.to_int n with
    | Decimal.Pos d => Decimal.Pos (zfill 3 d)
    | Decimal.Neg d => Decimal.Neg (zfill 2 d)
    end.

Fixpoint endswith_sep (s : string) : bool :=
  match s with
  | EmptyString => false
  | String c EmptyString => (Ascii.nat_of_ascii c =? 47)%nat
  | String _ s' => endswith_sep s'
  end.

(** [os.path.join(a, b)] for a [b] that does not start with [/]. *)
Definition path_join (a b : string) : string :=
  if String.eqb a "" || endswith_sep a then (a ++ b)%string
  else (a ++ "/" ++ b)%string.

Definition summary_filename (output_dir : string) (current_hour : Z)
  : string :=
  path_join output_dir
            ("summary_hour_" ++ format_03d current_hour ++ ".png")%string.

(** * Part II.  Definitions for the properties *)

Local Open Scope float_scope.

(** [round(x)] of Python: the nearest integer, ties to even.  The
    specification words the production count with it. *)
Definition py_round (x : float) : outcome Z :=
  match Prim2SF x with
  | S754_nan => Raised ValueError
  | S754_infinity _ => Raised OverflowError
  | S754_zero _ => Returned 0%Z
  | S754_finite s m e =>
      let d := (2 ^ (- e))%Z in
      let q := (Zpos m / d)%Z in
      let r := (Zpos m mod d)%Z in
      Returned (cond_Zopp s
        (if (0 <=? e)%Z then Z.shiftl (Zpos m) e
         else match (2 * r ?= d)%Z with
              | Lt => q
              | Gt => (q + 1)%Z
              | Eq => if Z.even q then q else (q + 1)%Z
              end))
  end.

(** ** The rule inspector *)

Module Inspector.

(** The conditions under which [inspection] appends each message. *)
Definition fires1 (data : list float) (UCL LCL : float) : bool :=
  (UCL <? last data 0) || (last data 0 <? LCL).

Definition fires2 (data : list float) (CL : float) : bool :=
  (7 <=? length data)%nat
  && (forallb (fun x => CL <? x) (lastn 7 data)
      || forallb (fun x => x <? CL) (lastn 7 data)).

Definition increasing6 (data : list float) : bool :=
  (6 <=? length data)%nat
  && forallb (fun i => nth i (lastn 6 data) 0 <? nth (S i) (lastn 6 data) 0)
             (seq 0 5).

Definition decreasing6 (data : list float) : bool :=
  (6 <=? length data)%nat
  && forallb (fun i => nth (S i) (lastn 6 data) 0 <? nth i (lastn 6 data) 0)
             (seq 0 5).

Definition mid_upper (CL UCL : float) : float :=
  CL + (UCL - CL) * Z2F 2 / Z2F 3.

Definition fires4 (data : list float) (CL UCL : float) : bool :=
  (4 <=? length data)%nat
  && (forallb (fun x => mid_upper CL UCL <? x) (lastn 4 data)
      && forallb (fun x => (CL <? x) && (x <? UCL)) (lastn 4 data)).

Definition when (b : bool) (m : string) : list string :=
  if b then [m] else [].

(** The rule messages of a history, in the order of the rules. *)
Definition alarms (data : list float) (CL UCL LCL : float) : list string :=
  when (fires1 data UCL LCL) msg_rule1
  ++ when (fires2 data CL) msg_rule2
  ++ when (increasing6 data) msg_rule3_inc
  ++ when (negb (increasing6 data) && decreasing6 data) msg_rule3_dec
  ++ when (fires4 data CL UCL) msg_rule4.

End Inspector.

(** ** The trigger conditions of the rules, as the specification's
    table words them *)

Module Table.

Definition lt (x y : float) : Prop := (x <? y) = true.

(** Rule 1: the last point is above UCL or below LCL. *)
Definition rule1 (data : list float) (UCL LCL : float) : Prop :=
  exists older x, data = older ++ [x] /\ (lt UCL x \/ lt x LCL).

(** Rule 2: the last 7 points are all above CL, or all below it. *)
Definition rule2 (data : list float) (CL : float) : Prop :=
  exists older w, data = older ++ w /\ length w = 7%nat /\
    (Forall (fun x => lt CL x) w \/ Forall (fun x => lt x CL) w).

(** Rule 3: the last 6 points strictly increase, or strictly
    decrease. *)
Definition rule3_increasing (data : list float) : Prop :=
  exists older a b c d e f, data = older ++ [a; b; c; d; e; f] /\
    lt a b /\ lt b c /\ lt c d /\ lt d e /\ lt e f.

Definition rule3_decreasing (data : list float) : Prop :=
  exists older a b c d e f, data = older ++ [a; b; c; d; e; f] /\
    lt b a /\ lt c b /\ lt d c /\ lt e d /\ lt f e.

(** Rule 4: the last 4 points are all strictly between CL and UCL
    and strictly above the two-thirds point between them. *)
Definition upper_third (CL UCL x : float) : Prop :=
  lt CL x /\ lt x UCL /\ lt (CL + (UCL - CL) * Z2F 2 / Z2F 3) x.

Definition rule4 (data : list float) (CL UCL : float) : Prop :=
  exists older w, data = older ++ w /\ length w = 4%nat /\
    Forall (upper_third CL UCL) w.

End Table.

(** ** The baseline, as the specification words it *)

Module Baseline.
Section Baseline.

Variable G : Type.
Variable standard_normal : G -> float * G.
Variable poisson_variate : float -> G -> Z * G.

(** [k] runs of a computation, one after the other. *)
Fixpoint sample_n {A : Type} (k : nat) (m : M G A) : M G (list A) :=
  match k with
  | O => ret []
  | S k' => a <- m ;; rest <- sample_n k' m ;; ret (a :: rest)
  end.

(** The frozen limits of a line: the estimator on the rates and the
    production counts of 50 samples drawn with the in-control sigma. *)
Definition baseline (line : line_data) : M G (float * float * float) :=
  samples <- sample_n 50
               (mhConverter standard_normal poisson_variate
                  (monthly_production line) (monthly_defects line)
                  default_days default_shifts default_hours_per_shift
                  default_sigma) ;;
  ret (calculate_control_limits
         (map (fun s => snd s) samples)
         (map (fun s => fst (fst s)) samples)).

(** The frozen limits of the lines: the baseline of each line in
    turn, printed when it is frozen; the result holds, line by line,
    the name of the line with its limits. *)
Fixpoint frozen (lines : list (string * line_data))
  : M G (list (string * (float * float * float))) :=
  match lines with
  | [] => ret []
  | (line_name, line) :: lines' =>
      '(CL, UCL, LCL) <- baseline line ;;
      print (PrintLimits line_name CL UCL LCL) ;;;
      rest <- frozen lines' ;;
      ret ((line_name, (CL, UCL, LCL)) :: rest)
  end.

(** The empty history of every line, with which the monitoring
    starts. *)
Definition empty_histories : list (string * history) :=
  map (fun l => (fst l, {| hours := []; rates := []; productions := [] |}))
      PRODUCTION_LINES.

End Baseline.
End Baseline.

(** The limits that a run has printed. *)
Definition limit_events (out : list event) : list event :=
  filter (fun e => match e with PrintLimits _ _ _ _ => true | _ => false end)
         out.

(** A computation that prints no limits. *)
Definition quiet {G A : Type} (m : M G A) : Prop :=
  forall w, limit_events (stdout (snd (m w))) = limit_events (stdout w).

(** ** Binary64 rounding

    What the operations of [SpecFloat] compute, in terms of the exact
    rational values of their operands. *)

Module Binary64.

Local Open Scope Z_scope.

(** Powers of two *)
Definition bpow (e : Z) : Q := (2 ^ e)%Q.

(** The value [m * 2^e]. *)
Definition F2Q (m e : Z) : Q := (inject_Z m * bpow e)%Q.

Abbreviation fexp64 := (fexp prec emax).

(** Canonical mantissa/exponent pairs of binary64. *)
Definition canon (m e : Z) : Prop :=
  0 <= m < 2 ^ 53 /\ -1074 <= e /\ (-1074 < e -> 2 ^ 52 <= m).

(** Right shifts of a mantissa. *)

Definition inexact (mrs : shr_record) : bool := shr_r mrs || shr_s mrs.

(** [b] is [a] shifted right by [k] bits. *)
Definition shifted (a b : shr_record) (k : Z) : Prop :=
  0 <= shr_m b /\ shr_m b = shr_m a / 2 ^ k
  /\ (inexact b = false <->
      inexact a = false /\ shr_m b * 2 ^ k = shr_m a).

(** Rounding. *)

(** [v] lies in [[m * 2^e, (m+1) * 2^e)], and [l] says whether it is
    the lower end. *)
Definition located (m e : Z) (l : location) (v : Q) : Prop :=
  (F2Q m e <= v)%Q /\ (v < F2Q (m + 1) e)%Q
  /\ (l = loc_Exact <-> (v == F2Q m e)%Q).

(** The result of a rounding, from its mantissa and exponent. *)
Definition SFofZ (s : bool) (m e : Z) : spec_float :=
  match m with
  | Z0 => S754_zero s
  | Zpos p => if e <=? emax - prec then S754_finite s p e else S754_infinity s
  | Zneg _ => S754_nan
  end.

(** [(m, e)] is [v] rounded to a neighbouring canonical number: it is
    above every canonical number below [v] and below every one above. *)
Definition bracket (v : Q) (m e : Z) : Prop :=
  forall mx ex, canon mx ex ->
    ((F2Q mx ex <= v)%Q -> (F2Q mx ex <= F2Q m e)%Q)
    /\ ((v <= F2Q mx ex)%Q -> (F2Q m e <= F2Q mx ex)%Q).

(** ** Values of specification floats *)

(** Zero or a positive finite number. *)
Definition fin_nn (x : spec_float) : Prop :=
  match x with
  | S754_zero _ | S754_finite false _ _ => True
  | _ => False
  end.

(** Zero, a positive finite number or plus infinity. *)
Definition nn (x : spec_float) : Prop :=
  match x with
  | S754_zero _ | S754_finite false _ _ | S754_infinity false => True
  | _ => False
  end.

(** Zero, a negative finite number or minus infinity. *)
Definition np (x : spec_float) : Prop :=
  match x with
  | S754_zero _ | S754_finite true _ _ | S754_infinity true => True
  | _ => False
  end.

Definition SFval (x : spec_float) : Q :=
  match x with
  | S754_finite s m e => if s then (- F2Q (Zpos m) e)%Q else F2Q (Zpos m) e
  | _ => 0%Q
  end.

(** [r] is the non-negative [v] rounded to binary64: it is not below a
    number below [v] nor above a number above [v]. *)
Definition rounds (v : Q) (r : spec_float) : Prop :=
  nn r
  /\ (forall x, valid_binary x = true -> fin_nn x ->
        ((SFval x <= v)%Q -> SFleb x r = true)
        /\ ((v <= SFval x)%Q -> SFleb r x = true)).

(** Values of primitive floats. *)

(** [x] is zero or a positive finite number. *)
Definition FNN (x : float) : Prop := fin_nn (Prim2SF x).

(** The exact value of a finite float. *)
Definition val (x : float) : Q := SFval (Prim2SF x).

End Binary64.

(** ** Floating-point sums *)

Module Summation.

(** [s] is a floating-point sum of the numbers of [l], added in some
    order and with some bracketing. *)
Inductive sums : list float -> float -> Prop :=
| sums_nil : sums [] 0%float
| sums_one x : sums [x] x
| sums_add l1 l2 s1 s2 :
    sums l1 s1 -> sums l2 s2 -> sums (l1 ++ l2) (s1 + s2)%float
| sums_perm l l' s : Permutation l l' -> sums l s -> sums l' s.

(** Each accumulator with the numbers it has added. *)
Definition accs (Ls : list (list float)) (r : list float) : Prop :=
  Forall2 sums Ls r.

End Summation.

(** ** The constant rate sequence *)

Module ConstantRate.

(** The numbers of the constant sequence. *)
Definition p0 : float := (0.01 * (1 - 0.01))%float.
Definition above : float := 0.010000000001%float.
Definition below : float := 0.009999999999%float.

End ConstantRate.

(** ** The console trace of a run *)

Module Trace.

(** The hour headers, the sampled lines and the closing summaries of
    an output, each in the order of printing. *)
Definition is_hour (e : event) : bool :=
  match e with PrintHour _ => true | _ => false end.

Definition is_sample (e : event) : bool :=
  match e with PrintSample _ _ _ _ => true | _ => false end.

Definition hours_printed (out : list event) : list Z :=
  flat_map (fun e => match e with PrintHour h => [h] | _ => [] end) out.

Definition lines_sampled (out : list event) : list string :=
  flat_map (fun e => match e with PrintSample n _ _ _ => [n] | _ => [] end)
           out.

(** A computation that prints nothing. *)
Definition silent {G A : Type} (m : M G A) : Prop :=
  forall w, stdout (snd (m w)) = stdout w.

(** A computation that fails with the exceptions of [E] only. *)
Definition fails_within {G A : Type} (E : exn -> Prop) (m : M G A) : Prop :=
  forall w e, fst (m w) = Raised e -> E e.

(** The failures of a draw: a refused parameter or a sample that is
    not a finite number. *)
Definition draw_failure (e : exn) : Prop :=
  e = ValueError \/ e = OverflowError.

(** [d] has an entry for every name of [names]. *)
Definition has_keys {V : Type} (names : list string) (d : list (string * V))
  : Prop :=
  forall n, In n names -> dict_get n d <> None.

(** Lines with a monthly production other than zero. *)
Definition productive (lines : list (string * line_data)) : Prop :=
  Forall (fun l => monthly_production (snd l) <> 0%Z) lines.

(** The hours [first, first + 1, ...], [k] of them. *)
Definition hours_from (first : Z) (k : nat) : list Z :=
  map (fun i => (first + Z.of_nat i)%Z) (seq 0 k).

(** The line printed for an entry of [control_limits]. *)
Definition limit_line (entry : string * (float * float * float)) : event :=
  let '(line_name, (CL, UCL, LCL)) := entry in
  PrintLimits line_name CL UCL LCL.

End Trace.

(** ** Exact sums and signs *)

Module Exact.
Import Binary64.

(** The exact sum of the values of a list of floats. *)
Definition qsum (l : list float) : Q :=
  fold_right (fun x a => (val x + a)%Q) 0%Q l.

(** A finite float whose value is a natural number below [2^53]. *)
Definition integral (x : float) : Prop :=
  FNN x /\ exists z, (0 <= z < 2 ^ 53)%Z /\ (val x == inject_Z z)%Q.

(** The sum of a list of integers. *)
Definition total (l : list Z) : Z := fold_right Z.add 0%Z l.

(** A positive finite number or plus infinity. *)
Definition positive (x : spec_float) : Prop :=
  match x with
  | S754_finite false _ _ | S754_infinity false => True
  | _ => False
  end.

(** A finite number that is at least 1, or plus infinity. *)
Definition at_least_one (x : spec_float) : Prop :=
  match x with
  | S754_infinity false => True
  | S754_finite false m e => (1 <= F2Q (Zpos m) e)%Q
  | _ => False
  end.

(** NaN or an infinity. *)
Definition nonfinite (x : spec_float) : Prop :=
  match x with
  | S754_nan | S754_infinity _ => True
  | _ => False
  end.

End Exact.

(** Reading a decimal number, with its sign and leading zeros. *)
Definition read_int (s : string) : option Z :=
  option_map Z.of_int (DecimalString.NilEmpty.int_of_string s).

(** * Part III.  Lemmas and theorems *)

(** ** Order facts on binary64 comparisons

    [SFcompare] orders specification floats lexicographically by
    sign, exponent and mantissa; the facts below need no validity
    assumption. *)

Ltac sf_cases :=
  repeat match goal with
  | s : bool |- _ => destruct s
  | x : spec_float |- _ => destruct x
  end.

Ltac sf_compare :=
  unfold SFeqb, SFltb, SFleb, SFcompare;
  change (Pos.compare_cont Eq) with Pos.compare;
  repeat match goal with
  | |- context [Z.compare ?a ?b] => destruct (Z.compare_spec a b)
  | |- context [Pos.compare ?a ?b] => destruct (Pos.compare_spec a b)
  end;
  simpl; try congruence; try lia.

Lemma SFeqb_SFltb (x y : spec_float) :
  SFeqb x y = true -> SFltb x y = false /\ SFltb y x = false.
Proof. sf_cases; sf_compare; intros; split; congruence. Qed.

Lemma SFleb_SFeqb_upper (l u x : spec_float) :
  SFleb l u = true -> SFeqb x u = true -> SFltb x l = false.
Proof. sf_cases; sf_compare. Qed.

Lemma SFleb_SFeqb_lower (l u x : spec_float) :
  SFleb l u = true -> SFeqb x l = true -> SFltb u x = false.
Proof. sf_cases; sf_compare. Qed.

(** [x == y] excludes [x < y] and [y < x]. *)
Lemma eqb_not_ltb (x y : float) :
  (x =? y) = true -> (x <? y) = false /\ (y <? x) = false.
Proof. rewrite eqb_spec, !ltb_spec. apply SFeqb_SFltb. Qed.

Lemma leb_eqb_upper (l u x : float) :
  (l <=? u) = true -> (x =? u) = true -> (x <? l) = false.
Proof. rewrite leb_spec, eqb_spec, ltb_spec. apply SFleb_SFeqb_upper. Qed.

Lemma leb_eqb_lower (l u x : float) :
  (l <=? u) = true -> (x =? l) = true -> (u <? x) = false.
Proof. rewrite leb_spec, eqb_spec, ltb_spec. apply SFleb_SFeqb_lower. Qed.

(** ** The rule inspector *)

Module InspectorFacts.
Import Inspector.

Ltac case_if :=
  match goal with
  | |- context [if ?b then _ else _] => destruct b eqn:?
  end.

Lemma rule1_when data UCL LCL c :
  rule1 data UCL LCL c = c ++ when (fires1 data UCL LCL) msg_rule1.
Proof.
  unfold rule1, fires1, when.
  destruct (_ || _); [reflexivity | now rewrite app_nil_r].
Qed.

Lemma rule2_when data CL c :
  rule2 data CL c = c ++ when (fires2 data CL) msg_rule2.
Proof.
  unfold rule2, fires2, when.
  destruct (7 <=? length data)%nat; simpl; [|now rewrite app_nil_r].
  destruct (_ || _); [reflexivity | now rewrite app_nil_r].
Qed.

Lemma rule3_when data c :
  rule3 data c =
  c ++ when (increasing6 data) msg_rule3_inc
    ++ when (negb (increasing6 data) && decreasing6 data) msg_rule3_dec.
Proof.
  unfold rule3, increasing6, decreasing6, when.
  destruct (6 <=? length data)%nat; simpl; [|now rewrite app_nil_r].
  case_if; simpl; [reflexivity|].
  case_if; simpl; [reflexivity | now rewrite app_nil_r].
Qed.

Lemma rule4_when data CL UCL c :
  rule4 data CL UCL c = c ++ when (fires4 data CL UCL) msg_rule4.
Proof.
  unfold rule4, fires4, when, mid_upper.
  destruct (4 <=? length data)%nat; simpl; [|now rewrite app_nil_r].
  destruct (_ && _); [reflexivity | now rewrite app_nil_r].
Qed.

(** [inspection] on a non-empty history: the alarms, or the marker
    when there is none. *)
Lemma inspection_alarms data CL UCL LCL :
  data <> [] ->
  inspection data CL UCL LCL =
  match alarms data CL UCL LCL with
  | [] => [msg_in_control]
  | a => a
  end.
Proof.
  intros Hd. unfold inspection.
  destruct data as [|x data]; [congruence|]. cbn [length Nat.eqb].
  rewrite rule4_when, rule3_when, rule2_when, rule1_when.
  match goal with
  | |- match ?a with _ => _ end = _ =>
      replace a with (alarms (x :: data) CL UCL LCL)
        by (unfold alarms; now rewrite <- !app_assoc)
  end.
  now destruct (alarms (x :: data) CL UCL LCL).
Qed.

Lemma inspection_nil CL UCL LCL : inspection [] CL UCL LCL = [].
Proof. reflexivity. Qed.

Lemma lastn_app {A : Type} (k : nat) (older w : list A) :
  length w = k -> lastn k (older ++ w) = w.
Proof.
  intros <-. unfold lastn. rewrite length_app.
  replace (length older + length w - length w)%nat with (length older) by lia.
  rewrite skipn_app, skipn_all, Nat.sub_diag. reflexivity.
Qed.

Lemma length_app_ge {A : Type} (k : nat) (older w : list A) :
  length w = k -> (k <=? length (older ++ w))%nat = true.
Proof. intros <-. rewrite length_app. apply Nat.leb_le. lia. Qed.

Lemma messages_distinct :
  NoDup [msg_rule1; msg_rule2; msg_rule3_inc; msg_rule3_dec; msg_rule4;
         msg_in_control].
Proof. repeat constructor; simpl; intuition discriminate. Qed.

Lemma in_inspection_rule1 data CL UCL LCL :
  data <> [] ->
  In msg_rule1 (inspection data CL UCL LCL) <-> fires1 data UCL LCL = true.
Proof.
  intros Hd. rewrite (inspection_alarms _ _ _ _ Hd).
  unfold alarms, when.
  destruct (fires1 data UCL LCL), (fires2 data CL), (increasing6 data),
    (decreasing6 data), (fires4 data CL UCL); cbn;
    intuition (discriminate || congruence).
Qed.

Lemma in_inspection_rule4 data CL UCL LCL :
  data <> [] ->
  In msg_rule4 (inspection data CL UCL LCL) <-> fires4 data CL UCL = true.
Proof.
  intros Hd. rewrite (inspection_alarms _ _ _ _ Hd).
  unfold alarms, when.
  destruct (fires1 data UCL LCL), (fires2 data CL), (increasing6 data),
    (decreasing6 data), (fires4 data CL UCL); cbn;
    intuition (discriminate || congruence).
Qed.

(** A history with at least [k] points splits at its last [k]. *)
Lemma split_lastn {A : Type} (k : nat) (data : list A) :
  (k <= length data)%nat ->
  data = firstn (length data - k) data ++ lastn k data
  /\ length (lastn k data) = k.
Proof.
  intros H. unfold lastn. split.
  - symmetry. apply firstn_skipn.
  - rewrite length_skipn. lia.
Qed.

Lemma fires1_table older x UCL LCL :
  fires1 (older ++ [x]) UCL LCL = true <->
  (UCL <? x) = true \/ (x <? LCL) = true.
Proof. unfold fires1. rewrite last_last. apply orb_true_iff. Qed.

Lemma fires2_table data CL :
  fires2 data CL = true <-> Table.rule2 data CL.
Proof.
  unfold fires2, Table.rule2, Table.lt.
  rewrite andb_true_iff, orb_true_iff, !forallb_forall, Nat.leb_le. split.
  - intros [Hn H]. destruct (split_lastn 7 data Hn) as [E L].
    exists (firstn (length data - 7) data), (lastn 7 data).
    rewrite !Forall_forall. auto.
  - intros (older & w & -> & L & H). rewrite (lastn_app 7 older w L).
    rewrite !Forall_forall in H. rewrite length_app. split; [lia | exact H].
Qed.

Lemma list6 {A : Type} (w : list A) :
  length w = 6%nat -> exists a b c d e f, w = [a; b; c; d; e; f].
Proof.
  do 7 (destruct w as [|? w]; try discriminate). eauto 10.
Qed.

Lemma increasing6_table data :
  increasing6 data = true <-> Table.rule3_increasing data.
Proof.
  unfold increasing6, Table.rule3_increasing, Table.lt.
  rewrite andb_true_iff, Nat.leb_le. split.
  - intros [Hn H]. destruct (split_lastn 6 data Hn) as [E L].
    destruct (list6 _ L) as (a & b & c & d & e & f & Ew).
    exists (firstn (length data - 6) data), a, b, c, d, e, f.
    rewrite Ew in *. cbn in H. rewrite !andb_true_iff in H. tauto.
  - intros (older & a & b & c & d & e & f & -> & H).
    rewrite (lastn_app 6 older [a; b; c; d; e; f] eq_refl), length_app. cbn.
    rewrite !andb_true_iff. split; [lia | tauto].
Qed.

Lemma decreasing6_table data :
  decreasing6 data = true <-> Table.rule3_decreasing data.
Proof.
  unfold decreasing6, Table.rule3_decreasing, Table.lt.
  rewrite andb_true_iff, Nat.leb_le. split.
  - intros [Hn H]. destruct (split_lastn 6 data Hn) as [E L].
    destruct (list6 _ L) as (a & b & c & d & e & f & Ew).
    exists (firstn (length data - 6) data), a, b, c, d, e, f.
    rewrite Ew in *. cbn in H. rewrite !andb_true_iff in H. tauto.
  - intros (older & a & b & c & d & e & f & -> & H).
    rewrite (lastn_app 6 older [a; b; c; d; e; f] eq_refl), length_app. cbn.
    rewrite !andb_true_iff. split; [lia | tauto].
Qed.

Lemma upper_third_forallb CL UCL w :
  forallb (fun x => mid_upper CL UCL <? x) w
  && forallb (fun x => (CL <? x) && (x <? UCL)) w = true <->
  Forall (Table.upper_third CL UCL) w.
Proof.
  rewrite andb_true_iff, !forallb_forall, Forall_forall.
  unfold Table.upper_third, Table.lt, mid_upper. split.
  - intros [H1 H2] x Hx. specialize (H1 x Hx). specialize (H2 x Hx).
    apply andb_true_iff in H2. tauto.
  - intros H. split; intros x Hx; destruct (H x Hx) as (? & ? & ?); auto.
    now apply andb_true_iff.
Qed.

Lemma fires4_table data CL UCL :
  fires4 data CL UCL = true <-> Table.rule4 data CL UCL.
Proof.
  unfold fires4, Table.rule4. rewrite andb_true_iff, Nat.leb_le.
  rewrite upper_third_forallb. split.
  - intros [Hn H]. destruct (split_lastn 4 data Hn) as [E L]. eauto.
  - intros (older & w & -> & L & H). rewrite (lastn_app 4 older w L).
    rewrite length_app. split; [lia | exact H].
Qed.

Lemma fires1_table' data UCL LCL :
  data <> [] -> fires1 data UCL LCL = true <-> Table.rule1 data UCL LCL.
Proof.
  intros Hd. destruct (exists_last Hd) as (older & x & ->).
  rewrite fires1_table. unfold Table.rule1, Table.lt. split.
  - intros H. eauto.
  - intros (o & y & E & H). apply app_inj_tail in E as [_ ->]. exact H.
Qed.

End InspectorFacts.

(** ** Claims on the rule inspector *)

Section InspectorClaims.
Import Inspector InspectorFacts.

(** C6.  For a history whose most recent rate is [x], the Rule 1
    message is in the result of [inspection] exactly when [x > UCL] or
    [x < LCL], both strict: a rate equal to UCL is not above UCL, a
    rate equal to LCL is not below LCL, and, under limits with
    [LCL <= UCL], a rate equal to one of them does not fire Rule 1. *)
Theorem rule1_fires_iff_outside_limits
  (older : list float) (x CL UCL LCL : float) :
  (In msg_rule1 (inspection (older ++ [x]) CL UCL LCL) <->
   (UCL <? x) = true \/ (x <? LCL) = true)
  /\ ((x =? UCL) = true -> (UCL <? x) = false)
  /\ ((x =? LCL) = true -> (x <? LCL) = false)
  /\ ((LCL <=? UCL) = true ->
      (x =? UCL) = true \/ (x =? LCL) = true ->
      ~ In msg_rule1 (inspection (older ++ [x]) CL UCL LCL)).
Proof.
  assert (Hd : older ++ [x] <> []) by (destruct older; discriminate).
  pose proof (in_inspection_rule1 _ CL UCL LCL Hd) as H1.
  rewrite fires1_table in H1.
  split; [exact H1|]. split; [|split].
  - intros E. now apply eqb_not_ltb in E.
  - intros E. now apply eqb_not_ltb in E.
  - intros Hle E. rewrite H1. intros [F|F].
    + destruct E as [E|E].
      * apply eqb_not_ltb in E. destruct E; congruence.
      * pose proof (leb_eqb_lower _ _ _ Hle E). congruence.
    + destruct E as [E|E].
      * pose proof (leb_eqb_upper _ _ _ Hle E). congruence.
      * apply eqb_not_ltb in E. destruct E; congruence.
Qed.

(** C7.  On a history that ends with the four rates [a, b, c, d], the
    Rule 4 message is in the result exactly when each of the four is
    strictly between CL and UCL and strictly above
    [CL + (UCL - CL) * 2 / 3]; it never is for a history of fewer than
    four rates; and one of the four being equal to CL prevents it. *)
Theorem rule4_fires_iff_upper_third (CL UCL LCL : float) :
  (forall older a b c d,
     In msg_rule4 (inspection (older ++ [a; b; c; d]) CL UCL LCL) <->
     Forall (fun x => (CL <? x) = true /\ (x <? UCL) = true /\
                      (CL + (UCL - CL) * Z2F 2 / Z2F 3 <? x) = true)
            [a; b; c; d])
  /\ (forall data, (length data < 4)%nat ->
        ~ In msg_rule4 (inspection data CL UCL LCL))
  /\ (forall older a b c d x,
        In x [a; b; c; d] -> (x =? CL) = true ->
        ~ In msg_rule4 (inspection (older ++ [a; b; c; d]) CL UCL LCL)).
Proof.
  assert (iff4 : forall older a b c d,
     In msg_rule4 (inspection (older ++ [a; b; c; d]) CL UCL LCL) <->
     Forall (Table.upper_third CL UCL) [a; b; c; d]).
  { intros. rewrite in_inspection_rule4 by (destruct older; discriminate).
    unfold fires4.
    rewrite (lastn_app 4 older [a; b; c; d] eq_refl).
    rewrite (length_app_ge 4 older [a; b; c; d] eq_refl).
    cbn [andb]. apply upper_third_forallb. }
  split; [exact iff4|]. split.
  - intros data Hn. destruct data as [|y data]; [simpl; tauto|].
    rewrite in_inspection_rule4 by discriminate. unfold fires4.
    apply Nat.ltb_lt in Hn. rewrite Nat.ltb_antisym in Hn.
    apply negb_true_iff in Hn. rewrite Hn. discriminate.
  - intros older a b c d x Hx E. rewrite iff4, Forall_forall.
    intros H. destruct (H x Hx) as (Hlt & _).
    apply eqb_not_ltb in E. destruct E. unfold Table.lt in Hlt. congruence.
Qed.

(** C8.  The empty history gives the empty result; a non-empty one
    gives exactly the in-control marker when (and only when) none of
    the trigger conditions of the four rules holds. *)
Theorem empty_history_or_in_control (CL UCL LCL : float) :
  inspection [] CL UCL LCL = []
  /\ forall data, data <> [] ->
     (~ Table.rule1 data UCL LCL /\ ~ Table.rule2 data CL /\
      ~ Table.rule3_increasing data /\ ~ Table.rule3_decreasing data /\
      ~ Table.rule4 data CL UCL
      <-> inspection data CL UCL LCL = [msg_in_control]).
Proof.
  split; [reflexivity|]. intros data Hd.
  rewrite <- (fires1_table' data UCL LCL Hd), <- fires2_table,
    <- increasing6_table, <- decreasing6_table, <- fires4_table.
  rewrite (inspection_alarms _ _ _ _ Hd). unfold alarms, when.
  destruct (fires1 data UCL LCL), (fires2 data CL), (increasing6 data),
    (decreasing6 data), (fires4 data CL UCL); cbn;
    intuition (discriminate || congruence).
Qed.

(** C10.  On a non-empty history the result holds each rule's message
    at most once, never both Rule 3 messages, only messages of the
    inspector, and between one and four entries. *)
Theorem at_most_one_message_per_rule
  (data : list float) (CL UCL LCL : float) :
  data <> [] ->
  let result := inspection data CL UCL LCL in
  (count_occ string_dec result msg_rule1 <= 1)%nat
  /\ (count_occ string_dec result msg_rule2 <= 1)%nat
  /\ (count_occ string_dec result msg_rule3_inc
      + count_occ string_dec result msg_rule3_dec <= 1)%nat
  /\ (count_occ string_dec result msg_rule4 <= 1)%nat
  /\ ~ (In msg_rule3_inc result /\ In msg_rule3_dec result)
  /\ incl result [msg_rule1; msg_rule2; msg_rule3_inc; msg_rule3_dec;
                  msg_rule4; msg_in_control]
  /\ (1 <= length result <= 4)%nat.
Proof.
  intros Hd result. subst result.
  rewrite (inspection_alarms _ _ _ _ Hd). unfold alarms, when.
  destruct (fires1 data UCL LCL), (fires2 data CL), (increasing6 data),
    (decreasing6 data), (fires4 data CL UCL); cbn [negb andb app];
    (repeat split;
     [vm_compute; lia | vm_compute; lia | vm_compute; lia | vm_compute; lia
     | cbn; intuition discriminate
     | intros m Hm; cbn in Hm |- *; tauto
     | cbn; lia | cbn; lia ]).
Qed.

End InspectorClaims.

(** ** Claims on the estimator and the generator, at fixed inputs *)

(** C1, refuted as stated: 26 rates 0.01 with 26 counts of 1923 give
    CL = 0.01, but UCL is above 0.0168 and LCL below 0.0032. *)
Lemma constant_rates_limits_apart :
  let '(CL, UCL, LCL) :=
    calculate_control_limits (repeat 0.01 26) (repeat 1923%Z 26) in
  (CL =? 0.01) = true /\ (UCL =? 0.01) = false /\ (LCL =? 0.01) = false
  /\ (0.0168 <? UCL) = true /\ (LCL <? 0.0032) = true.
Proof. vm_compute. repeat split. Qed.

(** C4, refuted as stated: on empty sequences the estimator returns,
    and the center line and the upper limit it returns are NaN. *)
Lemma empty_input_returns_nan :
  exists CL UCL LCL,
    calculate_control_limits [] [] = (CL, UCL, LCL)
    /\ is_nan CL = true /\ is_nan UCL = true.
Proof. exists nan, nan, 0. vm_compute. repeat split. Qed.

(** C9, refuted as stated: the empty sequences have all rates in
    [0, 1] and all counts positive, and their limits are not ordered
    (LCL is 0, CL and UCL are NaN). *)
Lemma empty_input_limits_unordered :
  Forall (fun r => (0 <=? r) = true /\ (r <=? 1) = true) []
  /\ Forall (fun c => (0 < c)%Z) []
  /\ let '(CL, UCL, LCL) := calculate_control_limits [] [] in
     (LCL <=? CL) = false /\ (CL <=? UCL) = false.
Proof. repeat split; constructor. Qed.

(** C2: with the variance setting 0.30 and a normal variate of -3.5
    the production count of the line "First Exterior" is -96; the
    Poisson mean is then negative and [mhConverter] raises
    [ValueError] before it reaches its guard on the count. *)
Lemma mhConverter_negative_count_raises :
  fst (run_scripted
         (mhConverter scripted_normal scripted_poisson
                      800000 11000 26 2 8 0.3)
         ([-3.5], [0%Z]))
  = Raised ValueError
  /\ fst (run_scripted
            (x <- np_random_normal script scripted_normal
                    (Z2F 800000 / Z2F 416)
                    (Z2F 800000 / Z2F 416 * 0.3) ;;
             lift (int x))
            ([-3.5], [0%Z]))
     = Returned (-96)%Z.
Proof. split; vm_compute; reflexivity. Qed.

(** C3, refuted as stated: for the sample 1923.65... the production
    count is 1923, and the nearest integer is 1924. *)
Lemma production_count_not_rounded :
  let g : script := ([0.01], [27%Z]) in
  exists x,
    fst (run_scripted
           (np_random_normal script scripted_normal
              (Z2F 800000 / Z2F 416) (Z2F 800000 / Z2F 416 * 0.03)) g)
    = Returned x
    /\ (1923.65 <? x) = true
    /\ py_round x = Returned 1924%Z
    /\ fst (run_scripted
              (mhConverter scripted_normal scripted_poisson
                           800000 11000 26 2 8 0.03) g)
       = Returned (1923%Z, 27%Z, Z2F 27 / Z2F 1923).
Proof.
  eexists. split; [vm_compute; reflexivity|].
  vm_compute. repeat split.
Qed.

(** ** The baseline *)

(** A new key goes to the end of the dict. *)
Lemma dict_set_new {V : Type} (k : string) (v : V) d :
  ~ In k (map fst d) -> dict_set k v d = d ++ [(k, v)].
Proof.
  induction d as [|[k' v'] d IH]; cbn; [reflexivity|]. intros H.
  destruct (String.eqb k k') eqn:E.
  - apply String.eqb_eq in E. subst. tauto.
  - rewrite IH; [reflexivity | tauto].
Qed.

(** The names of the registry are distinct. *)
Lemma production_lines_distinct : NoDup (map fst PRODUCTION_LINES).
Proof.
  repeat constructor; cbn; intuition discriminate.
Qed.

Section BaselineFacts.

Variable G : Type.
Variable standard_normal : G -> float * G.
Variable poisson_variate : float -> G -> Z * G.

Lemma quiet_ret {A : Type} (a : A) : quiet (@ret G A a).
Proof. intros w. reflexivity. Qed.

Lemma quiet_raise {A : Type} (e : exn) : quiet (@raise G A e).
Proof. intros w. reflexivity. Qed.

Lemma quiet_lift {A : Type} (o : outcome A) : quiet (@lift G A o).
Proof. intros w. reflexivity. Qed.

Lemma quiet_with_gen {A : Type} (f : G -> A * G) : quiet (with_gen f).
Proof. intros w. unfold with_gen. now destruct (f (gen w)). Qed.

Lemma quiet_bind {A B : Type} (m : M G A) (f : A -> M G B) :
  quiet m -> (forall a, quiet (f a)) -> quiet (bind m f).
Proof.
  intros Hm Hf w. unfold bind. specialize (Hm w).
  destruct (m w) as [[a|e] w']; cbn [snd] in *.
  - now rewrite Hf.
  - exact Hm.
Qed.

Lemma quiet_print (e : event) :
  match e with PrintLimits _ _ _ _ => False | _ => True end ->
  quiet (@print G e).
Proof.
  intros He w. unfold print, limit_events. cbn [snd stdout].
  rewrite filter_app. destruct e; try contradiction; cbn;
    now rewrite app_nil_r.
Qed.

Lemma quiet_mhConverter mp md days shifts hps sigma :
  quiet (mhConverter standard_normal poisson_variate
                     mp md days shifts hps sigma).
Proof.
  unfold mhConverter, np_random_normal, np_random_poisson.
  repeat first
    [ apply quiet_bind; [|intros ?]
    | apply quiet_lift | apply quiet_ret | apply quiet_raise
    | apply quiet_with_gen
    | match goal with |- quiet (if ?b then _ else _) => destruct b end ].
Qed.

Lemma quiet_comments (comments : list string) :
  quiet (fold_right (fun c k => bind (print (PrintComment c)) (fun _ => k))
           (@ret G unit tt) comments).
Proof.
  induction comments as [|c cs IH]; cbn.
  - apply quiet_ret.
  - apply quiet_bind; [now apply quiet_print | intros _; exact IH].
Qed.

Lemma quiet_tick sigma control_limits lines hourly_data current_hour :
  quiet (tick standard_normal poisson_variate sigma control_limits lines
              hourly_data current_hour).
Proof.
  revert hourly_data.
  induction lines as [|[line_name line] lines IH]; intros hourly_data; cbn.
  - apply quiet_ret.
  - destruct (dict_get line_name control_limits) as [[[CL UCL] LCL]|];
      [|apply quiet_raise].
    destruct (dict_get line_name hourly_data) as [h|]; [|apply quiet_raise].
    apply quiet_bind; [apply quiet_mhConverter|].
    intros [[prod defects] rate].
    apply quiet_bind; [now apply quiet_print | intros _].
    apply quiet_bind; [apply quiet_comments | intros _]. apply IH.
Qed.

Lemma quiet_monitoring sigma control_limits hourly_data current_hour console :
  quiet (monitoring standard_normal poisson_variate sigma control_limits
                    hourly_data current_hour console).
Proof.
  revert hourly_data current_hour.
  induction console as [|user_input console IH];
    intros hourly_data current_hour; cbn [monitoring].
  - apply quiet_bind; [now apply quiet_print | intros _].
    apply quiet_bind; [apply quiet_tick | intros ?]. apply quiet_raise.
  - apply quiet_bind; [now apply quiet_print | intros _].
    apply quiet_bind; [apply quiet_tick | intros ?].
    destruct (wants_quit user_input); [now apply quiet_print | apply IH].
Qed.

(** The loop of [initialize_control_limits] collects the rates and the
    counts of its [k] samples, in order. *)
Lemma warm_up_samples k line sigma failure_rates production_counts w :
  warm_up standard_normal poisson_variate k line sigma
          failure_rates production_counts w
  = bind (Baseline.sample_n G k
            (mhConverter standard_normal poisson_variate
               (monthly_production line) (monthly_defects line)
               default_days default_shifts default_hours_per_shift sigma))
         (fun samples =>
            ret (failure_rates ++ map (fun s => snd s) samples,
                 production_counts ++ map (fun s => fst (fst s)) samples)) w.
Proof.
  revert failure_rates production_counts w.
  induction k as [|k IH]; intros failure_rates production_counts w; cbn.
  - unfold bind, ret. now rewrite !app_nil_r.
  - unfold bind at 1 2 3.
    destruct (mhConverter _ _ _ _ _ _ _ _ w) as [[[[prod defects] rate]|e] w1];
      [|reflexivity].
    rewrite IH. unfold bind, ret.
    destruct (Baseline.sample_n G k _ w1) as [[samples|e] w2];
      [|reflexivity].
    cbn. now rewrite <- !app_assoc.
Qed.

Lemma initialize_control_limits_baseline line_name line w :
  initialize_control_limits standard_normal poisson_variate
                            line_name line 0.03 w
  = Baseline.baseline G standard_normal poisson_variate line w.
Proof.
  unfold initialize_control_limits, Baseline.baseline, bind at 1.
  rewrite warm_up_samples. unfold bind, ret.
  change default_sigma with 0.03.
  now destruct (Baseline.sample_n G 50 _ w) as [[samples|e] w1].
Qed.

Lemma bind_ret_r {A : Type} (m : M G A) w : bind m ret w = m w.
Proof. unfold bind, ret. now destruct (m w) as [[a|e] w1]. Qed.

(** The first loop of [run_simulation], over lines with distinct
    names that are not in the dict yet, adds to the dict what the
    specification's frozen limits hold, and leaves the same world. *)
Lemma freeze_limits_frozen lines control_limits w :
  NoDup (map fst lines) ->
  (forall n, In n (map fst lines) -> ~ In n (map fst control_limits)) ->
  freeze_limits standard_normal poisson_variate lines control_limits w
  = bind (Baseline.frozen G standard_normal poisson_variate lines)
         (fun new => ret (control_limits ++ new)) w.
Proof.
  revert control_limits w.
  induction lines as [|[line_name line] lines IH]; intros control_limits w;
    cbn [freeze_limits Baseline.frozen map fst]; intros ND Hd.
  - unfold bind, ret. now rewrite app_nil_r.
  - inversion ND as [|? ? Hnot ND']; subst.
    unfold bind, print, ret. rewrite initialize_control_limits_baseline.
    destruct (Baseline.baseline G _ _ line w) as [[[[CL UCL] LCL]|e] w1];
      [|reflexivity].
    rewrite dict_set_new by (apply Hd; now left).
    rewrite IH; [|exact ND'|].
    + unfold bind, ret.
      destruct (Baseline.frozen G _ _ lines _) as [[rest|e] w2];
        [|reflexivity].
      now rewrite <- app_assoc.
    + intros n Hn. rewrite map_app, in_app_iff. cbn.
      intros [H|[H|[]]]; [apply (Hd n); [now right | exact H]|].
      rewrite <- H in Hn. contradiction.
Qed.

(** The entry of each line in the frozen limits is the result of a
    baseline of that line. *)
Lemma frozen_entries lines w control_limits w1 :
  NoDup (map fst lines) ->
  Baseline.frozen G standard_normal poisson_variate lines w
  = (Returned control_limits, w1) ->
  map fst control_limits = map fst lines
  /\ forall line_name line, In (line_name, line) lines ->
       exists limits w0 w0',
         dict_get line_name control_limits = Some limits
         /\ Baseline.baseline G standard_normal poisson_variate line w0
            = (Returned limits, w0').
Proof.
  revert w control_limits.
  induction lines as [|[n1 l1] lines IH]; intros w control_limits ND;
    cbn [Baseline.frozen map fst].
  - unfold ret. intros E. inversion E; subst. split; [reflexivity|].
    intros ? ? [].
  - inversion ND as [|? ? Hnot ND']; subst.
    unfold bind at 1.
    destruct (Baseline.baseline G _ _ l1 w) as [[[[CL UCL] LCL]|e] w2] eqn:B;
      [|discriminate].
    unfold bind at 1. unfold print at 1. unfold bind, ret.
    destruct (Baseline.frozen G _ _ lines _) as [[rest|e] w3] eqn:F;
      [|discriminate].
    intros E. inversion E; subst. destruct (IH _ _ ND' F) as [K Hrest].
    split; [cbn; now rewrite K|].
    intros line_name line [H|H].
    + inversion H; subst. exists (CL, UCL, LCL), w, w2.
      cbn. now rewrite String.eqb_refl.
    + destruct (Hrest _ _ H) as (limits & w0 & w0' & D & B').
      exists limits, w0, w0'. split; [|exact B'].
      cbn. destruct (String.eqb line_name n1) eqn:Q; [|exact D].
      apply String.eqb_eq in Q. subst. exfalso. apply Hnot.
      apply (in_map fst) in H. exact H.
Qed.

End BaselineFacts.

(** C5.  Whatever the live sigma and the console answers, the limits
    that [run_simulation] freezes are, line by line, the estimator's
    limits on 50 samples drawn with sigma 0.03.  The dict that its
    first loop stores, and the world it leaves, are those of the
    specification's frozen limits, in which the live sigma does not
    occur; this dict is the one that the monitoring loop reads, with
    the live sigma; the entry of each line in it is the result of a
    baseline of that line; and the limits that the run prints are the
    frozen ones, the same for every live sigma and console. *)
Theorem frozen_limits_use_default_sigma
  (G : Type) (standard_normal : G -> float * G)
  (poisson_variate : float -> G -> Z * G)
  (sigma : float) (console : list str) (w : world G) :
  freeze_limits standard_normal poisson_variate PRODUCTION_LINES [] w
  = Baseline.frozen G standard_normal poisson_variate PRODUCTION_LINES w
  /\ run_simulation standard_normal poisson_variate sigma console w
     = bind (Baseline.frozen G standard_normal poisson_variate
                             PRODUCTION_LINES)
            (fun control_limits =>
               monitoring standard_normal poisson_variate sigma
                          control_limits Baseline.empty_histories 1 console)
            w
  /\ (forall control_limits w1,
        Baseline.frozen G standard_normal poisson_variate PRODUCTION_LINES w
        = (Returned control_limits, w1) ->
        map fst control_limits = map fst PRODUCTION_LINES
        /\ forall line_name line, In (line_name, line) PRODUCTION_LINES ->
             exists limits w0 w0',
               dict_get line_name control_limits = Some limits
               /\ Baseline.baseline G standard_normal poisson_variate
                                    line w0
                  = (Returned limits, w0'))
  /\ limit_events
       (stdout (snd (run_simulation standard_normal poisson_variate
                                    sigma console w)))
     = limit_events
         (stdout (snd (Baseline.frozen G standard_normal poisson_variate
                                       PRODUCTION_LINES w)))
  /\ forall sigma' console',
       limit_events
         (stdout (snd (run_simulation standard_normal poisson_variate
                                      sigma console w)))
       = limit_events
           (stdout (snd (run_simulation standard_normal poisson_variate
                                        sigma' console' w))).
Proof.
  assert (F : freeze_limits standard_normal poisson_variate
                            PRODUCTION_LINES [] w
              = Baseline.frozen G standard_normal poisson_variate
                                PRODUCTION_LINES w).
  { rewrite freeze_limits_frozen;
      [apply bind_ret_r | exact production_lines_distinct | intros n _ []]. }
  assert (R : forall s c,
    run_simulation standard_normal poisson_variate s c w
    = bind (Baseline.frozen G standard_normal poisson_variate
                            PRODUCTION_LINES)
           (fun control_limits =>
              monitoring standard_normal poisson_variate s
                         control_limits Baseline.empty_histories 1 c) w).
  { intros s c. unfold run_simulation, bind. now rewrite F. }
  assert (H : forall s c,
    limit_events
      (stdout (snd (run_simulation standard_normal poisson_variate s c w)))
    = limit_events
        (stdout (snd (Baseline.frozen G standard_normal poisson_variate
                                      PRODUCTION_LINES w)))).
  { intros s c. rewrite R. unfold bind.
    destruct (Baseline.frozen G _ _ PRODUCTION_LINES w) as [[cl|e] w1];
      [|reflexivity].
    cbn [snd]. apply quiet_monitoring. }
  split; [exact F|]. split; [apply R|]. split.
  - intros control_limits w1 E.
    apply (frozen_entries G standard_normal poisson_variate
             PRODUCTION_LINES w control_limits w1
             production_lines_distinct E).
  - split; [apply H|]. intros sigma' console'. now rewrite !H.
Qed.

(** ** NaN propagation *)

Lemma mul_nan_l (x : float) : nan * x = nan.
Proof.
  apply Prim2SF_inj. rewrite mul_spec.
  change (Prim2SF nan) with S754_nan. reflexivity.
Qed.

Lemma mul_nan_r (x : float) : x * nan = nan.
Proof.
  apply Prim2SF_inj. rewrite mul_spec.
  change (Prim2SF nan) with S754_nan. now destruct (Prim2SF x).
Qed.

Lemma div_nan_l (x : float) : nan / x = nan.
Proof.
  apply Prim2SF_inj. rewrite div_spec.
  change (Prim2SF nan) with S754_nan. reflexivity.
Qed.

Lemma div_nan_r (x : float) : x / nan = nan.
Proof.
  apply Prim2SF_inj. rewrite div_spec.
  change (Prim2SF nan) with S754_nan. now destruct (Prim2SF x).
Qed.

Lemma add_nan_r (x : float) : x + nan = nan.
Proof.
  apply Prim2SF_inj. rewrite add_spec.
  change (Prim2SF nan) with S754_nan. now destruct (Prim2SF x).
Qed.

Lemma sub_nan_r (x : float) : x - nan = nan.
Proof.
  apply Prim2SF_inj. rewrite sub_spec.
  change (Prim2SF nan) with S754_nan. now destruct (Prim2SF x).
Qed.

(** C4, as the code has it: on an empty rate sequence, whatever the
    production counts, the estimator returns: CL and UCL are NaN and
    LCL is 0 ([max(0, nan)] is [0]); on an empty count sequence and
    any rates, UCL is NaN and LCL is 0. *)
Theorem empty_input_gives_nan_limits :
  (forall production_counts,
     calculate_control_limits [] production_counts = (nan, nan, 0))
  /\ (forall failure_rates,
        calculate_control_limits failure_rates []
        = (np_mean failure_rates, nan, 0)).
Proof.
  split.
  - intros production_counts. unfold calculate_control_limits.
    change (np_mean []) with nan.
    rewrite mul_nan_l, div_nan_l. change (sqrt nan) with nan.
    rewrite mul_nan_r. reflexivity.
  - intros failure_rates. unfold calculate_control_limits.
    change (np_mean_int []) with nan.
    rewrite div_nan_r. change (sqrt nan) with nan.
    rewrite mul_nan_r, add_nan_r, sub_nan_r. reflexivity.
Qed.

(** ** Binary64 rounding *)

Module Binary64Facts.
Import Binary64.
Local Open Scope Z_scope.

Lemma bpow_pos e : (0 < bpow e)%Q.
Proof. apply Qpower_0_lt. reflexivity. Qed.

Lemma bpow_add a b : (bpow (a + b) == bpow a * bpow b)%Q.
Proof. apply Qpower_plus. discriminate. Qed.

Lemma bpow_Z e : 0 <= e -> (bpow e == inject_Z (2 ^ e))%Q.
Proof. intros H. unfold bpow. now rewrite Zpower_Qpower. Qed.

Lemma bpow_le a b : a <= b -> (bpow a <= bpow b)%Q.
Proof. intros H. apply Qpower_le_compat_l; [exact H | discriminate]. Qed.

Lemma bpow_lt a b : a < b -> (bpow a < bpow b)%Q.
Proof. intros H. apply Qpower_lt_compat_l; [exact H | reflexivity]. Qed.

Lemma bpow_0 : (bpow 0 == 1)%Q.
Proof. reflexivity. Qed.

Lemma F2Q_shift m e k : 0 <= k -> (F2Q (m * 2 ^ k) (e - k) == F2Q m e)%Q.
Proof.
  intros Hk. unfold F2Q.
  rewrite inject_Z_mult, <- (bpow_Z k Hk).
  replace e with ((e - k) + k) at 2 by lia. rewrite bpow_add. ring.
Qed.

Lemma F2Q_le m1 m2 e : m1 <= m2 -> (F2Q m1 e <= F2Q m2 e)%Q.
Proof.
  intros H. unfold F2Q. apply Qmult_le_compat_r.
  - now rewrite <- Zle_Qle.
  - apply Qlt_le_weak, bpow_pos.
Qed.

Lemma F2Q_lt m1 m2 e : m1 < m2 -> (F2Q m1 e < F2Q m2 e)%Q.
Proof.
  intros H. unfold F2Q. apply Qmult_lt_compat_r.
  - apply bpow_pos.
  - now rewrite <- Zlt_Qlt.
Qed.

Lemma F2Q_le_inv m1 m2 e : (F2Q m1 e <= F2Q m2 e)%Q -> m1 <= m2.
Proof.
  intros H. destruct (Z_le_gt_dec m1 m2) as [L|G]; [exact L|].
  exfalso. assert (F2Q m2 e < F2Q m1 e)%Q by (apply F2Q_lt; lia). lra.
Qed.

Lemma F2Q_lt_inv m1 m2 e : (F2Q m1 e < F2Q m2 e)%Q -> m1 < m2.
Proof.
  intros H. destruct (Z_lt_ge_dec m1 m2) as [L|G]; [exact L|].
  exfalso. assert (F2Q m2 e <= F2Q m1 e)%Q by (apply F2Q_le; lia). lra.
Qed.

(** Same value at a lower exponent. *)
Lemma F2Q_align m e e' : e' <= e -> (F2Q m e == F2Q (m * 2 ^ (e - e')) e')%Q.
Proof.
  intros H. rewrite <- (F2Q_shift m e (e - e')) by lia.
  now replace (e - (e - e')) with e' by lia.
Qed.

(** Digits *)
Lemma digits2_pos_bounds p :
  2 ^ (Zpos (digits2_pos p) - 1) <= Zpos p < 2 ^ Zpos (digits2_pos p).
Proof.
  induction p as [p IH|p IH|]; cbn [digits2_pos].
  - rewrite Pos2Z.inj_succ.
    replace (Z.succ (Zpos (digits2_pos p)) - 1) with (Z.succ (Zpos (digits2_pos p) - 1)) by lia.
    rewrite !Z.pow_succ_r by lia. lia.
  - rewrite Pos2Z.inj_succ.
    replace (Z.succ (Zpos (digits2_pos p)) - 1) with (Z.succ (Zpos (digits2_pos p) - 1)) by lia.
    rewrite !Z.pow_succ_r by lia. lia.
  - cbn. lia.
Qed.

(** [d] is the number of binary digits of [m]. *)
Lemma digits_unique m d d' :
  2 ^ (d - 1) <= m < 2 ^ d -> 2 ^ (d' - 1) <= m < 2 ^ d' -> 0 < d -> 0 < d' -> d = d'.
Proof.
  intros [H1 H2] [H3 H4] Hd Hd'.
  destruct (Z.lt_trichotomy d d') as [L|[E|G]]; [|exact E|].
  - assert (2 ^ d <= 2 ^ (d' - 1)) by (apply Z.pow_le_mono_r; lia). lia.
  - assert (2 ^ d' <= 2 ^ (d - 1)) by (apply Z.pow_le_mono_r; lia). lia.
Qed.

Lemma Zdigits2_bounds m : 0 < m ->
  0 < Zdigits2 m /\ 2 ^ (Zdigits2 m - 1) <= m < 2 ^ Zdigits2 m.
Proof.
  destruct m as [|p|p]; try lia. intros _. cbn [Zdigits2].
  split; [lia | apply digits2_pos_bounds].
Qed.

Lemma fexp64_eq e : fexp64 e = Z.max (e - 53) (-1074).
Proof. reflexivity. Qed.

Lemma canonical_canon m e :
  canonical_mantissa prec emax m e = true -> canon (Zpos m) e.
Proof.
  unfold canonical_mantissa. rewrite Z.eqb_eq, fexp64_eq.
  pose proof (digits2_pos_bounds m) as [H1 H2].
  set (d := Zpos (digits2_pos m)) in *. intros H.
  assert (Hd : d <= 53) by lia.
  unfold canon. split; [|split].
  - split; [lia|]. assert (2 ^ d <= 2 ^ 53) by (apply Z.pow_le_mono_r; lia). lia.
  - lia.
  - intros He. assert (d = 53) by lia. subst d. now replace 52 with (53 - 1) by lia; rewrite <- H0.
Qed.

Lemma canon_canonical m e :
  canon (Zpos m) e -> canonical_mantissa prec emax m e = true.
Proof.
  unfold canonical_mantissa, canon. rewrite Z.eqb_eq, fexp64_eq.
  pose proof (digits2_pos_bounds m) as [H1 H2].
  set (d := Zpos (digits2_pos m)) in *. intros ([_ Hm] & He & Hn).
  assert (Hd : d <= 53).
  { destruct (Z_le_gt_dec d 53) as [L|G]; [exact L|]. exfalso.
    assert (2 ^ 53 <= 2 ^ (d - 1)) by (apply Z.pow_le_mono_r; lia). lia. }
  destruct (Z.eq_dec e (-1074)) as [->|Hne]; [lia|].
  assert (H52 : 2 ^ 52 <= Zpos m) by (apply Hn; lia).
  assert (d = 53).
  { destruct (Z.eq_dec d 53) as [E|N]; [exact E|]. exfalso.
    assert (2 ^ d <= 2 ^ 52) by (apply Z.pow_le_mono_r; lia). lia. }
  lia.
Qed.

(** ** Right shifts *)

Lemma div2_xI p : Zpos p~1 / 2 = Zpos p.
Proof. symmetry. apply Z.div_unique with (r := 1); lia. Qed.

Lemma div2_xO p : Zpos p~0 / 2 = Zpos p.
Proof. symmetry. apply Z.div_unique with (r := 0); lia. Qed.

Lemma shifted_1 a : 0 <= shr_m a -> shifted a (shr_1 a) 1.
Proof.
  destruct a as [m r s]. cbn [shr_m]. intros Hm. unfold shifted, inexact.
  change (2 ^ 1) with 2.
  destruct m as [|[p|p|]|p]; try lia; cbn [shr_1 shr_m shr_r shr_s];
    rewrite ?div2_xI, ?div2_xO;
    (split; [lia|]); (split; [reflexivity|]);
    destruct r, s; cbn [orb]; split; try intros [? ?]; try discriminate;
    try lia; try (split; [reflexivity | lia]).
Qed.

Lemma shifted_trans a b c k1 k2 :
  0 <= k1 -> 0 <= k2 -> 0 <= shr_m a ->
  shifted a b k1 -> shifted b c k2 -> shifted a c (k1 + k2).
Proof.
  intros Hk1 Hk2 Ha (Hb & Eb & Xb) (Hc & Ec & Xc).
  assert (P1 : 0 < 2 ^ k1) by (apply Z.pow_pos_nonneg; lia).
  assert (P2 : 0 < 2 ^ k2) by (apply Z.pow_pos_nonneg; lia).
  unfold shifted. split; [exact Hc|]. split.
  - rewrite Ec, Eb, Z.pow_add_r by lia. apply Z.div_div; lia.
  - rewrite Xc, Xb, Z.pow_add_r by lia.
    pose proof (Z.mul_div_le (shr_m a) (2 ^ k1) P1) as L1.
    pose proof (Z.mul_div_le (shr_m b) (2 ^ k2) P2) as L2.
    rewrite <- Eb in L1. rewrite <- Ec in L2.
    split.
    + intros [[I E1] E2]. split; [exact I|]. rewrite <- E1, <- E2. ring.
    + intros [I E]. 
      assert (shr_m c * 2 ^ k2 = shr_m b) by nia.
      split; [split; [exact I|]|assumption]. nia.
Qed.

Lemma shifted_iter p a :
  0 <= shr_m a -> shifted a (iter_pos shr_1 p a) (Zpos p).
Proof.
  revert a. induction p as [p IH|p IH|]; intros a Ha; cbn [iter_pos].
  - pose proof (shifted_1 a Ha) as S1.
    assert (H1 : 0 <= shr_m (shr_1 a)) by apply S1.
    pose proof (IH _ H1) as S2.
    assert (H2 : 0 <= shr_m (iter_pos shr_1 p (shr_1 a))) by apply S2.
    pose proof (IH _ H2) as S3.
    replace (Zpos p~1) with (1 + Zpos p + Zpos p) by lia.
    eapply shifted_trans; try lia; [|exact S3].
    eapply shifted_trans; try lia; eassumption.
  - pose proof (IH _ Ha) as S2.
    assert (H2 : 0 <= shr_m (iter_pos shr_1 p a)) by apply S2.
    pose proof (IH _ H2) as S3.
    replace (Zpos p~0) with (Zpos p + Zpos p) by lia.
    eapply shifted_trans; try lia; eassumption.
  - now apply shifted_1.
Qed.

(** ** Rounding *)

Lemma inexact_of_loc m l :
  inexact (shr_record_of_loc m l) = false <-> l = loc_Exact.
Proof. destruct l as [|[| |]]; cbn; split; congruence. Qed.

Lemma shr_m_of_loc m l : shr_m (shr_record_of_loc m l) = m.
Proof. now destruct l as [|[| |]]. Qed.

Lemma loc_of_inexact b :
  loc_of_shr_record b = loc_Exact <-> inexact b = false.
Proof. destruct b as [m [|] [|]]; cbn; split; congruence. Qed.

Lemma shifted_located m e l v b k :
  0 <= m -> 0 <= k -> located m e l v ->
  shifted (shr_record_of_loc m l) b k ->
  located (shr_m b) (e + k) (loc_of_shr_record b) v.
Proof.
  intros Hm Hk (Lo & Hi & Ex) (Hb & Eb & Xb).
  rewrite shr_m_of_loc in Eb, Xb. rewrite inexact_of_loc in Xb.
  set (m' := shr_m b) in *.
  assert (PK : 0 < 2 ^ k) by (apply Z.pow_pos_nonneg; lia).
  pose proof (Z.mul_div_le m (2 ^ k) PK) as L1.
  pose proof (Z.mul_succ_div_gt m (2 ^ k) PK) as L2.
  rewrite <- Eb in L1, L2.
  assert (A : forall n, (F2Q n (e + k) == F2Q (n * 2 ^ k) e)%Q).
  { intros n. rewrite (F2Q_align n (e + k) e) by lia.
    now replace (e + k - e) with k by lia. }
  unfold located. rewrite !A. split; [|split].
  - apply Qle_trans with (2 := Lo). apply F2Q_le. lia.
  - apply Qlt_le_trans with (1 := Hi). apply F2Q_le. lia.
  - rewrite loc_of_inexact, Xb, Ex. split.
    + intros [E1 E2]. now rewrite E2.
    + intros E. assert (m <= m' * 2 ^ k).
      { apply (F2Q_le_inv _ _ e). now rewrite <- E. }
      assert (E2 : m' * 2 ^ k = m) by lia. split; [|exact E2].
      now rewrite <- E2.
Qed.

Lemma shifted_0 a : 0 <= shr_m a -> shifted a a 0.
Proof.
  intros H. unfold shifted. change (2 ^ 0) with 1.
  rewrite Z.div_1_r, Z.mul_1_r. tauto.
Qed.

Lemma shr_fexp_spec m e l :
  0 <= m ->
  let k := Z.max 0 (fexp64 (Zdigits2 m + e) - e) in
  exists b, shr_fexp prec emax m e l = (b, e + k)
            /\ shifted (shr_record_of_loc m l) b k.
Proof.
  intros Hm k. unfold shr_fexp, shr. subst k.
  destruct (fexp64 (Zdigits2 m + e) - e) as [|p|p] eqn:E.
  - exists (shr_record_of_loc m l). rewrite Z.add_0_r. split; [reflexivity|].
    apply shifted_0. now rewrite shr_m_of_loc.
  - exists (iter_pos shr_1 p (shr_record_of_loc m l)).
    replace (Z.max 0 (Zpos p)) with (Zpos p) by lia. split; [reflexivity|].
    apply shifted_iter. now rewrite shr_m_of_loc.
  - exists (shr_record_of_loc m l).
    replace (Z.max 0 (Zneg p)) with 0 by lia. rewrite Z.add_0_r.
    split; [reflexivity|]. apply shifted_0. now rewrite shr_m_of_loc.
Qed.

Lemma round_nearest_even_cases m l :
  (round_nearest_even m l = m \/ round_nearest_even m l = m + 1)
  /\ (l = loc_Exact -> round_nearest_even m l = m).
Proof.
  destruct l as [|[| |]]; cbn; try (destruct (Z.even m)); split; auto;
    discriminate.
Qed.

(** No canonical number lies strictly between two neighbours. *)
Lemma canon_gap m e mx ex :
  canon m e -> canon mx ex ->
  ((F2Q mx ex < F2Q (m + 1) e)%Q -> (F2Q mx ex <= F2Q m e)%Q)
  /\ ((F2Q m e < F2Q mx ex)%Q -> (F2Q (m + 1) e <= F2Q mx ex)%Q).
Proof.
  intros ([Hm0 Hm] & He & Hn) ([Hx0 Hx] & Hex & Hxn).
  destruct (Z_le_gt_dec e ex) as [L|G].
  - rewrite (F2Q_align mx ex e L). split; intros H.
    + apply F2Q_lt_inv in H. apply F2Q_le. lia.
    + apply F2Q_lt_inv in H. apply F2Q_le. lia.
  - assert (H52 : 2 ^ 52 <= m) by (apply Hn; lia).
    assert (P : 2 <= 2 ^ (e - ex)).
    { change 2 with (2 ^ 1) at 1. apply Z.pow_le_mono_r; lia. }
    assert (Lt : (F2Q mx ex < F2Q m e)%Q).
    { rewrite (F2Q_align m e ex) by lia. apply F2Q_lt.
      change (2 ^ 53) with (2 ^ 52 * 2) in Hx. nia. }
    split; intros H.
    + now apply Qlt_le_weak.
    + exfalso. lra.
Qed.

Lemma Zdigits2_le_53 m : 0 <= m < 2 ^ 53 -> Zdigits2 m <= 53.
Proof.
  intros [H0 H]. destruct (Z.eq_dec m 0) as [->|N]; [cbn; lia|].
  destruct (Zdigits2_bounds m) as (Hd & H1 & H2); [lia|].
  destruct (Z_le_gt_dec (Zdigits2 m) 53) as [L|G]; [exact L|]. exfalso.
  assert (2 ^ 53 <= 2 ^ (Zdigits2 m - 1)) by (apply Z.pow_le_mono_r; lia).
  lia.
Qed.

Theorem binary_round_aux_spec s m e l v :
  0 <= m -> located m e l v -> e <= fexp64 (Zdigits2 m + e) ->
  exists m3 e3,
    binary_round_aux prec emax s m e l = SFofZ s m3 e3
    /\ canon m3 e3 /\ bracket v m3 e3.
Proof.
  intros Hm Hloc Hpre. unfold binary_round_aux.
  destruct (shr_fexp_spec m e l Hm) as (b1 & E1 & S1). cbv zeta in E1, S1.
  set (k1 := fexp64 (Zdigits2 m + e) - e) in *.
  replace (Z.max 0 k1) with k1 in * by lia.
  rewrite E1.
  pose proof (shifted_located m e l v b1 k1 Hm ltac:(lia) Hloc S1) as L1.
  destruct S1 as (Hb1 & Eb1 & _). rewrite shr_m_of_loc in Eb1.
  set (m1 := shr_m b1) in *. set (e1 := e + k1) in *.
  set (l1 := loc_of_shr_record b1) in *.
  assert (C1 : canon m1 e1).
  { assert (Ee1 : e1 = fexp64 (Zdigits2 m + e)) by (unfold e1, k1; lia).
    rewrite fexp64_eq in Ee1.
    assert (PK : 0 < 2 ^ k1) by (apply Z.pow_pos_nonneg; lia).
    destruct (Z.eq_dec m 0) as [->|N].
    - cbn [Zdigits2] in *. rewrite Z.div_0_l in Eb1 by lia.
      unfold canon. rewrite Eb1. rewrite fexp64_eq in Hpre. lia.
    - destruct (Zdigits2_bounds m) as (Hd & H1 & H2); [lia|].
      set (d := Zdigits2 m) in *.
      unfold canon. split; [split; [exact Hb1|]|split].
      + rewrite Eb1. apply Z.div_lt_upper_bound; [exact PK|].
        rewrite <- Z.pow_add_r by lia.
        assert (2 ^ d <= 2 ^ (k1 + 53)) by (apply Z.pow_le_mono_r; lia). lia.
      + lia.
      + intros He1. assert (Ek : k1 = d - 53) by lia.
        rewrite Eb1. apply Z.div_le_lower_bound; [exact PK|].
        rewrite <- Z.pow_add_r by lia. rewrite Ek.
        now replace (d - 53 + 52) with (d - 1) by lia. }
  destruct (round_nearest_even_cases m1 l1) as [R1 R2].
  set (m2 := round_nearest_even m1 l1) in *.
  assert (Hm2 : 0 <= m2) by (destruct C1 as ([? ?] & _); lia).
  destruct (shr_fexp_spec m2 e1 loc_Exact Hm2) as (b2 & E2 & S2).
  cbv zeta in E2, S2. rewrite E2.
  destruct S2 as (Hb2 & Eb2 & _). rewrite shr_m_of_loc in Eb2.
  set (k2 := Z.max 0 (fexp64 (Zdigits2 m2 + e1) - e1)) in *.
  exists (shr_m b2), (e1 + k2).
  split; [reflexivity|].
  assert (V : canon (shr_m b2) (e1 + k2)
              /\ (F2Q (shr_m b2) (e1 + k2) == F2Q m2 e1)%Q).
  { destruct C1 as ([Hm10 Hm1] & He1 & Hn1).
    destruct (Z_lt_ge_dec m2 (2 ^ 53)) as [Lt|Ge].
    - pose proof (Zdigits2_le_53 m2 ltac:(lia)) as Hd2.
      assert (Ek2 : k2 = 0) by (unfold k2; rewrite fexp64_eq; lia).
      rewrite Ek2 in *. change (2 ^ 0) with 1 in Eb2.
      rewrite Z.div_1_r in Eb2. rewrite Eb2, Z.add_0_r.
      split; [|reflexivity]. unfold canon. lia.
    - assert (Em2 : m2 = 2 ^ 53) by lia.
      assert (Ek2 : k2 = 1).
      { unfold k2. rewrite Em2. change (Zdigits2 (2 ^ 53)) with 54.
        rewrite fexp64_eq. lia. }
      rewrite Ek2 in *. rewrite Eb2, Em2.
      change (2 ^ 53 / 2 ^ 1) with (2 ^ 52). split.
      + unfold canon. lia.
      + rewrite (F2Q_align (2 ^ 52) (e1 + 1) e1) by lia.
        replace (e1 + 1 - e1) with 1 by lia. reflexivity. }
  destruct V as [C3 V]. split; [exact C3|].
  intros mx ex Cx. rewrite V.
  destruct (canon_gap m1 e1 mx ex C1 Cx) as [Ga Gb].
  destruct L1 as (Lo & Hi & Ex).
  split; intros H.
  - apply Qle_trans with (F2Q m1 e1).
    + apply Ga. lra.
    + apply F2Q_le. lia.
  - destruct R1 as [R1|R1]; rewrite R1.
    + lra.
    + apply Gb. destruct (Qlt_le_dec (F2Q m1 e1) v) as [Lt|Le]; [lra|].
      exfalso. assert (Ev : (v == F2Q m1 e1)%Q) by lra.
      apply Ex in Ev. apply R2 in Ev. lia.
Qed.

Lemma F2Q_pos m e : 0 < m -> (0 < F2Q m e)%Q.
Proof.
  intros H. unfold F2Q. apply Qmult_lt_0_compat.
  - change 0%Q with (inject_Z 0). now rewrite <- Zlt_Qlt.
  - apply bpow_pos.
Qed.

Lemma F2Q_0 e : (F2Q 0 e == 0)%Q.
Proof. unfold F2Q. ring. Qed.

Lemma valid_canon s m e :
  valid_binary (S754_finite s m e) = true -> canon (Zpos m) e /\ e <= 971.
Proof.
  cbn [SpecFloat.valid_binary]. unfold bounded. rewrite andb_true_iff, Z.leb_le.
  intros [H1 H2]. split; [now apply canonical_canon | exact H2].
Qed.

Lemma canon_valid s m e :
  canon (Zpos m) e -> e <= 971 -> valid_binary (S754_finite s m e) = true.
Proof.
  intros H1 H2. cbn [SpecFloat.valid_binary]. unfold bounded.
  rewrite andb_true_iff, Z.leb_le. split; [now apply canon_canonical | exact H2].
Qed.

(** Canonical numbers compare by exponent, then by mantissa. *)
Lemma canon_exp_lt m1 e1 m2 e2 :
  canon m1 e1 -> canon m2 e2 -> e1 < e2 -> (F2Q m1 e1 < F2Q m2 e2)%Q.
Proof.
  intros ([_ H1] & He1 & _) ([_ H2] & He2 & Hn2) L.
  assert (H52 : 2 ^ 52 <= m2) by (apply Hn2; lia).
  assert (P : 2 <= 2 ^ (e2 - e1)).
  { change 2 with (2 ^ 1) at 1. apply Z.pow_le_mono_r; lia. }
  rewrite (F2Q_align m2 e2 e1) by lia. apply F2Q_lt.
  change (2 ^ 53) with (2 ^ 52 * 2) in H1. nia.
Qed.

Lemma SFcompare_val x y :
  valid_binary x = true -> valid_binary y = true -> fin_nn x -> fin_nn y ->
  SFcompare x y = Some (Qcompare (SFval x) (SFval y)).
Proof.
  intros Vx Vy Fx Fy.
  destruct x as [sx|sx| |[|] mx ex]; try contradiction;
  destruct y as [sy|sy| |[|] my ey]; try contradiction; cbn [SFcompare SFval].
  - reflexivity.
  - pose proof (F2Q_pos (Zpos my) ey ltac:(lia)) as P.
    f_equal. symmetry. now apply Qlt_alt.
  - pose proof (F2Q_pos (Zpos mx) ex ltac:(lia)) as P.
    f_equal. symmetry. now apply Qgt_alt.
  - apply valid_canon in Vx, Vy. destruct Vx as [Cx _], Vy as [Cy _].
    f_equal. symmetry.
    destruct (Z.compare_spec ex ey) as [E|L|G].
    + subst ey. change (Pos.compare_cont Eq mx my) with (Pos.compare mx my).
      destruct (Pos.compare_spec mx my) as [E|L|G].
      * subst my. apply Qeq_alt. reflexivity.
      * apply Qlt_alt. apply F2Q_lt. lia.
      * apply Qgt_alt. apply F2Q_lt. lia.
    + apply Qlt_alt. now apply canon_exp_lt.
    + apply Qgt_alt. apply canon_exp_lt; auto.
Qed.

Lemma SFleb_val x y :
  valid_binary x = true -> valid_binary y = true -> fin_nn x -> fin_nn y ->
  SFleb x y = true <-> (SFval x <= SFval y)%Q.
Proof.
  intros Vx Vy Fx Fy. unfold SFleb. rewrite (SFcompare_val x y Vx Vy Fx Fy).
  rewrite Qle_alt. destruct (SFval x ?= SFval y)%Q; split; congruence.
Qed.

Lemma SFltb_val x y :
  valid_binary x = true -> valid_binary y = true -> fin_nn x -> fin_nn y ->
  SFltb x y = true <-> (SFval x < SFval y)%Q.
Proof.
  intros Vx Vy Fx Fy. unfold SFltb. rewrite (SFcompare_val x y Vx Vy Fx Fy).
  rewrite Qlt_alt. destruct (SFval x ?= SFval y)%Q; split; congruence.
Qed.

Lemma SFval_nonneg x : fin_nn x -> (0 <= SFval x)%Q.
Proof.
  destruct x as [s|s| |[|] m e]; try contradiction; intros _; cbn.
  - lra.
  - apply Qlt_le_weak, F2Q_pos. lia.
Qed.

(** ** Rounded results *)

Lemma SFofZ_false_nn m e : 0 <= m -> nn (SFofZ false m e).
Proof.
  destruct m as [|p|p]; try lia; intros _; cbn [SFofZ]; [exact I|].
  now destruct (e <=? emax - prec).
Qed.

Lemma SFofZ_true_np m e : 0 <= m -> np (SFofZ true m e).
Proof.
  destruct m as [|p|p]; try lia; intros _; cbn [SFofZ]; [exact I|].
  now destruct (e <=? emax - prec).
Qed.

Lemma SFofZ_valid s m e : canon m e -> valid_binary (SFofZ s m e) = true.
Proof.
  intros C. destruct m as [|p|p]; cbn [SFofZ]; try reflexivity.
  destruct (Z.leb_spec e (emax - prec)) as [L|G]; [|reflexivity].
  apply canon_valid; [exact C | exact L].
Qed.

Lemma fin_nn_canon x :
  valid_binary x = true -> fin_nn x ->
  exists m e, canon m e /\ e <= 971 /\ (SFval x == F2Q m e)%Q.
Proof.
  intros V F. destruct x as [s|s| |[|] m e]; try contradiction.
  - exists 0, (-1074). unfold canon. cbn [SFval]. rewrite F2Q_0.
    split; [lia|]. split; [lia | reflexivity].
  - destruct (valid_canon _ _ _ V) as [C L].
    exists (Zpos m), e. cbn [SFval]. split; [exact C|]. split; [exact L | reflexivity].
Qed.

Lemma canon_lt_overflow mx ex m e :
  canon mx ex -> ex <= 971 -> canon m e -> 971 < e ->
  (F2Q mx ex < F2Q m e)%Q.
Proof.
  intros Cx Lx C G. apply canon_exp_lt; auto. lia.
Qed.

Lemma SFofZ_rounds v m e :
  (0 <= v)%Q -> canon m e -> bracket v m e -> rounds v (SFofZ false m e).
Proof.
  intros Hv C B. pose proof C as ([Hm0 Hm] & He & Hn).
  split; [now apply SFofZ_false_nn|].
  intros x Vx Fx.
  destruct (fin_nn_canon x Vx Fx) as (mx & ex & Cx & Lx & Ex).
  destruct (B mx ex Cx) as [B1 B2]. rewrite <- Ex in B1, B2.
  pose proof (SFofZ_valid false m e C) as Vr.
  destruct m as [|p|p]; [| |lia]; cbn [SFofZ] in *.
  - rewrite F2Q_0 in B1, B2. split; intros H.
    + apply (proj2 (SFleb_val _ _ Vx Vr Fx I)). cbn [SFval]. auto.
    + apply (proj2 (SFleb_val _ _ Vr Vx I Fx)). cbn [SFval].
      now apply SFval_nonneg.
  - destruct (Z.leb_spec e (emax - prec)) as [L|G].
    + split; intros H.
      * apply (proj2 (SFleb_val _ _ Vx Vr Fx I)). cbn [SFval]. auto.
      * apply (proj2 (SFleb_val _ _ Vr Vx I Fx)). cbn [SFval]. auto.
    + split; intros H.
      * destruct x as [sx|sx| |[|] px qx]; try contradiction; reflexivity.
      * exfalso. specialize (B2 H). rewrite Ex in B2.
        change (emax - prec) with 971 in G.
        pose proof (canon_lt_overflow mx ex (Zpos p) e Cx Lx C G). lra.
Qed.

(** ** The operations *)

Lemma iter_xO_mul m d : Zpos (Pos.iter xO m d) = Zpos m * 2 ^ Zpos d.
Proof.
  change (Pos.iter xO m d) with (shift_pos d m).
  rewrite shift_pos_correct, Zpower_pos_nat, Zpower_nat_Z,
    positive_nat_Z. lia.
Qed.

Lemma shl_align_spec mx ex ex' :
  let k := Z.max 0 (ex - ex') in
  exists m', shl_align mx ex ex' = (m', ex - k) /\ Zpos m' = Zpos mx * 2 ^ k.
Proof.
  intros k. unfold shl_align. subst k.
  destruct (ex' - ex) as [|d|d] eqn:E.
  - exists mx. replace (Z.max 0 (ex - ex')) with 0 by lia.
    rewrite Z.sub_0_r. split; [reflexivity | cbn; lia].
  - exists mx. replace (Z.max 0 (ex - ex')) with 0 by lia.
    rewrite Z.sub_0_r. split; [reflexivity | cbn; lia].
  - exists (Pos.iter xO mx d).
    replace (Z.max 0 (ex - ex')) with (Zpos d) by lia.
    split; [f_equal; lia | apply iter_xO_mul].
Qed.

Lemma Zdigits2_shift m k :
  0 < m -> 0 <= k -> Zdigits2 (m * 2 ^ k) = Zdigits2 m + k.
Proof.
  intros Hm Hk.
  assert (PK : 0 < 2 ^ k) by (apply Z.pow_pos_nonneg; lia).
  destruct (Zdigits2_bounds m Hm) as (Hd & H1 & H2).
  destruct (Zdigits2_bounds (m * 2 ^ k) ltac:(nia)) as (Hd' & H1' & H2').
  apply (digits_unique (m * 2 ^ k)); try lia.
  replace (Zdigits2 m + k - 1) with (Zdigits2 m - 1 + k) by lia.
  rewrite !Z.pow_add_r by lia. nia.
Qed.

Lemma located_exact m e : located m e loc_Exact (F2Q m e).
Proof.
  unfold located. split; [apply Qle_refl|]. split.
  - apply F2Q_lt. lia.
  - split; [reflexivity | trivial].
Qed.

Lemma located_ext m e l v v' : (v == v')%Q -> located m e l v -> located m e l v'.
Proof. intros E (A & B & C). unfold located. rewrite <- E. auto. Qed.

Lemma bracket_ext v v' m e : (v == v')%Q -> bracket v m e -> bracket v' m e.
Proof.
  intros E B mx ex C. destruct (B mx ex C) as [B1 B2]. rewrite <- E. auto.
Qed.

Theorem binary_round_spec s mx ex :
  exists m3 e3,
    binary_round prec emax s mx ex = SFofZ s m3 e3
    /\ canon m3 e3 /\ bracket (F2Q (Zpos mx) ex) m3 e3.
Proof.
  unfold binary_round.
  set (fe := fexp64 (Zpos (digits2_pos mx) + ex)).
  destruct (shl_align_spec mx ex fe) as (mz & E & Hmz). cbv zeta in E, Hmz.
  set (k := Z.max 0 (ex - fe)) in *. rewrite E.
  assert (V : (F2Q (Zpos mz) (ex - k) == F2Q (Zpos mx) ex)%Q).
  { rewrite Hmz. apply F2Q_shift. lia. }
  destruct (binary_round_aux_spec s (Zpos mz) (ex - k) loc_Exact
              (F2Q (Zpos mx) ex)) as (m3 & e3 & R & C & B).
  - lia.
  - apply (located_ext _ _ _ _ _ V). apply located_exact.
  - rewrite Hmz, Zdigits2_shift by lia.
    replace (Zdigits2 (Zpos mx) + k + (ex - k))
      with (Zpos (digits2_pos mx) + ex) by (cbn [Zdigits2]; lia).
    fold fe. lia.
  - exists m3, e3. auto.
Qed.

(** The sum or difference of two aligned mantissas. *)
Lemma binary_normalize_spec m e :
  (0 <= m ->
   exists m3 e3, binary_normalize prec emax m e false = SFofZ false m3 e3
                 /\ canon m3 e3 /\ bracket (F2Q m e) m3 e3)
  /\ (m < 0 -> np (binary_normalize prec emax m e false)).
Proof.
  destruct m as [|p|p]; cbn [binary_normalize]; split; try lia; intros _.
  - exists 0, (-1074). cbn [SFofZ]. split; [reflexivity|]. split.
    + unfold canon. lia.
    + intros mx ex C. rewrite !F2Q_0. tauto.
  - apply binary_round_spec.
  - destruct (binary_round_spec true p e) as (m3 & e3 & R & C & _).
    rewrite R. apply SFofZ_true_np. apply C.
Qed.

Lemma rounds_exact x : valid_binary x = true -> fin_nn x -> rounds (SFval x) x.
Proof.
  intros V F. split.
  - destruct x as [s|s| |[|] m e]; try contradiction; exact I.
  - intros y Vy Fy. split; intros H; now apply SFleb_val.
Qed.

Lemma rounds_ext v v' r : (v == v')%Q -> rounds v r -> rounds v' r.
Proof.
  intros E [N R]. split; [exact N|]. intros x V F.
  destruct (R x V F). rewrite <- E. auto.
Qed.

Lemma aligned_val mx ex ez :
  ez <= ex ->
  (F2Q (Zpos (fst (shl_align mx ex ez))) ez == F2Q (Zpos mx) ex)%Q.
Proof.
  intros L. destruct (shl_align_spec mx ex ez) as (m' & E & Hm).
  cbv zeta in E, Hm. rewrite E. cbn [fst]. rewrite Hm.
  replace (Z.max 0 (ex - ez)) with (ex - ez) by lia.
  symmetry. now apply F2Q_align.
Qed.

Lemma F2Q_plus m1 m2 e : (F2Q (m1 + m2) e == F2Q m1 e + F2Q m2 e)%Q.
Proof. unfold F2Q. rewrite inject_Z_plus. ring. Qed.

Lemma F2Q_minus m1 m2 e : (F2Q (m1 - m2) e == F2Q m1 e - F2Q m2 e)%Q.
Proof. unfold F2Q, Z.sub. rewrite inject_Z_plus, inject_Z_opp. ring. Qed.

Theorem SFadd_rounds x y :
  valid_binary x = true -> valid_binary y = true -> fin_nn x -> fin_nn y ->
  rounds (SFval x + SFval y) (SF64add x y).
Proof.
  intros Vx Vy Fx Fy. unfold SF64add.
  destruct x as [sx|sx| |[|] mx ex]; try contradiction;
  destruct y as [sy|sy| |[|] my ey]; try contradiction.
  - apply (rounds_ext 0); [cbn; ring|].
    assert (E : exists s, SFadd prec emax (S754_zero sx) (S754_zero sy)
                          = S754_zero s)
      by (destruct sx, sy; cbn; eauto).
    destruct E as [s ->]. exact (rounds_exact (S754_zero s) eq_refl I).
  - apply (rounds_ext (SFval (S754_finite false my ey))); [cbn [SFval]; ring|].
    cbn [SFadd]. now apply rounds_exact.
  - apply (rounds_ext (SFval (S754_finite false mx ex))); [cbn [SFval]; ring|].
    cbn [SFadd]. now apply rounds_exact.
  - cbn [SFadd SFval cond_Zopp].
    set (ez := Z.min ex ey).
    set (M := Zpos (fst (shl_align mx ex ez)) + Zpos (fst (shl_align my ey ez))).
    assert (EM : (F2Q M ez == F2Q (Zpos mx) ex + F2Q (Zpos my) ey)%Q).
    { unfold M. rewrite F2Q_plus, !aligned_val by (unfold ez; lia).
      reflexivity. }
    destruct (binary_normalize_spec M ez) as [H _].
    destruct H as (m3 & e3 & R & C & B); [unfold M; lia|].
    rewrite R. apply SFofZ_rounds; auto.
    + pose proof (F2Q_pos (Zpos mx) ex ltac:(lia)).
      pose proof (F2Q_pos (Zpos my) ey ltac:(lia)). lra.
    + now apply (bracket_ext _ _ _ _ EM).
Qed.

Theorem SFsub_spec x y :
  valid_binary x = true -> valid_binary y = true -> fin_nn x -> fin_nn y ->
  ((SFval y <= SFval x)%Q -> rounds (SFval x - SFval y) (SF64sub x y))
  /\ ((SFval x < SFval y)%Q -> np (SF64sub x y)).
Proof.
  intros Vx Vy Fx Fy. unfold SF64sub.
  destruct x as [sx|sx| |[|] mx ex]; try contradiction;
  destruct y as [sy|sy| |[|] my ey]; try contradiction.
  - assert (E : exists s, SFsub prec emax (S754_zero sx) (S754_zero sy)
                          = S754_zero s)
      by (destruct sx, sy; cbn; eauto).
    destruct E as [s ->]. split; intros _; [|exact I].
    apply (rounds_ext 0); [cbn; ring|].
    exact (rounds_exact (S754_zero s) eq_refl I).
  - cbn [SFsub negb SFval]. split; intros H; [|exact I].
    pose proof (F2Q_pos (Zpos my) ey ltac:(lia)). lra.
  - cbn [SFsub]. split; intros H.
    + apply (rounds_ext (SFval (S754_finite false mx ex)));
        [cbn [SFval]; ring|]. now apply rounds_exact.
    + cbn [SFval] in H. pose proof (F2Q_pos (Zpos mx) ex ltac:(lia)). lra.
  - cbn [SFsub SFval cond_Zopp].
    set (ez := Z.min ex ey).
    set (M := Zpos (fst (shl_align mx ex ez)) - Zpos (fst (shl_align my ey ez))).
    assert (EM : (F2Q M ez == F2Q (Zpos mx) ex - F2Q (Zpos my) ey)%Q).
    { unfold M. rewrite F2Q_minus, !aligned_val by (unfold ez; lia).
      reflexivity. }
    destruct (binary_normalize_spec M ez) as [Hp Hn].
    split; intros H.
    + assert (HM : 0 <= M).
      { apply (F2Q_le_inv _ _ ez). rewrite F2Q_0, EM. lra. }
      destruct (Hp HM) as (m3 & e3 & R & C & B).
      rewrite R. apply SFofZ_rounds; auto; [lra|].
      now apply (bracket_ext _ _ _ _ EM).
    + apply Hn. apply (F2Q_lt_inv _ _ ez). rewrite F2Q_0, EM. lra.
Qed.

Lemma new_location_exact nb k : new_location nb k = loc_Exact <-> k = 0.
Proof.
  unfold new_location, new_location_even, new_location_odd.
  destruct (Z.even nb); destruct (Z.eqb_spec k 0); split; intros H;
    try reflexivity; try discriminate; try contradiction; try assumption.
Qed.

Lemma F2Q_mult m e e' : (F2Q m (e + e') == F2Q m e * bpow e')%Q.
Proof. unfold F2Q. rewrite bpow_add. ring. Qed.

Lemma inject_Z_pos m : 0 < m -> (0 < inject_Z m)%Q.
Proof. intros H. change 0%Q with (inject_Z 0). now rewrite <- Zlt_Qlt. Qed.

Lemma SFdiv_core_spec mx ex my ey :
  exists q e',
    SFdiv_core_binary prec emax (Zpos mx) ex (Zpos my) ey
    = (q, e', new_location (Zpos my) (Zpos mx * 2 ^ (ex - ey - e') mod Zpos my))
    /\ q = Zpos mx * 2 ^ (ex - ey - e') / Zpos my
    /\ 0 <= ex - ey - e'
    /\ e' <= fexp64 (Zdigits2 q + e').
Proof.
  unfold SFdiv_core_binary.
  set (d1 := Zdigits2 (Zpos mx)). set (d2 := Zdigits2 (Zpos my)).
  set (e' := Z.min (fexp64 (d1 + ex - (d2 + ey))) (ex - ey)).
  set (s := ex - ey - e').
  assert (Hs : 0 <= s) by (unfold s, e'; lia).
  set (m' := match s with Zpos _ => Z.shiftl (Zpos mx) s | Z0 => Zpos mx
                     | Zneg _ => 0 end).
  assert (Em : m' = Zpos mx * 2 ^ s).
  { unfold m'. destruct s as [|p|p]; [|now rewrite Z.shiftl_mul_pow2|lia].
    change (2 ^ 0) with 1. lia. }
  assert (PS : 0 < 2 ^ s) by (apply Z.pow_pos_nonneg; lia).
  exists (m' / Zpos my), e'.
  change (ex - ey - e') with s. rewrite <- Em.
  unfold Z.div, Z.modulo.
  destruct (Z.div_eucl m' (Zpos my)) as [q r] eqn:E. cbn [fst snd].
  split; [reflexivity|]. split; [reflexivity|]. split; [exact Hs|].
  assert (Eq : q = m' / Zpos my) by (unfold Z.div; now rewrite E).
  rewrite fexp64_eq.
  destruct (Z_le_gt_dec e' (-1074)) as [L|G]; [lia|].
  destruct (Zdigits2_bounds (Zpos mx) ltac:(lia)) as (Hd1 & A1 & A2).
  destruct (Zdigits2_bounds (Zpos my) ltac:(lia)) as (Hd2 & B1 & B2).
  fold d1 in Hd1, A1, A2. fold d2 in Hd2, B1, B2.
  assert (HD : e' <= d1 + ex - (d2 + ey) - 53).
  { unfold e' in *. rewrite fexp64_eq in *. lia. }
  assert (Hq : 2 ^ 52 <= q).
  { rewrite Eq. apply Z.div_le_lower_bound; [lia|].
    assert (2 ^ (52 + d2) <= 2 ^ (d1 - 1 + s)).
    { apply Z.pow_le_mono_r; unfold s; lia. }
    rewrite Z.pow_add_r in H by lia.
    assert (2 ^ (d1 - 1 + s) <= m').
    { rewrite Em, Z.pow_add_r by lia. nia. }
    nia. }
  destruct (Zdigits2_bounds q ltac:(lia)) as (Hdq & C1 & C2).
  assert (52 < Zdigits2 q).
  { apply (Z.pow_lt_mono_r_iff 2); lia. }
  lia.
Qed.

Theorem SFdiv_rounds x my ey :
  valid_binary x = true -> fin_nn x ->
  rounds (SFval x / F2Q (Zpos my) ey) (SF64div x (S754_finite false my ey)).
Proof.
  intros Vx Fx. unfold SF64div.
  pose proof (F2Q_pos (Zpos my) ey ltac:(lia)) as Py.
  destruct x as [sx|sx| |[|] mx ex]; try contradiction.
  - cbn [SFdiv xorb SFval].
    apply (rounds_ext 0); [field; lra|].
    rewrite xorb_false_r. exact (rounds_exact (S754_zero sx) eq_refl I).
  - cbn [SFdiv xorb SFval].
    destruct (SFdiv_core_spec mx ex my ey) as (q & e' & E & Eq & Hs & Hpre).
    rewrite E. set (s := ex - ey - e') in *.
    set (m' := Zpos mx * 2 ^ s) in *.
    assert (PS : 0 < 2 ^ s) by (apply Z.pow_pos_nonneg; lia).
    pose proof (F2Q_pos (Zpos mx) ex ltac:(lia)) as Px.
    set (V := (F2Q (Zpos mx) ex / F2Q (Zpos my) ey)%Q).
    assert (EV : (V * inject_Z (Zpos my) == F2Q m' e')%Q).
    { unfold V, m'. rewrite <- (F2Q_shift (Zpos mx) ex s Hs).
      replace (ex - s) with (e' + ey) by (unfold s; lia).
      rewrite F2Q_mult. unfold F2Q at 2. field.
      split; [pose proof (bpow_pos ey); lra|].
      pose proof (inject_Z_pos (Zpos my) ltac:(lia)); lra. }
    pose proof (inject_Z_pos (Zpos my) ltac:(lia)) as Pm.
    pose proof (Z.mul_div_le m' (Zpos my) ltac:(lia)) as L1.
    pose proof (Z.mul_succ_div_gt m' (Zpos my) ltac:(lia)) as L2.
    rewrite <- Eq in L1, L2.
    assert (Mq : forall n, (F2Q n e' * inject_Z (Zpos my)
                            == F2Q (Zpos my * n) e')%Q).
    { intros n. unfold F2Q. rewrite inject_Z_mult. ring. }
    assert (Loc : located q e'
              (new_location (Zpos my) (m' mod Zpos my)) V).
    { unfold located. split; [|split].
      - apply (Qmult_le_r _ _ (inject_Z (Zpos my))); [exact Pm|].
        rewrite EV, Mq. apply F2Q_le. lia.
      - apply (Qmult_lt_r _ _ (inject_Z (Zpos my))); [exact Pm|].
        rewrite EV, Mq. apply F2Q_lt. lia.
      - rewrite new_location_exact. split.
        + intros Hr.
          apply (Qmult_inj_r _ _ (inject_Z (Zpos my))); [lra|].
          rewrite EV, Mq.
          replace (Zpos my * q) with m'; [reflexivity|].
          rewrite Eq. pose proof (Z.div_mod m' (Zpos my) ltac:(lia)). lia.
        + intros Hv.
          assert (E2 : (F2Q m' e' == F2Q (Zpos my * q) e')%Q).
          { rewrite <- EV, <- Mq, Hv. reflexivity. }
          assert (m' = Zpos my * q).
          { apply Z.le_antisymm; apply (F2Q_le_inv _ _ e'); rewrite E2;
              apply Qle_refl. }
          pose proof (Z.div_mod m' (Zpos my) ltac:(lia)). lia. }
    assert (Hq : 0 <= q) by (rewrite Eq; apply Z.div_pos; lia).
    destruct (binary_round_aux_spec false q e' _ V Hq Loc Hpre)
      as (m3 & e3 & R & C & B).
    rewrite R. apply SFofZ_rounds; auto.
    unfold V. apply Qlt_le_weak. apply Qlt_shift_div_l; lra.
Qed.

(** Whatever it rounds, a rounding keeps the sign it is given. *)
Lemma binary_round_aux_shape s m e l :
  0 <= m ->
  exists m3 e3, binary_round_aux prec emax s m e l = SFofZ s m3 e3 /\ 0 <= m3.
Proof.
  intros Hm. unfold binary_round_aux.
  destruct (shr_fexp_spec m e l Hm) as (b1 & E1 & S1). cbv zeta in E1.
  rewrite E1. destruct S1 as (Hb1 & _).
  destruct (round_nearest_even_cases (shr_m b1) (loc_of_shr_record b1))
    as [R1 _].
  set (m2 := round_nearest_even (shr_m b1) (loc_of_shr_record b1)) in *.
  assert (Hm2 : 0 <= m2) by lia.
  match goal with
  | |- context [shr_fexp _ _ m2 ?e1 loc_Exact] =>
      destruct (shr_fexp_spec m2 e1 loc_Exact Hm2) as (b2 & E2 & S2)
  end.
  cbv zeta in E2. rewrite E2. destruct S2 as (Hb2 & _).
  eexists (shr_m b2), _. split; [reflexivity | exact Hb2].
Qed.

Lemma SFmul_nn x y : fin_nn x -> fin_nn y -> nn (SF64mul x y).
Proof.
  intros Fx Fy. unfold SF64mul.
  destruct x as [sx|sx| |[|] mx ex]; try contradiction;
  destruct y as [sy|sy| |[|] my ey]; try contradiction;
    cbn [SFmul xorb]; try exact I.
  destruct (binary_round_aux_shape false (Zpos (mx * my)) (ex + ey) loc_Exact)
    as (m3 & e3 & R & H); [lia|].
  rewrite R. now apply SFofZ_false_nn.
Qed.

(** A non-zero finite factor keeps plus infinity. *)
Lemma SFmul_pos_nn mx ex y :
  nn y -> nn (SF64mul (S754_finite false mx ex) y).
Proof.
  intros Fy. destruct y as [sy|[|]| |[|] my ey]; try contradiction.
  - exact I.
  - exact I.
  - now apply SFmul_nn.
Qed.

Lemma SFsqrt_nn x : nn x -> nn (SF64sqrt x).
Proof.
  intros F. unfold SF64sqrt.
  destruct x as [sx|[|]| |[|] mx ex]; try contradiction;
    cbn [SFsqrt]; try exact I.
  unfold SFsqrt_core_binary.
  match goal with
  | |- context [Z.sqrtrem ?a] =>
      pose proof (Z.sqrtrem_spec a) as S; destruct (Z.sqrtrem a) as [q r]
  end.
  match type of S with (0 <= ?a -> _) =>
    assert (Ha : 0 <= a) end.
  { match goal with
    | |- 0 <= match ?s with _ => _ end =>
        destruct s; try lia; rewrite Z.shiftl_mul_pow2 by lia;
        apply Z.mul_nonneg_nonneg; try lia; apply Z.pow_nonneg; lia
    end. }
  specialize (S Ha). destruct S as (S1 & S2).
  assert (Hq : 0 <= q) by nia.
  match goal with
  | |- nn (binary_round_aux _ _ _ ?m ?e ?l) =>
      destruct (binary_round_aux_shape false m e l Hq) as (m3 & e3 & R & H)
  end.
  rewrite R. now apply SFofZ_false_nn.
Qed.

(** Division of a non-negative number or plus infinity by a positive
    finite number. *)
Lemma SFdiv_nn x my ey :
  valid_binary x = true -> nn x -> nn (SF64div x (S754_finite false my ey)).
Proof.
  intros V F. destruct x as [sx|[|]| |[|] mx ex]; try contradiction.
  - apply (SFdiv_rounds (S754_zero sx) my ey V I).
  - exact I.
  - apply (SFdiv_rounds (S754_finite false mx ex) my ey V I).
Qed.

(** ** Cells with enough digits *)

(** A cell [[m * 2^e, (m+1) * 2^e]] at the precision of binary64
    holds no canonical number in its interior. *)
Lemma cell_gap m e mx ex :
  0 <= m -> e <= fexp64 (Zdigits2 m + e) -> canon mx ex ->
  ((F2Q mx ex < F2Q (m + 1) e)%Q -> (F2Q mx ex <= F2Q m e)%Q)
  /\ ((F2Q m e < F2Q mx ex)%Q -> (F2Q (m + 1) e <= F2Q mx ex)%Q).
Proof.
  intros Hm Hpre ([Hx0 Hx] & Hex & Hxn).
  destruct (Z_le_gt_dec e ex) as [L|G].
  - rewrite (F2Q_align mx ex e L). split; intros H.
    + apply F2Q_lt_inv in H. apply F2Q_le. lia.
    + apply F2Q_lt_inv in H. apply F2Q_le. lia.
  - rewrite fexp64_eq in Hpre.
    assert (Hd : 53 <= Zdigits2 m) by lia.
    assert (Hm0 : 0 < m) by (destruct m; cbn in Hd; lia).
    destruct (Zdigits2_bounds m Hm0) as (_ & H1 & _).
    assert (H52 : 2 ^ 52 <= m).
    { apply Z.le_trans with (2 := H1). apply Z.pow_le_mono_r; lia. }
    assert (P : 2 <= 2 ^ (e - ex)).
    { change 2 with (2 ^ 1) at 1. apply Z.pow_le_mono_r; lia. }
    assert (Lt : (F2Q mx ex < F2Q m e)%Q).
    { rewrite (F2Q_align m e ex) by lia. apply F2Q_lt.
      change (2 ^ 53) with (2 ^ 52 * 2) in Hx. nia. }
    split; intros H.
    + now apply Qlt_le_weak.
    + exfalso. lra.
Qed.

(** Rounding a cell: the result is above the canonical numbers below
    the upper end of the cell, and below those above its lower end
    (or at it, when the cell is exact). *)
Theorem binary_round_aux_cell s m e l :
  0 <= m -> e <= fexp64 (Zdigits2 m + e) ->
  exists m3 e3,
    binary_round_aux prec emax s m e l = SFofZ s m3 e3
    /\ canon m3 e3
    /\ forall mx ex, canon mx ex ->
         ((F2Q mx ex < F2Q (m + 1) e)%Q -> (F2Q mx ex <= F2Q m3 e3)%Q)
         /\ ((F2Q m e < F2Q mx ex)%Q -> (F2Q m3 e3 <= F2Q mx ex)%Q)
         /\ (l = loc_Exact -> (F2Q m e <= F2Q mx ex)%Q ->
             (F2Q m3 e3 <= F2Q mx ex)%Q).
Proof.
  intros Hm Hpre.
  (* a rational of the cell, at its lower end exactly when [l] says so *)
  set (v := match l with
            | loc_Exact => F2Q m e
            | _ => F2Q (2 * m + 1) (e - 1)
            end).
  assert (Hh : (F2Q m e < F2Q (2 * m + 1) (e - 1)
                /\ F2Q (2 * m + 1) (e - 1) < F2Q (m + 1) e)%Q).
  { rewrite (F2Q_align m e (e - 1)), (F2Q_align (m + 1) e (e - 1)) by lia.
    replace (e - (e - 1)) with 1 by lia. change (2 ^ 1) with 2.
    split; apply F2Q_lt; lia. }
  assert (Loc : located m e l v).
  { unfold located, v. destruct l as [|c].
    - apply located_exact.
    - split; [lra|]. split; [lra|]. split; [discriminate|]. intros E. lra. }
  destruct (binary_round_aux_spec s m e l v Hm Loc Hpre)
    as (m3 & e3 & R & C & B).
  exists m3, e3. split; [exact R|]. split; [exact C|].
  intros mx ex Cx. destruct (B mx ex Cx) as [B1 B2].
  destruct (cell_gap m e mx ex Hm Hpre Cx) as [G1 G2].
  destruct Loc as (Lo & Hi & Ex).
  split; [|split].
  - intros H. apply B1. specialize (G1 H). lra.
  - intros H. apply B2. specialize (G2 H). lra.
  - intros El H. apply B2. apply Ex in El. lra.
Qed.

(** ** Multiplication *)

Lemma Zdigits2_ge m d : 0 <= d -> 2 ^ d <= m -> d < Zdigits2 m.
Proof.
  intros Hd H. assert (Hm : 0 < m).
  { assert (0 < 2 ^ d) by (apply Z.pow_pos_nonneg; lia). lia. }
  destruct (Zdigits2_bounds m Hm) as (Hp & _ & H2).
  apply (Z.pow_lt_mono_r_iff 2); lia.
Qed.

Theorem SFmul_rounds x y :
  valid_binary x = true -> valid_binary y = true -> fin_nn x -> fin_nn y ->
  rounds (SFval x * SFval y) (SF64mul x y).
Proof.
  intros Vx Vy Fx Fy. unfold SF64mul.
  destruct x as [sx|sx| |[|] mx ex]; try contradiction;
  destruct y as [sy|sy| |[|] my ey]; try contradiction;
    cbn [SFmul SFval].
  - apply (rounds_ext 0); [ring|].
    exact (rounds_exact (S754_zero (xorb sx sy)) eq_refl I).
  - apply (rounds_ext 0); [ring|].
    exact (rounds_exact (S754_zero (xorb sx false)) eq_refl I).
  - apply (rounds_ext 0); [ring|].
    exact (rounds_exact (S754_zero (xorb false sy)) eq_refl I).
  - cbn [xorb].
    destruct (valid_canon _ _ _ Vx) as [Cx _].
    destruct (valid_canon _ _ _ Vy) as [Cy _].
    destruct Cx as ([_ Hx] & Hex & Hxn), Cy as ([_ Hy] & Hey & Hyn).
    assert (EV : (F2Q (Zpos (mx * my)) (ex + ey)
                  == F2Q (Zpos mx) ex * F2Q (Zpos my) ey)%Q).
    { unfold F2Q. rewrite Pos2Z.inj_mul, inject_Z_mult, bpow_add. ring. }
    destruct (binary_round_aux_spec false (Zpos (mx * my)) (ex + ey)
                loc_Exact (F2Q (Zpos mx) ex * F2Q (Zpos my) ey))
      as (m3 & e3 & R & C & B).
    + lia.
    + apply (located_ext _ _ _ _ _ EV). apply located_exact.
    + rewrite fexp64_eq.
      destruct (Z_le_gt_dec (ex + ey) (-1074)) as [L|G]; [lia|].
      assert (H52 : 2 ^ 52 <= Zpos (mx * my)).
      { rewrite Pos2Z.inj_mul.
        destruct (Z_le_gt_dec ex (-1074)) as [Lx|Gx].
        - assert (2 ^ 52 <= Zpos my) by (apply Hyn; lia). nia.
        - assert (2 ^ 52 <= Zpos mx) by (apply Hxn; lia). nia. }
      pose proof (Zdigits2_ge _ 52 ltac:(lia) H52). lia.
    + rewrite R. apply SFofZ_rounds; auto.
      pose proof (F2Q_pos (Zpos mx) ex ltac:(lia)).
      pose proof (F2Q_pos (Zpos my) ey ltac:(lia)). nra.
Qed.

(** ** Square root *)

Lemma SFofZ_self m e : canon m e -> rounds (F2Q m e) (SFofZ false m e).
Proof.
  intros C. apply SFofZ_rounds; auto.
  - destruct C as ([H0 _] & _). destruct (Z.eq_dec m 0) as [->|N].
    + rewrite F2Q_0. apply Qle_refl.
    + apply Qlt_le_weak, F2Q_pos. lia.
  - intros mx ex _. tauto.
Qed.

Lemma SFsqrt_core_spec mx ex :
  exists q e' l,
    SFsqrt_core_binary prec emax (Zpos mx) ex = (q, e', l)
    /\ 0 <= q /\ 0 <= ex - 2 * e'
    /\ q * q <= Zpos mx * 2 ^ (ex - 2 * e') < (q + 1) * (q + 1)
    /\ (l = loc_Exact <-> q * q = Zpos mx * 2 ^ (ex - 2 * e'))
    /\ e' <= fexp64 (Zdigits2 q + e').
Proof.
  unfold SFsqrt_core_binary.
  set (d := Zdigits2 (Zpos mx)).
  set (e' := Z.min (fexp64 (Z.div2 (d + ex + 1))) (Z.div2 ex)).
  set (s := ex - 2 * e').
  assert (D1 : forall z, 2 * Z.div2 z <= z <= 2 * Z.div2 z + 1).
  { intros z. rewrite (Zdiv2_odd_eqn z) at 2 3. destruct (Z.odd z); lia. }
  assert (Hs : 0 <= s) by (unfold s, e'; pose proof (D1 ex); lia).
  set (m' := match s with Zpos _ => Z.shiftl (Zpos mx) s | Z0 => Zpos mx
                     | Zneg _ => 0 end).
  assert (Em : m' = Zpos mx * 2 ^ s).
  { unfold m'. destruct s as [|p|p]; [|now rewrite Z.shiftl_mul_pow2|lia].
    change (2 ^ 0) with 1. lia. }
  assert (PS : 0 < 2 ^ s) by (apply Z.pow_pos_nonneg; lia).
  assert (Hm' : 0 < m') by nia.
  pose proof (Z.sqrtrem_spec m' ltac:(lia)) as S.
  destruct (Z.sqrtrem m') as [q r].
  destruct S as (S1 & S2).
  assert (Hq : 0 <= q) by nia.
  exists q, e', (if r =? 0 then loc_Exact
                 else loc_Inexact (if r <=? q then Lt else Gt)).
  split; [reflexivity|]. split; [exact Hq|]. split; [exact Hs|].
  fold s. rewrite <- Em. split; [nia|]. split.
  - destruct (Z.eqb_spec r 0); split; intros H; try reflexivity;
      try discriminate; nia.
  - rewrite fexp64_eq.
    destruct (Z_le_gt_dec e' (-1074)) as [L|G]; [lia|].
    assert (HD : e' + 53 <= Z.div2 (d + ex + 1)).
    { unfold e' in *. rewrite fexp64_eq in *. lia. }
    pose proof (D1 (d + ex + 1)).
    destruct (Zdigits2_bounds (Zpos mx) ltac:(lia)) as (Hd & A1 & _).
    fold d in Hd, A1.
    assert (2 ^ 104 <= m').
    { rewrite Em.
      assert (2 ^ 104 <= 2 ^ (d - 1 + s))
        by (apply Z.pow_le_mono_r; unfold s; lia).
      rewrite Z.pow_add_r in H0 by lia. nia. }
    assert (H52 : 2 ^ 52 <= q).
    { change (2 ^ 104) with (2 ^ 52 * 2 ^ 52) in H0. nia. }
    pose proof (Zdigits2_ge q 52 ltac:(lia) H52). lia.
Qed.

Theorem SFsqrt_bracket x :
  valid_binary x = true -> fin_nn x ->
  nn (SF64sqrt x)
  /\ forall y, valid_binary y = true -> fin_nn y ->
       ((SFval y * SFval y <= SFval x)%Q -> SFleb y (SF64sqrt x) = true)
       /\ ((SFval x <= SFval y * SFval y)%Q -> SFleb (SF64sqrt x) y = true).
Proof.
  intros Vx Fx. unfold SF64sqrt.
  destruct x as [sx|sx| |[|] mx ex]; try contradiction; cbn [SFsqrt SFval].
  - split; [exact I|]. intros y Vy Fy.
    pose proof (SFval_nonneg y Fy) as Hy. split; intros H.
    + apply (SFleb_val y (S754_zero sx) Vy eq_refl Fy I). cbn [SFval]. nra.
    + apply (SFleb_val (S754_zero sx) y eq_refl Vy I Fy). exact Hy.
  - destruct (SFsqrt_core_spec mx ex)
      as (q & e' & l & E & Hq & Hs & [S1 S2] & Ex & Hpre).
    rewrite E. set (s := ex - 2 * e') in *.
    destruct (binary_round_aux_cell false q e' l Hq Hpre)
      as (m3 & e3 & R & C & B).
    rewrite R. split; [apply SFofZ_false_nn, C|].
    assert (EV : (F2Q (Zpos mx) ex == F2Q (Zpos mx * 2 ^ s) (e' + e'))%Q).
    { rewrite <- (F2Q_shift (Zpos mx) ex s Hs). unfold s.
      now replace (ex - (ex - 2 * e')) with (e' + e') by lia. }
    assert (SQ : forall n, (F2Q n e' * F2Q n e' == F2Q (n * n) (e' + e'))%Q).
    { intros n. unfold F2Q. rewrite inject_Z_mult, bpow_add. ring. }
    destruct (SFofZ_self m3 e3 C) as [_ RR].
    intros y Vy Fy.
    destruct (fin_nn_canon y Vy Fy) as (my & ey & Cy & Ly & Ey).
    destruct (B my ey Cy) as (B1 & B2 & B3). rewrite <- Ey in B1, B2, B3.
    destruct (RR y Vy Fy) as [RR1 RR2].
    pose proof (SFval_nonneg y Fy) as Hy.
    assert (Pq : (0 <= F2Q q e')%Q).
    { destruct (Z.eq_dec q 0) as [->|N].
      - rewrite F2Q_0. apply Qle_refl.
      - apply Qlt_le_weak, F2Q_pos. lia. }
    assert (Pq1 : (0 < F2Q (q + 1) e')%Q) by (apply F2Q_pos; lia).
    split; intros H.
    + apply RR1, B1. rewrite EV in H.
      assert (Lt : (F2Q (Zpos mx * 2 ^ s) (e' + e')
                    < F2Q (q + 1) e' * F2Q (q + 1) e')%Q).
      { rewrite SQ. apply F2Q_lt. lia. }
      destruct (Qlt_le_dec (SFval y) (F2Q (q + 1) e')) as [Lt'|Le];
        [exact Lt'|]. exfalso. nra.
    + apply RR2. rewrite EV in H.
      assert (Le : (F2Q q e' * F2Q q e'
                    <= F2Q (Zpos mx * 2 ^ s) (e' + e'))%Q).
      { rewrite SQ. apply F2Q_le. lia. }
      destruct (Z.eq_dec (q * q) (Zpos mx * 2 ^ s)) as [Eq|Nq].
      * apply B3; [now apply Ex|].
        destruct (Qlt_le_dec (SFval y) (F2Q q e')) as [Lt'|Le'];
          [|exact Le']. exfalso. nra.
      * apply B2.
        assert (Lt : (F2Q q e' * F2Q q e'
                      < F2Q (Zpos mx * 2 ^ s) (e' + e'))%Q).
        { rewrite SQ. apply F2Q_lt. lia. }
        destruct (Qlt_le_dec (F2Q q e') (SFval y)) as [Lt'|Le'];
          [exact Lt'|]. exfalso. nra.
Qed.

End Binary64Facts.

(** ** Values of primitive floats *)

Module FloatVal.
Import Binary64 Binary64Facts.
Local Open Scope Z_scope.

Lemma leb_true_val x y :
  FNN x -> FNN y -> (x <=? y)%float = true <-> (val x <= val y)%Q.
Proof.
  intros Fx Fy. rewrite leb_spec.
  apply SFleb_val; auto using Prim2SF_valid.
Qed.

Lemma ltb_true_val x y :
  FNN x -> FNN y -> (x <? y)%float = true <-> (val x < val y)%Q.
Proof.
  intros Fx Fy. rewrite ltb_spec.
  apply SFltb_val; auto using Prim2SF_valid.
Qed.

(** A float between 0 and a finite non-negative float. *)
Lemma between_FNN x hi :
  FNN hi -> (0 <=? x)%float = true -> (x <=? hi)%float = true -> FNN x.
Proof.
  unfold FNN. rewrite !leb_spec. change (Prim2SF 0) with (S754_zero false).
  destruct (Prim2SF hi) as [sh|sh| |[|] mh eh]; try contradiction; intros _;
    destruct (Prim2SF x) as [sx|[|]| |[|] mx ex]; cbn; try discriminate;
    try exact (fun _ _ => I).
Qed.

Lemma nn_leb_FNN z x :
  nn (Prim2SF z) -> FNN x -> (z <=? x)%float = true -> FNN z.
Proof.
  unfold FNN. rewrite leb_spec.
  destruct (Prim2SF x) as [sh|sh| |[|] mh eh]; try contradiction;
    destruct (Prim2SF z) as [sx|[|]| |[|] mx ex]; cbn; try discriminate;
    try contradiction; try exact (fun _ _ _ => I).
Qed.

(** Numbers [k * 2^j] with [k] below [2^53] are binary64 numbers. *)
Lemma rep_scaled k j :
  0 <= k < 2 ^ 53 -> -1021 <= j <= 971 ->
  exists x, valid_binary x = true /\ fin_nn x
            /\ (SFval x == inject_Z k * bpow j)%Q.
Proof.
  intros [Hk0 Hk] Hj. destruct (Z.eq_dec k 0) as [->|N].
  - exists (S754_zero false). cbn. split; [reflexivity|]. split; [exact I|].
    ring.
  - destruct (Zdigits2_bounds k ltac:(lia)) as (Hd & H1 & H2).
    pose proof (Zdigits2_le_53 k ltac:(lia)) as Hd53.
    set (d := Zdigits2 k) in *.
    assert (PK : 0 < 2 ^ (53 - d)) by (apply Z.pow_pos_nonneg; lia).
    set (m := k * 2 ^ (53 - d)).
    assert (Hm : 2 ^ 52 <= m < 2 ^ 53).
    { unfold m. split.
      - replace 52 with (d - 1 + (53 - d)) by lia.
        rewrite Z.pow_add_r by lia. nia.
      - replace 53 with (d + (53 - d)) at 2 by lia.
        rewrite Z.pow_add_r by lia. nia. }
    assert (C : canon m (j - (53 - d))) by (unfold canon; lia).
    destruct m as [|p|p] eqn:Em; try lia.
    exists (S754_finite false p (j - (53 - d))).
    split; [apply canon_valid; [exact C | lia]|]. split; [exact I|].
    cbn [SFval]. rewrite <- Em. unfold m.
    rewrite F2Q_shift by lia. reflexivity.
Qed.

(** Bounds on a rounded value from bounds on the exact one. *)
Lemma rounds_le_rep v z k j :
  rounds v (Prim2SF z) -> 0 <= k < 2 ^ 53 -> -1021 <= j <= 971 ->
  (v <= inject_Z k * bpow j)%Q ->
  FNN z /\ (val z <= inject_Z k * bpow j)%Q.
Proof.
  intros [N R] Hk Hj Hv.
  destruct (rep_scaled k j Hk Hj) as (x & Vx & Fx & Ex).
  destruct (R x Vx Fx) as [_ R2]. rewrite <- Ex in Hv. specialize (R2 Hv).
  assert (Fz : FNN z).
  { unfold FNN. destruct (Prim2SF z) as [sz|[|]| |[|] mz ez];
      try contradiction; try exact I.
    destruct x as [sx|sx| |[|] mx ex]; try contradiction; discriminate. }
  split; [exact Fz|]. rewrite <- Ex.
  apply (SFleb_val _ _ (Prim2SF_valid z) Vx Fz Fx). exact R2.
Qed.

Lemma rounds_ge_rep v z k j :
  rounds v (Prim2SF z) -> FNN z -> 0 <= k < 2 ^ 53 -> -1021 <= j <= 971 ->
  (inject_Z k * bpow j <= v)%Q ->
  (inject_Z k * bpow j <= val z)%Q.
Proof.
  intros [N R] Fz Hk Hj Hv.
  destruct (rep_scaled k j Hk Hj) as (x & Vx & Fx & Ex).
  destruct (R x Vx Fx) as [R1 _]. rewrite <- Ex in Hv. specialize (R1 Hv).
  rewrite <- Ex.
  apply (SFleb_val _ _ Vx (Prim2SF_valid z) Fx Fz). exact R1.
Qed.

Lemma add_rounds x y :
  FNN x -> FNN y -> rounds (val x + val y) (Prim2SF (x + y)).
Proof.
  intros Fx Fy. rewrite add_spec.
  apply SFadd_rounds; auto using Prim2SF_valid.
Qed.

Lemma val_0 : (val 0 == 0)%Q.
Proof. reflexivity. Qed.

Lemma val_1 : (val 1 == 1)%Q.
Proof. vm_compute. reflexivity. Qed.

Lemma FNN_0 : FNN 0.
Proof. exact I. Qed.

Lemma FNN_1 : FNN 1.
Proof. exact I. Qed.

Lemma val_nonneg x : FNN x -> (0 <= val x)%Q.
Proof. apply SFval_nonneg. Qed.

(** [float(z)]: the integer, rounded. *)
Lemma Z2F_spec z :
  0 <= z ->
  exists m e, Prim2SF (Z2F z) = SFofZ false m e
              /\ canon m e /\ bracket (inject_Z z) m e.
Proof.
  intros Hz. unfold Z2F.
  destruct (binary_normalize_spec z 0) as [H _].
  destruct (H Hz) as (m & e & R & C & B).
  exists m, e. rewrite R.
  split; [apply Prim2SF_SF2Prim, SFofZ_valid, C|]. split; [exact C|].
  apply (bracket_ext (F2Q z 0)); [|exact B].
  unfold F2Q. rewrite bpow_0. ring.
Qed.

Lemma Z2F_rounds z : 0 <= z -> rounds (inject_Z z) (Prim2SF (Z2F z)).
Proof.
  intros Hz. destruct (Z2F_spec z Hz) as (m & e & R & C & B). rewrite R.
  apply SFofZ_rounds; auto.
  change 0%Q with (inject_Z 0). now rewrite <- Zle_Qle.
Qed.

(** Integers below [2^53] convert exactly. *)
Lemma Z2F_exact z :
  0 <= z < 2 ^ 53 -> FNN (Z2F z) /\ (val (Z2F z) == inject_Z z)%Q.
Proof.
  intros Hz. pose proof (Z2F_rounds z ltac:(lia)) as R.
  assert (E : (inject_Z z == inject_Z z * bpow 0)%Q)
    by (rewrite bpow_0; ring).
  destruct (rounds_le_rep _ _ z 0 R Hz ltac:(lia)) as [F U];
    [rewrite <- E; apply Qle_refl|].
  pose proof (rounds_ge_rep _ _ z 0 R F Hz ltac:(lia)) as L.
  rewrite <- E in U, L. split; [exact F|].
  apply Qle_antisym; [exact U | apply L; apply Qle_refl].
Qed.

Lemma Z2F_positive z :
  0 < z < 2 ^ 53 ->
  exists m e, Prim2SF (Z2F z) = S754_finite false m e
              /\ (F2Q (Zpos m) e == inject_Z z)%Q.
Proof.
  intros Hz. destruct (Z2F_exact z ltac:(lia)) as [F V].
  unfold FNN, val in *.
  destruct (Prim2SF (Z2F z)) as [s|s| |[|] m e]; try contradiction.
  - exfalso. cbn [SFval] in V. unfold Qeq in V. cbn in V. lia.
  - exists m, e. split; [reflexivity | exact V].
Qed.

End FloatVal.

(** ** Floating-point sums *)

Module Sums.
Import Binary64 Summation Binary64Facts FloatVal.
Local Open Scope Z_scope.

(** A sum of numbers between [a] (0 or 1) and [2^j] lies between
    [a] times and [2^j] times their count. *)
Lemma sums_bounds a j l s :
  sums l s -> 0 <= a <= 1 -> -1021 <= j <= 900 ->
  Z.of_nat (length l) < 2 ^ 53 ->
  Forall (fun x => FNN x /\ (inject_Z a <= val x <= bpow j)%Q) l ->
  FNN s
  /\ (inject_Z (a * Z.of_nat (length l)) <= val s
      <= inject_Z (Z.of_nat (length l)) * bpow j)%Q.
Proof.
  intros H Ha Hj. induction H as [|x|l1 l2 s1 s2 H1 IH1 H2 IH2|l l' s P H IH];
    intros Hn HF.
  - split; [exact FNN_0|]. cbn [length]. rewrite val_0, Z.mul_0_r.
    change (inject_Z (Z.of_nat 0)) with 0%Q. change (inject_Z 0) with 0%Q.
    lra.
  - apply Forall_inv in HF. destruct HF as [F [L U]].
    split; [exact F|]. cbn [length]. change (Z.of_nat 1) with 1.
    rewrite Z.mul_1_r. change (inject_Z 1) with 1%Q. lra.
  - rewrite length_app, Nat2Z.inj_add in *.
    apply Forall_app in HF. destruct HF as [HF1 HF2].
    destruct (IH1 ltac:(lia) HF1) as (F1 & L1 & U1).
    destruct (IH2 ltac:(lia) HF2) as (F2 & L2 & U2).
    pose proof (add_rounds s1 s2 F1 F2) as R.
    set (n1 := Z.of_nat (length l1)) in *.
    set (n2 := Z.of_nat (length l2)) in *.
    assert (Hn1 : 0 <= n1) by (unfold n1; lia).
    assert (Hn2 : 0 <= n2) by (unfold n2; lia).
    rewrite Z.mul_add_distr_l, !inject_Z_plus.
    destruct (rounds_le_rep _ _ (n1 + n2) j R ltac:(lia) ltac:(lia))
      as [F U].
    { rewrite inject_Z_plus. lra. }
    split; [exact F|]. rewrite inject_Z_plus in U. split; [|exact U].
    assert (L : (inject_Z (a * n1 + a * n2) * bpow 0 <= val (s1 + s2))%Q).
    { apply (rounds_ge_rep _ _ _ 0 R F); [nia | lia |].
      rewrite bpow_0, inject_Z_plus. lra. }
    rewrite bpow_0, inject_Z_plus in L. lra.
  - rewrite <- (Permutation_length P) in *.
    apply IH; [exact Hn|]. apply (Permutation_Forall (Permutation_sym P) HF).
Qed.

(** ** NumPy's pairwise summation is such a sum *)

Lemma sums_sum_seq la acc l :
  sums la acc -> sums (la ++ l) (sum_seq acc l).
Proof.
  revert la acc. induction l as [|x l IH]; intros la acc H; cbn.
  - now rewrite app_nil_r.
  - replace (la ++ x :: l) with ((la ++ [x]) ++ l)
      by (now rewrite <- app_assoc).
    apply IH. apply sums_add; [exact H | apply sums_one].
Qed.

Lemma accs_step Ls r xs :
  accs Ls r -> length xs = length r ->
  accs (map (fun p => fst p ++ [snd p]) (combine Ls xs))
       (map (fun p => (fst p + snd p)%float) (combine r xs))
  /\ Permutation (concat (map (fun p => fst p ++ [snd p]) (combine Ls xs)))
                 (concat Ls ++ xs).
Proof.
  intros H. revert xs. induction H as [|L x Ls r HL H IH]; intros xs Hx.
  - destruct xs; [|discriminate]. split; [constructor | reflexivity].
  - destruct xs as [|y xs]; [discriminate|]. cbn in Hx.
    destruct (IH xs ltac:(lia)) as [A P]. cbn. split.
    + constructor; [|exact A]. apply sums_add; [exact HL | apply sums_one].
    + rewrite <- !app_assoc. apply Permutation_app_head. cbn.
      rewrite P. apply Permutation_middle.
Qed.

Lemma accumulate8_accs fuel Ls r l r' rest :
  accs Ls r -> length r = 8%nat ->
  accumulate8 fuel r l = (r', rest) ->
  exists Ls', accs Ls' r' /\ length r' = 8%nat
              /\ Permutation (concat Ls' ++ rest) (concat Ls ++ l).
Proof.
  revert Ls r l. induction fuel as [|fuel IH]; intros Ls r l HA Hr E;
    cbn [accumulate8] in E.
  - inversion E; subst. exists Ls. auto.
  - destruct (Nat.leb_spec 8 (length l)) as [H8|H8].
    + assert (Hx : length (firstn 8 l) = length r)
        by (rewrite length_firstn; lia).
      destruct (accs_step Ls r (firstn 8 l) HA Hx) as [A P].
      apply (IH _ _ _ A) in E.
      * destruct E as (Ls' & A' & Hr' & P'). exists Ls'.
        split; [exact A'|]. split; [exact Hr'|].
        rewrite P', P, <- app_assoc, firstn_skipn. reflexivity.
      * rewrite length_map, length_combine, Hx. lia.
    + inversion E; subst. exists Ls. auto.
Qed.

Lemma combine8_sums Ls r :
  accs Ls r -> length r = 8%nat -> sums (concat Ls) (combine8 r).
Proof.
  intros H Hr.
  do 9 (destruct H as [|? ? ? ? ? H]; try discriminate).
  unfold combine8. cbn [nth concat].
  rewrite app_nil_r.
  repeat match goal with
  | |- context [?a ++ ?b ++ ?c] => rewrite (app_assoc a b c)
  end.
  eapply sums_perm;
    [|apply sums_add;
      [apply sums_add; (apply sums_add; eassumption)
      |apply sums_add; (apply sums_add; eassumption)]].
  rewrite <- !app_assoc. reflexivity.
Qed.

Lemma accs_singletons r : accs (map (fun x => [x]) r) r.
Proof. induction r; constructor; auto using sums_one. Qed.

Lemma concat_singletons (r : list float) :
  concat (map (fun x => [x]) r) = r.
Proof. induction r; cbn; congruence. Qed.

Lemma sum_block_sums l : (8 <= length l)%nat -> sums l (sum_block l).
Proof.
  intros H8. unfold sum_block.
  destruct (accumulate8 (length l) (firstn 8 l) (skipn 8 l)) as [r rest] eqn:E.
  apply (accumulate8_accs _ _ _ _ _ _ (accs_singletons (firstn 8 l))) in E;
    [|rewrite length_firstn; lia].
  destruct E as (Ls' & A' & Hr' & P').
  eapply sums_perm; [|apply sums_sum_seq, combine8_sums; eassumption].
  rewrite P', concat_singletons. now rewrite firstn_skipn.
Qed.

Lemma pairwise_sum_sums fuel l : sums l (pairwise_sum fuel l).
Proof.
  revert l. induction fuel as [|fuel IH]; intros l; cbn [pairwise_sum].
  - destruct (Nat.ltb_spec (length l) 8) as [H|H].
    + apply (sums_sum_seq [] 0%float l sums_nil).
    + destruct (length l <=? 128)%nat; now apply sum_block_sums.
  - destruct (Nat.ltb_spec (length l) 8) as [H|H].
    + apply (sums_sum_seq [] 0%float l sums_nil).
    + destruct (length l <=? 128)%nat; [now apply sum_block_sums|].
      set (n2 := (length l / 2 - (length l / 2) mod 8)%nat).
      rewrite <- (firstn_skipn n2 l) at 1. apply sums_add; apply IH.
Qed.

Lemma np_sum_sums l : sums l (np_sum l).
Proof. apply pairwise_sum_sums. Qed.

(** The chunked sum of a cast buffer is such a sum too. *)
Lemma sum_chunks_sums fuel la acc l :
  (length l <= fuel)%nat -> sums la acc ->
  sums (la ++ l) (sum_chunks fuel acc l).
Proof.
  assert (B : (1 <= BUFSIZE)%nat).
  { unfold BUFSIZE. apply Nat.neq_0_lt_0, Nat.pow_nonzero. discriminate. }
  revert la acc l. induction fuel as [|fuel IH]; intros la acc l Hf Ha.
  - destruct l; [|cbn in Hf; lia]. cbn. now rewrite app_nil_r.
  - destruct l as [|x l]; [cbn; now rewrite app_nil_r|].
    cbn [sum_chunks]. rewrite <- (firstn_skipn BUFSIZE (x :: l)) at 1.
    rewrite app_assoc. apply IH.
    + rewrite length_skipn. cbn [length] in *. lia.
    + apply sums_add; [exact Ha | apply np_sum_sums].
Qed.

Lemma np_sum_int_sums l : sums (map Z2F l) (np_sum_int l).
Proof.
  unfold np_sum_int. apply (sum_chunks_sums _ [] 0%float (map Z2F l)).
  - now rewrite length_map.
  - exact sums_nil.
Qed.

(** The fuel of [np_sum] is enough: more fuel changes nothing. *)
Lemma pairwise_sum_fuel fuel fuel' l :
  (length l <= fuel)%nat -> (length l <= fuel')%nat ->
  pairwise_sum fuel l = pairwise_sum fuel' l.
Proof.
  revert fuel' l. induction fuel as [|fuel IH]; intros fuel' l H H'.
  - destruct l; [|cbn in H; lia]. now destruct fuel'.
  - destruct fuel' as [|fuel'].
    + destruct l; [|cbn in H'; lia]. reflexivity.
    + cbn [pairwise_sum].
      destruct (Nat.ltb_spec (length l) 8) as [H8|H8]; [reflexivity|].
      destruct (Nat.leb_spec (length l) 128) as [H128|H128]; [reflexivity|].
      set (n2 := (length l / 2 - (length l / 2) mod 8)%nat).
      assert (Hn2 : (0 < n2 < length l)%nat).
      { unfold n2.
        pose proof (Nat.mod_upper_bound (length l / 2) 8 ltac:(lia)).
        pose proof (Nat.Div0.div_lt_upper_bound (length l) 2 (length l)).
        assert (64 <= length l / 2)%nat
          by (apply Nat.div_le_lower_bound; lia).
        lia. }
      f_equal; apply IH; rewrite ?length_firstn, ?length_skipn; lia.
Qed.

End Sums.

(** ** The control limit estimator *)

Module Estimator.
Import Binary64 Summation Binary64Facts FloatVal Sums.
Local Open Scope Z_scope.

(** A float sum of a non-empty list of numbers between [a] (0 or 1)
    and [2^j], divided by their count, lies between [a] and [2^j]. *)
Lemma mean_bounds a j l s :
  sums l s ->
  0 <= a <= 1 -> -1021 <= j <= 900 ->
  l <> [] -> Z.of_nat (length l) < 2 ^ 53 ->
  Forall (fun x => FNN x /\ (inject_Z a <= val x <= bpow j)%Q) l ->
  FNN (s / Z2F (Z.of_nat (length l)))
  /\ (inject_Z a <= val (s / Z2F (Z.of_nat (length l))) <= bpow j)%Q.
Proof.
  intros HS Ha Hj Hl Hn HF.
  destruct (sums_bounds a j l s HS Ha Hj Hn HF) as (FS & LS & US).
  set (n := Z.of_nat (length l)) in *.
  assert (Hn0 : 0 < n) by (unfold n; destruct l; [congruence | cbn; lia]).
  destruct (Z2F_positive n ltac:(lia)) as (mN & eN & EN & VN).
  assert (R : rounds (val s / inject_Z n) (Prim2SF (s / Z2F n))).
  { rewrite div_spec, EN.
    apply (rounds_ext (SFval (Prim2SF s) / F2Q (Zpos mN) eN)).
    - now rewrite VN.
    - apply SFdiv_rounds; [apply Prim2SF_valid | exact FS]. }
  pose proof (inject_Z_pos n Hn0) as Pn.
  rewrite inject_Z_mult in LS.
  destruct (rounds_le_rep _ _ 1 j R ltac:(lia) ltac:(lia)) as [F U].
  { change (inject_Z 1) with 1%Q. rewrite Qmult_1_l.
    apply Qle_shift_div_r; [exact Pn|]. lra. }
  split; [exact F|].
  change (inject_Z 1) with 1%Q in U. rewrite Qmult_1_l in U.
  split; [|exact U].
  assert (L : (inject_Z a * bpow 0 <= val (s / Z2F n))%Q).
  { apply (rounds_ge_rep _ _ _ 0 R F); [lia | lia |].
    rewrite bpow_0, Qmult_1_r. apply Qle_shift_div_l; [exact Pn | exact LS]. }
  now rewrite bpow_0, Qmult_1_r in L.
Qed.

(** The mean of a non-empty list of numbers between [a] (0 or 1) and
    [2^j] lies between [a] and [2^j]. *)
Lemma np_mean_bounds a j l :
  0 <= a <= 1 -> -1021 <= j <= 900 ->
  l <> [] -> Z.of_nat (length l) < 2 ^ 53 ->
  Forall (fun x => FNN x /\ (inject_Z a <= val x <= bpow j)%Q) l ->
  FNN (np_mean l) /\ (inject_Z a <= val (np_mean l) <= bpow j)%Q.
Proof. intros. apply mean_bounds; auto using np_sum_sums. Qed.

(** The same for the mean of a list of counts. *)
Lemma np_mean_int_bounds a j l :
  0 <= a <= 1 -> -1021 <= j <= 900 ->
  l <> [] -> Z.of_nat (length l) < 2 ^ 53 ->
  Forall (fun c => FNN (Z2F c)
                   /\ (inject_Z a <= val (Z2F c) <= bpow j)%Q) l ->
  FNN (np_mean_int l) /\ (inject_Z a <= val (np_mean_int l) <= bpow j)%Q.
Proof.
  intros Ha Hj Hl Hn HF. unfold np_mean_int.
  rewrite <- (length_map Z2F l).
  apply (mean_bounds a j (map Z2F l)); auto using np_sum_int_sums.
  - destruct l; [congruence | discriminate].
  - now rewrite length_map.
  - now apply Forall_map.
Qed.

(** A rate between 0 and 1. *)
Lemma rate_bounds r :
  (0 <=? r)%float = true -> (r <=? 1)%float = true ->
  FNN r /\ (inject_Z 0 <= val r <= bpow 0)%Q.
Proof.
  intros H0 H1. pose proof (between_FNN r 1 FNN_1 H0 H1) as F.
  split; [exact F|]. change (inject_Z 0) with 0%Q. rewrite bpow_0.
  split; [now apply val_nonneg|].
  rewrite <- val_1. now apply leb_true_val.
Qed.

(** A count in the [int64] range, as a float. *)
Lemma count_bounds c :
  0 < c < 2 ^ 63 ->
  FNN (Z2F c) /\ (inject_Z 1 <= val (Z2F c) <= bpow 63)%Q.
Proof.
  intros Hc. pose proof (Z2F_rounds c ltac:(lia)) as R.
  destruct (rounds_le_rep _ _ 1 63 R ltac:(lia) ltac:(lia)) as [F U].
  { change (inject_Z 1) with 1%Q. rewrite Qmult_1_l, (bpow_Z 63) by lia.
    rewrite <- Zle_Qle. lia. }
  split; [exact F|].
  change (inject_Z 1) with 1%Q in *. rewrite Qmult_1_l in U.
  split; [|exact U].
  assert (L : (inject_Z 1 * bpow 0 <= val (Z2F c))%Q).
  { apply (rounds_ge_rep _ _ _ 0 R F); [lia | lia |].
    rewrite bpow_0, Qmult_1_r, <- Zle_Qle. lia. }
  now rewrite bpow_0, Qmult_1_r in L.
Qed.

Lemma FNN_positive x :
  FNN x -> (0 < val x)%Q -> exists m e, Prim2SF x = S754_finite false m e.
Proof.
  unfold FNN, val.
  destruct (Prim2SF x) as [s|s| |[|] m e]; try contradiction; intros _ H.
  - cbn in H. lra.
  - eauto.
Qed.

Lemma ltb_0_leb x : (0 <? x)%float = true -> (0 <=? x)%float = true.
Proof.
  rewrite ltb_spec, leb_spec. change (Prim2SF 0) with (S754_zero false).
  now destruct (Prim2SF x) as [s|[|]| |[|] m e].
Qed.

Lemma np_not_positive x : np (Prim2SF x) -> (0 <? x)%float = false.
Proof.
  rewrite ltb_spec. change (Prim2SF 0) with (S754_zero false).
  now destruct (Prim2SF x) as [s|[|]| |[|] m e].
Qed.

Lemma leb_0_FNN x : FNN x -> (0 <=? x)%float = true.
Proof.
  unfold FNN. rewrite leb_spec. change (Prim2SF 0) with (S754_zero false).
  now destruct (Prim2SF x) as [s|[|]| |[|] m e].
Qed.

(** The limits around a finite center line, for a spread that is
    zero, positive or plus infinity. *)
Lemma limits_around CL t3 :
  FNN CL -> nn (Prim2SF t3) ->
  (0 <=? max0 (CL - t3))%float = true
  /\ (max0 (CL - t3) <=? CL)%float = true
  /\ (CL <=? CL + t3)%float = true.
Proof.
  intros FC Nt. split; [|split].
  - unfold max0. destruct (0 <? CL - t3)%float eqn:E.
    + now apply ltb_0_leb.
    + reflexivity.
  - unfold max0. destruct (0 <? CL - t3)%float eqn:E;
      [|now apply leb_0_FNN].
    assert (D : fin_nn (Prim2SF t3) /\ (val t3 <= val CL)%Q).
    { destruct (Prim2SF t3) as [s|[|]| |[|] m e] eqn:Et; try contradiction.
      - split; [exact I|]. unfold val at 1. rewrite Et. cbn [SFval].
        now apply val_nonneg.
      - exfalso. rewrite np_not_positive in E; [discriminate|].
        rewrite sub_spec, Et. unfold FNN in FC.
        now destruct (Prim2SF CL) as [s|s| |[|] m e].
      - split; [exact I|].
        destruct (Qlt_le_dec (val CL) (val t3)) as [Lt|Le]; [|exact Le].
        exfalso. rewrite np_not_positive in E; [discriminate|].
        rewrite sub_spec.
        apply (SFsub_spec (Prim2SF CL) (Prim2SF t3));
          auto using Prim2SF_valid.
        now rewrite Et. }
    destruct D as [Ft Le]. rewrite leb_spec, sub_spec.
    destruct (SFsub_spec (Prim2SF CL) (Prim2SF t3)
                (Prim2SF_valid _) (Prim2SF_valid _) FC Ft) as [R _].
    destruct (R Le) as [_ R']. apply (R' (Prim2SF CL) (Prim2SF_valid _) FC).
    pose proof (SFval_nonneg _ Ft). fold (val CL). unfold val in *. lra.
  - rewrite leb_spec, add_spec.
    destruct (Prim2SF t3) as [s|[|]| |[|] m e] eqn:Et; try contradiction.
    + pose proof (SFadd_rounds (Prim2SF CL) (S754_zero s)
                    (Prim2SF_valid _) eq_refl FC I) as [_ R].
      apply (R (Prim2SF CL) (Prim2SF_valid _) FC). cbn [SFval]. lra.
    + unfold FNN in FC. now destruct (Prim2SF CL) as [s|s| |[|] m e].
    + assert (Vt : valid_binary (S754_finite false m e) = true)
        by (rewrite <- Et; apply Prim2SF_valid).
      pose proof (SFadd_rounds (Prim2SF CL) (S754_finite false m e)
                    (Prim2SF_valid _) Vt FC I) as [_ R].
      apply (R (Prim2SF CL) (Prim2SF_valid _) FC).
      pose proof (SFval_nonneg (S754_finite false m e) I). lra.
Qed.

End Estimator.

Section EstimatorClaims.
Import Binary64 Summation Binary64Facts FloatVal Sums Estimator.

Lemma three_positive :
  Prim2SF (Z2F 3) = S754_finite false 6755399441055744 (-51).
Proof. vm_compute. reflexivity. Qed.

(** C9, as the code has it.  For non-empty sequences (of fewer than
    [2^53] entries), rates between 0 and 1 and positive [int64]
    counts, the limits are ordered: [0 <= LCL <= CL <= UCL]. *)
Theorem control_limits_ordered
  (failure_rates : list float) (production_counts : list Z) :
  failure_rates <> [] -> production_counts <> [] ->
  (Z.of_nat (length failure_rates) < 2 ^ 53)%Z ->
  (Z.of_nat (length production_counts) < 2 ^ 53)%Z ->
  Forall (fun r => (0 <=? r) = true /\ (r <=? 1) = true) failure_rates ->
  Forall (fun c => (0 < c < 2 ^ 63)%Z) production_counts ->
  let '(CL, UCL, LCL) :=
    calculate_control_limits failure_rates production_counts in
  (0 <=? LCL) = true /\ (LCL <=? CL) = true /\ (CL <=? UCL) = true.
Proof.
  intros Hr Hc Hnr Hnc HFr HFc. unfold calculate_control_limits.
  (* the center line is between 0 and 1 *)
  destruct (np_mean_bounds 0 0 failure_rates) as (FCL & _ & UCL1);
    try lia; auto.
  { apply Forall_impl with (2 := HFr). intros r [H0 H1].
    now apply rate_bounds. }
  set (CL := np_mean failure_rates) in *.
  (* the mean count is between 1 and 2^63 *)
  destruct (np_mean_int_bounds 1 63 production_counts)
    as (Favg & Lavg & _); try lia; auto.
  { apply Forall_impl with (2 := HFc). intros c Hc0.
    now apply count_bounds. }
  set (avg_n := np_mean_int production_counts) in *.
  destruct (FNN_positive avg_n Favg) as (ma & ea & Eavg).
  { change (inject_Z 1) with 1%Q in Lavg. lra. }
  (* the spread is zero, positive or plus infinity *)
  assert (F1 : FNN (1 - CL)).
  { destruct (SFsub_spec (Prim2SF 1) (Prim2SF CL)
                (Prim2SF_valid _) (Prim2SF_valid _) FNN_1 FCL) as [R _].
    fold (val 1) (val CL) in R.
    pose proof val_1 as V1. pose proof bpow_0 as B0.
    assert (Le : (val CL <= val 1)%Q) by lra.
    specialize (R Le). rewrite <- sub_spec in R.
    apply (rounds_le_rep _ _ 1 0 R); try lia.
    change (inject_Z 1) with 1%Q.
    pose proof (val_nonneg CL FCL). lra. }
  assert (Nt3 : nn (Prim2SF (Z2F 3 * sqrt (CL * (1 - CL) / avg_n)))).
  { rewrite mul_spec, three_positive. apply SFmul_pos_nn.
    rewrite sqrt_spec. apply SFsqrt_nn.
    rewrite div_spec, Eavg. apply SFdiv_nn; [apply Prim2SF_valid|].
    rewrite mul_spec. now apply SFmul_nn. }
  apply (limits_around CL _ FCL Nt3).
Qed.

End EstimatorClaims.

(** ** The limits of a constant rate sequence *)

Module Spread.
Import Binary64 Summation ConstantRate Binary64Facts FloatVal Sums Estimator.
Local Open Scope Z_scope.

Lemma mul_rounds x y :
  FNN x -> FNN y -> rounds (val x * val y) (Prim2SF (x * y)).
Proof.
  intros Fx Fy. rewrite mul_spec.
  apply SFmul_rounds; auto using Prim2SF_valid.
Qed.

Lemma div_rounds x y :
  FNN x -> FNN y -> (0 < val y)%Q ->
  rounds (val x / val y) (Prim2SF (x / y)).
Proof.
  intros Fx Fy Py. destruct (FNN_positive y Fy Py) as (m & e & E).
  rewrite div_spec. unfold val at 2. rewrite E. cbn [SFval].
  apply SFdiv_rounds; [apply Prim2SF_valid | exact Fx].
Qed.

(** Bounds on a square root from bounds on its argument. *)
Lemma sqrt_le_rep x k j :
  FNN x -> 0 <= k < 2 ^ 53 -> -1021 <= j <= 971 ->
  (val x <= (inject_Z k * bpow j) * (inject_Z k * bpow j))%Q ->
  FNN (sqrt x) /\ (val (sqrt x) <= inject_Z k * bpow j)%Q.
Proof.
  intros Fx Hk Hj H.
  destruct (rep_scaled k j Hk Hj) as (y & Vy & Fy & Ey).
  destruct (SFsqrt_bracket (Prim2SF x) (Prim2SF_valid x) Fx) as [N B].
  destruct (B y Vy Fy) as [_ B2]. rewrite <- Ey in H.
  specialize (B2 H). rewrite <- sqrt_spec in N, B2.
  assert (F : FNN (sqrt x)).
  { unfold FNN. destruct (Prim2SF (sqrt x)) as [s|[|]| |[|] m e];
      try contradiction; try exact I.
    destruct y as [sy|sy| |[|] my ey]; try contradiction; discriminate. }
  split; [exact F|]. rewrite <- Ey.
  apply (SFleb_val _ _ (Prim2SF_valid _) Vy F Fy). exact B2.
Qed.

Lemma sqrt_ge_rep x k j :
  FNN x -> FNN (sqrt x) -> 0 <= k < 2 ^ 53 -> -1021 <= j <= 971 ->
  ((inject_Z k * bpow j) * (inject_Z k * bpow j) <= val x)%Q ->
  (inject_Z k * bpow j <= val (sqrt x))%Q.
Proof.
  intros Fx F Hk Hj H.
  destruct (rep_scaled k j Hk Hj) as (y & Vy & Fy & Ey).
  destruct (SFsqrt_bracket (Prim2SF x) (Prim2SF_valid x) Fx) as [N B].
  destruct (B y Vy Fy) as [B1 _]. rewrite <- Ey in H.
  specialize (B1 H). rewrite <- sqrt_spec in B1.
  rewrite <- Ey.
  apply (SFleb_val _ _ Vy (Prim2SF_valid _) Fy F). exact B1.
Qed.

Lemma mean_of_constant : np_mean (repeat 0.01%float 26) = 0.01%float.
Proof. vm_compute. reflexivity. Qed.

Lemma p0_bounds : FNN p0 /\ (bpow (-7) <= val p0 <= 1)%Q.
Proof. split; [exact I|]. split; vm_compute; discriminate. Qed.

Lemma above_bounds :
  FNN above /\ ((above <=? 1)%float = true) /\ ((0.01 <? above)%float = true)
  /\ (val above <= val 0.01 + inject_Z 3 * bpow (-35))%Q.
Proof.
  split; [exact I|]. split; [reflexivity|]. split; [reflexivity|].
  vm_compute. discriminate.
Qed.

Lemma below_bounds :
  FNN below /\ ((below <? 0.01)%float = true)
  /\ (val 0.01 - inject_Z 3 * bpow (-35) <= val below)%Q.
Proof.
  split; [exact I|]. split; [reflexivity|]. vm_compute. discriminate.
Qed.

(** The spread [3 * sqrt (p0 / avg_n)] for a mean count between 1 and
    [2^63]: at least [3 * 2^-35], at most 3. *)
Lemma spread_bounds avg_n :
  FNN avg_n -> (inject_Z 1 <= val avg_n <= bpow 63)%Q ->
  FNN (Z2F 3 * sqrt (p0 / avg_n))
  /\ (inject_Z 3 * bpow (-35) <= val (Z2F 3 * sqrt (p0 / avg_n))
      <= inject_Z 3 * bpow 0)%Q.
Proof.
  intros Fa [La Ua]. change (inject_Z 1) with 1%Q in La.
  destruct p0_bounds as (Fp & Lp & Up).
  pose proof (bpow_pos (-70)) as P70. pose proof (bpow_pos (-35)) as P35.
  pose proof (bpow_add (-70) 63) as A1. change (-70 + 63) with (-7) in A1.
  pose proof (bpow_add (-35) (-35)) as A2.
  change (-35 + -35) with (-70) in A2.
  pose proof bpow_0 as B0.
  (* the quotient *)
  pose proof (div_rounds p0 avg_n Fp Fa ltac:(lra)) as Rq.
  destruct (rounds_le_rep _ _ 1 0 Rq ltac:(lia) ltac:(lia)) as [Fq Uq].
  { change (inject_Z 1) with 1%Q. apply Qle_shift_div_r; [lra|]. nra. }
  assert (Lq : (inject_Z 1 * bpow (-70) <= val (p0 / avg_n))%Q).
  { apply (rounds_ge_rep _ _ _ _ Rq Fq); [lia | lia |].
    change (inject_Z 1) with 1%Q. apply Qle_shift_div_l; [lra|]. nra. }
  change (inject_Z 1) with 1%Q in Uq, Lq.
  (* its square root *)
  destruct (sqrt_le_rep (p0 / avg_n) 1 0 Fq ltac:(lia) ltac:(lia))
    as [Fs Us].
  { change (inject_Z 1) with 1%Q. nra. }
  assert (Ls : (inject_Z 1 * bpow (-35) <= val (sqrt (p0 / avg_n)))%Q).
  { apply (sqrt_ge_rep _ _ _ Fq Fs); [lia | lia |].
    change (inject_Z 1) with 1%Q. nra. }
  change (inject_Z 1) with 1%Q in Us, Ls.
  (* three times the square root *)
  destruct (Z2F_exact 3 ltac:(lia)) as [F3 V3].
  change (inject_Z 3) with 3%Q in *.
  pose proof (mul_rounds (Z2F 3) (sqrt (p0 / avg_n)) F3 Fs) as Rm.
  destruct (rounds_le_rep _ _ 3 0 Rm ltac:(lia) ltac:(lia)) as [Ft Ut].
  { change (inject_Z 3) with 3%Q. nra. }
  split; [exact Ft|]. split; [|exact Ut].
  apply (rounds_ge_rep _ _ _ _ Rm Ft); [lia | lia |].
  change (inject_Z 3) with 3%Q. nra.
Qed.

End Spread.

Section ConstantRates.
Import Binary64 Summation ConstantRate Binary64Facts FloatVal Sums Estimator Spread.

(** C1, as the code has it.  For 26 rates of 0.01 and any non-empty
    sequence of positive [int64] counts, the center line is 0.01 and
    the limits lie strictly on either side of it:
    [0 <= LCL < 0.01 < UCL], with [UCL = 0.01 + 3 * std_dev] and
    [LCL = max(0, 0.01 - 3 * std_dev)] for
    [std_dev = sqrt (0.01 * (1 - 0.01) / avg_n)]. *)
Theorem constant_rates_limits_strictly_apart (production_counts : list Z) :
  production_counts <> [] ->
  (Z.of_nat (length production_counts) < 2 ^ 53)%Z ->
  Forall (fun c => (0 < c < 2 ^ 63)%Z) production_counts ->
  let '(CL, UCL, LCL) :=
    calculate_control_limits (repeat 0.01 26) production_counts in
  let std_dev := sqrt (0.01 * (1 - 0.01) / np_mean_int production_counts) in
  CL = 0.01
  /\ UCL = 0.01 + Z2F 3 * std_dev
  /\ LCL = max0 (0.01 - Z2F 3 * std_dev)
  /\ (0 <=? LCL) = true /\ (LCL <? 0.01) = true /\ (0.01 <? UCL) = true.
Proof.
  intros Hc Hnc HFc. unfold calculate_control_limits.
  rewrite mean_of_constant.
  split; [reflexivity|]. split; [reflexivity|]. split; [reflexivity|].
  destruct (np_mean_int_bounds 1 63 production_counts)
    as (Favg & Bavg); try lia; auto.
  { apply Forall_impl with (2 := HFc). intros c Hc0.
    now apply count_bounds. }
  set (avg_n := np_mean_int production_counts) in *.
  destruct (spread_bounds avg_n Favg Bavg) as (Ft & Lt & Ut).
  fold p0. set (t3 := Z2F 3 * sqrt (p0 / avg_n)) in *.
  assert (F0 : FNN 0.01) by exact I.
  destruct above_bounds as (Fa & Ua & La & Va).
  destruct below_bounds as (Fb & Lb & Vb).
  pose proof bpow_0 as B0. pose proof val_1 as V1.
  change (inject_Z 3) with 3%Q in *.
  split; [|split].
  - unfold max0. destruct (0 <? 0.01 - t3) eqn:E;
      [now apply ltb_0_leb | reflexivity].
  - unfold max0. destruct (0 <? 0.01 - t3) eqn:E; [|reflexivity].
    destruct (SFsub_spec (Prim2SF 0.01) (Prim2SF t3)
                (Prim2SF_valid _) (Prim2SF_valid _) F0 Ft) as [R N].
    rewrite <- sub_spec in R, N. fold (val 0.01) (val t3) in R, N.
    destruct (Qlt_le_dec (val 0.01) (val t3)) as [Lt'|Le'].
    + rewrite (np_not_positive _ (N Lt')) in E. discriminate.
    + specialize (R Le'). destruct R as [Nd Rd].
      destruct (Rd (Prim2SF below) (Prim2SF_valid _) Fb) as [_ R2].
      fold (val below) in R2. rewrite <- leb_spec in R2.
      assert (Hd : (0.01 - t3 <=? below) = true) by (apply R2; lra).
      pose proof (nn_leb_FNN _ _ Nd Fb Hd) as Fd.
      apply (ltb_true_val _ _ Fd F0).
      apply (leb_true_val _ _ Fd Fb) in Hd.
      apply (ltb_true_val _ _ Fb F0) in Lb. lra.
  - pose proof (add_rounds 0.01 t3 F0 Ft) as R.
    destruct (rounds_le_rep _ _ 4 0 R ltac:(lia) ltac:(lia)) as [Fu _].
    { change (inject_Z 4) with 4%Q.
      apply (leb_true_val _ _ Fa FNN_1) in Ua.
      apply (ltb_true_val _ _ F0 Fa) in La. lra. }
    destruct R as [_ R]. destruct (R (Prim2SF above) (Prim2SF_valid _) Fa)
      as [R1 _].
    fold (val above) in R1. rewrite <- leb_spec in R1.
    assert (Hu : (above <=? 0.01 + t3) = true) by (apply R1; lra).
    apply (ltb_true_val _ _ F0 Fu).
    apply (leb_true_val _ _ Fa Fu) in Hu.
    apply (ltb_true_val _ _ F0 Fa) in La. lra.
Qed.

End ConstantRates.

(** ** Truncation *)

Section Truncation.
Import Binary64 Binary64Facts.
Local Open Scope Z_scope.

Lemma F2Q_int n : (F2Q n 0 == inject_Z n)%Q.
Proof. unfold F2Q. rewrite bpow_0. ring. Qed.

(** The integer part of a positive [m * 2^e]. *)
Lemma shiftl_floor m e :
  (inject_Z (Z.shiftl (Zpos m) e) <= F2Q (Zpos m) e
   < inject_Z (Z.shiftl (Zpos m) e) + 1)%Q.
Proof.
  destruct (Z_le_gt_dec 0 e) as [L|G].
  - rewrite Z.shiftl_mul_pow2 by lia.
    rewrite (F2Q_align (Zpos m) e 0 L), Z.sub_0_r, F2Q_int. lra.
  - rewrite Z.shiftl_div_pow2 by lia.
    assert (PK : 0 < 2 ^ (- e)) by (apply Z.pow_pos_nonneg; lia).
    pose proof (Z.mul_div_le (Zpos m) (2 ^ (- e)) PK) as L1.
    pose proof (Z.mul_succ_div_gt (Zpos m) (2 ^ (- e)) PK) as L2.
    set (K := Zpos m / 2 ^ (- e)) in *.
    assert (A : forall n, (inject_Z n == F2Q (n * 2 ^ (- e)) e)%Q).
    { intros n. rewrite <- F2Q_int, (F2Q_align n 0 e) by lia.
      now rewrite Z.sub_0_l. }
    replace (inject_Z K + 1)%Q with (inject_Z (K + 1))
      by (rewrite inject_Z_plus; reflexivity).
    rewrite (A K), (A (K + 1)). split.
    + apply F2Q_le. lia.
    + apply F2Q_lt. lia.
Qed.

(** [int(x)] is [x] truncated toward zero. *)
Lemma int_truncates (x : float) (k : Z) :
  int x = Returned k ->
  let v := SFval (Prim2SF x) in
  ((0 <= v)%Q -> (inject_Z k <= v < inject_Z k + 1)%Q)
  /\ ((v <= 0)%Q -> (inject_Z k - 1 < v <= inject_Z k)%Q).
Proof.
  unfold int. destruct (Prim2SF x) as [s|s| |s m e]; try discriminate;
    intros E; inversion E; subst k; clear E; cbn [SFval].
  - change (inject_Z 0) with 0%Q. split; intros _; lra.
  - pose proof (shiftl_floor m e) as [L U].
    pose proof (F2Q_pos (Zpos m) e ltac:(lia)) as P.
    destruct s; cbn [cond_Zopp]; rewrite ?inject_Z_opp; split; intros H; lra.
Qed.

End Truncation.

(** C3, as the code has it.  When [mhConverter] returns, its
    production count is the normal sample truncated toward zero by
    [int]: the integer [k] with [k <= x < k + 1] for a sample
    [x >= 0], and with [k - 1 < x <= k] for a sample [x <= 0]. *)
Theorem production_count_truncates
  (G : Type) (standard_normal : G -> float * G)
  (poisson_variate : float -> G -> Z * G)
  (monthly_production monthly_defects days shifts hours_per_shift : Z)
  (sigma : float) (w w' : world G) (prod defects : Z) (rate : float) :
  mhConverter standard_normal poisson_variate monthly_production
              monthly_defects days shifts hours_per_shift sigma w
  = (Returned (prod, defects, rate), w') ->
  exists avg x w1,
    truediv monthly_production (days * shifts * hours_per_shift)%Z
    = Returned avg
    /\ np_random_normal G standard_normal avg (avg * sigma) w
       = (Returned x, w1)
    /\ int x = Returned prod
    /\ let v := Binary64.SFval (Prim2SF x) in
       ((0 <= v)%Q -> (inject_Z prod <= v < inject_Z prod + 1)%Q)
       /\ ((v <= 0)%Q -> (inject_Z prod - 1 < v <= inject_Z prod)%Q).
Proof.
  unfold mhConverter, bind, lift, ret. intros H.
  destruct (truediv monthly_production _) as [avg|e] eqn:Ea; [|discriminate].
  destruct (np_random_normal G standard_normal avg (avg * sigma) w)
    as [[x|e] w1] eqn:Ex; [|discriminate].
  destruct (int x) as [k|e] eqn:Ek; [|discriminate].
  destruct (truediv monthly_defects monthly_production) as [dr|e];
    [|discriminate].
  destruct (np_random_poisson G poisson_variate _ w1) as [[d|e] w2];
    [|discriminate].
  assert (Hk : k = prod).
  { destruct (0 <? k)%Z; [destruct (truediv d k)|]; congruence. }
  subst k. exists avg, x, w1.
  split; [reflexivity|]. split; [exact Ex|]. split; [exact Ek|].
  now apply int_truncates.
Qed.

(** ** The theorems at fixed inputs *)

Lemma constant_rates_limits_strictly_apart_witness :
  let '(CL, UCL, LCL) :=
    calculate_control_limits (repeat 0.01 26) (repeat 1923%Z 26) in
  let std_dev :=
    sqrt (0.01 * (1 - 0.01) / np_mean_int (repeat 1923%Z 26)) in
  CL = 0.01
  /\ UCL = 0.01 + Z2F 3 * std_dev
  /\ LCL = max0 (0.01 - Z2F 3 * std_dev)
  /\ (0 <=? LCL) = true /\ (LCL <? 0.01) = true /\ (0.01 <? UCL) = true.
Proof.
  apply (constant_rates_limits_strictly_apart (repeat 1923%Z 26)).
  - discriminate.
  - reflexivity.
  - repeat constructor.
Defined.

Lemma control_limits_ordered_witness :
  let '(CL, UCL, LCL) :=
    calculate_control_limits [0.0125; 0.015; 0] [1923%Z; 1980%Z; 1871%Z] in
  (0 <=? LCL) = true /\ (LCL <=? CL) = true /\ (CL <=? UCL) = true.
Proof.
  apply (control_limits_ordered [0.0125; 0.015; 0]
                                [1923%Z; 1980%Z; 1871%Z]).
  - discriminate.
  - discriminate.
  - reflexivity.
  - reflexivity.
  - repeat constructor.
  - repeat constructor.
Defined.

Lemma production_count_truncates_witness :
  exists avg x w1,
    truediv 800000 (26 * 2 * 8)%Z = Returned avg
    /\ np_random_normal script scripted_normal avg (avg * 0.03)
         {| gen := ([0.01], [27%Z]); stdout := [] |}
       = (Returned x, w1)
    /\ int x = Returned 1923%Z
    /\ let v := Binary64.SFval (Prim2SF x) in
       ((0 <= v)%Q -> (inject_Z 1923 <= v < inject_Z 1923 + 1)%Q)
       /\ ((v <= 0)%Q -> (inject_Z 1923 - 1 < v <= inject_Z 1923)%Q).
Proof.
  apply (production_count_truncates script scripted_normal scripted_poisson
           800000 11000 26 2 8 0.03
           {| gen := ([0.01], [27%Z]); stdout := [] |}
           {| gen := ([], []); stdout := [] |}
           1923 27 (Z2F 27 / Z2F 1923)).
  vm_compute. reflexivity.
Defined.

Lemma at_most_one_message_per_rule_witness :
  let result := inspection [0.012; 0.02] 0.01 0.0168 0.0032 in
  (count_occ string_dec result msg_rule1 <= 1)%nat
  /\ (count_occ string_dec result msg_rule2 <= 1)%nat
  /\ (count_occ string_dec result msg_rule3_inc
      + count_occ string_dec result msg_rule3_dec <= 1)%nat
  /\ (count_occ string_dec result msg_rule4 <= 1)%nat
  /\ ~ (In msg_rule3_inc result /\ In msg_rule3_dec result)
  /\ incl result [msg_rule1; msg_rule2; msg_rule3_inc; msg_rule3_dec;
                  msg_rule4; msg_in_control]
  /\ (1 <= length result <= 4)%nat.
Proof.
  apply (at_most_one_message_per_rule [0.012; 0.02] 0.01 0.0168 0.0032).
  discriminate.
Defined.

(** * Part IV.  Further properties of the code *)

(** ** More order facts on binary64 comparisons *)

Lemma SFltb_asym (x y : spec_float) :
  SFltb x y = true -> SFltb y x = false.
Proof. sf_cases; sf_compare. Qed.

Lemma SFltb_SFleb_trans (x y z : spec_float) :
  SFltb x y = true -> SFleb y z = true -> SFltb z x = false.
Proof. sf_cases; sf_compare. Qed.

Lemma SFltb_nan_l (y : spec_float) : SFltb S754_nan y = false.
Proof. reflexivity. Qed.

Lemma SFltb_nan_r (x : spec_float) : SFltb x S754_nan = false.
Proof. now destruct x. Qed.

Lemma ltb_asym (x y : float) : (x <? y) = true -> (y <? x) = false.
Proof. rewrite !ltb_spec. apply SFltb_asym. Qed.

Lemma ltb_leb_trans (x y z : float) :
  (x <? y) = true -> (y <=? z) = true -> (z <? x) = false.
Proof. rewrite !ltb_spec, leb_spec. apply SFltb_SFleb_trans. Qed.

Lemma is_nan_Prim2SF (x : float) : is_nan x = true -> Prim2SF x = S754_nan.
Proof.
  unfold is_nan. rewrite negb_true_iff, eqb_spec.
  destruct (Prim2SF x) as [s|s| |s m e]; try reflexivity;
    unfold SFeqb, SFcompare; try (now destruct s).
  rewrite Z.compare_refl.
  change (Pos.compare_cont Eq m m) with (Pos.compare m m).
  rewrite Pos.compare_refl. now destruct s.
Qed.

Lemma ltb_nan_l (x y : float) : is_nan x = true -> (x <? y) = false.
Proof. intros H. rewrite ltb_spec, (is_nan_Prim2SF x H). reflexivity. Qed.

Lemma ltb_nan_r (x y : float) : is_nan y = true -> (x <? y) = false.
Proof.
  intros H. rewrite ltb_spec, (is_nan_Prim2SF y H). apply SFltb_nan_r.
Qed.

(** ** More on the rule inspector *)

Module AlarmFacts.
Import Inspector InspectorFacts.

Ltac alarm_flags data CL UCL LCL :=
  unfold alarms, when;
  destruct (fires1 data UCL LCL), (fires2 data CL), (increasing6 data),
    (decreasing6 data), (fires4 data CL UCL); cbn;
  intuition (discriminate || congruence).

Lemma in_inspection_rule2 data CL UCL LCL :
  data <> [] ->
  In msg_rule2 (inspection data CL UCL LCL) <-> fires2 data CL = true.
Proof.
  intros Hd. rewrite (inspection_alarms _ _ _ _ Hd).
  alarm_flags data CL UCL LCL.
Qed.

Lemma in_inspection_rule3_inc data CL UCL LCL :
  data <> [] ->
  In msg_rule3_inc (inspection data CL UCL LCL) <-> increasing6 data = true.
Proof.
  intros Hd. rewrite (inspection_alarms _ _ _ _ Hd).
  alarm_flags data CL UCL LCL.
Qed.

Lemma in_inspection_rule3_dec data CL UCL LCL :
  data <> [] ->
  In msg_rule3_dec (inspection data CL UCL LCL) <->
  increasing6 data = false /\ decreasing6 data = true.
Proof.
  intros Hd. rewrite (inspection_alarms _ _ _ _ Hd).
  alarm_flags data CL UCL LCL.
Qed.

(** On six points, a strict increase excludes a strict decrease. *)
Lemma increasing6_decreasing6 data :
  decreasing6 data = true -> increasing6 data = false.
Proof.
  rewrite decreasing6_table. intros (older & a & b & c & d & e & f & -> & H).
  destruct (increasing6 _) eqn:E; [|reflexivity].
  apply increasing6_table in E.
  destruct E as (older' & a' & b' & c' & d' & e' & f' & E & H').
  change [a; b; c; d; e; f] with ([a; b; c; d; e] ++ [f]) in E.
  change [a'; b'; c'; d'; e'; f'] with ([a'; b'; c'; d'; e'] ++ [f']) in E.
  rewrite !app_assoc in E. apply app_inj_tail in E as [E <-].
  change [a; b; c; d; e] with ([a; b; c; d] ++ [e]) in E.
  change [a'; b'; c'; d'; e'] with ([a'; b'; c'; d'] ++ [e']) in E.
  rewrite !app_assoc in E. apply app_inj_tail in E as [_ <-].
  unfold Table.lt in *. destruct H as (_ & _ & _ & _ & H).
  destruct H' as (_ & _ & _ & _ & H').
  apply ltb_asym in H. congruence.
Qed.

Lemma short_history {A : Type} (k : nat) (data : list A) :
  (length data < k)%nat -> (k <=? length data)%nat = false.
Proof. intros H. apply Nat.leb_gt. exact H. Qed.

(** The tail of a history is the tail of its recent part. *)
Lemma lastn_recent {A : Type} (k : nat) (older recent : list A) :
  (k <= length recent)%nat -> lastn k (older ++ recent) = lastn k recent.
Proof.
  intros H. destruct (split_lastn k recent H) as [E L].
  rewrite E at 1. rewrite app_assoc. now apply lastn_app.
Qed.

Lemma last_recent {A : Type} (older recent : list A) (d : A) :
  recent <> [] -> last (older ++ recent) d = last recent d.
Proof.
  intros H. destruct (exists_last H) as (l & x & ->).
  now rewrite app_assoc, !last_last.
Qed.

Lemma leb_recent k {A : Type} (older recent : list A) :
  (k <= length recent)%nat ->
  (k <=? length (older ++ recent))%nat = (k <=? length recent)%nat.
Proof.
  intros H. rewrite length_app.
  transitivity true; [|symmetry]; apply Nat.leb_le; lia.
Qed.

Lemma alarms_recent older recent CL UCL LCL :
  (7 <= length recent)%nat ->
  alarms (older ++ recent) CL UCL LCL = alarms recent CL UCL LCL.
Proof.
  intros H. unfold alarms, fires1, fires2, increasing6, decreasing6, fires4.
  rewrite (last_recent older recent)
    by (destruct recent; [cbn in H; lia | discriminate]).
  rewrite !(lastn_recent 7), !(lastn_recent 6), !(lastn_recent 4) by lia.
  rewrite (leb_recent 7), !(leb_recent 6), (leb_recent 4) by lia.
  reflexivity.
Qed.

(** A NaN as the latest rate fires no rule. *)
Lemma forallb_last_false {A : Type} (p : A -> bool) (w : list A) (x : A) :
  p x = false -> forallb p (w ++ [x]) = false.
Proof.
  intros H. rewrite forallb_app. cbn. rewrite H. now rewrite andb_false_r.
Qed.

Lemma lastn_snoc {A : Type} (k : nat) (older : list A) (x : A) :
  exists w, lastn (S k) (older ++ [x]) = w ++ [x].
Proof.
  unfold lastn. rewrite length_app. cbn [length].
  replace (length older + 1 - S k)%nat with (length older - k)%nat by lia.
  rewrite skipn_app.
  replace (length older - k - length older)%nat with 0%nat by lia.
  cbn [skipn]. eauto.
Qed.

End AlarmFacts.

Section AlarmProperties.
Import Inspector InspectorFacts AlarmFacts.

(** X1.  On a history that ends with the seven rates [w], the Rule 2
    message is in the result exactly when the seven are all strictly
    above CL or all strictly below it; it never is for a history of
    fewer than seven rates; and one of the seven being equal to CL
    prevents it. *)
Theorem rule2_fires_iff_same_side (CL UCL LCL : float) :
  (forall older w, length w = 7%nat ->
     (In msg_rule2 (inspection (older ++ w) CL UCL LCL) <->
      Forall (fun x => (CL <? x) = true) w
      \/ Forall (fun x => (x <? CL) = true) w))
  /\ (forall data, (length data < 7)%nat ->
        ~ In msg_rule2 (inspection data CL UCL LCL))
  /\ (forall older w x, length w = 7%nat ->
        In x w -> (x =? CL) = true ->
        ~ In msg_rule2 (inspection (older ++ w) CL UCL LCL)).
Proof.
  assert (iff2 : forall older w, length w = 7%nat ->
     (In msg_rule2 (inspection (older ++ w) CL UCL LCL) <->
      Forall (fun x => (CL <? x) = true) w
      \/ Forall (fun x => (x <? CL) = true) w)).
  { intros older w L.
    rewrite in_inspection_rule2
      by (destruct older, w; discriminate).
    unfold fires2. rewrite (lastn_app 7 older w L).
    rewrite (length_app_ge 7 older w L). cbn [andb].
    now rewrite orb_true_iff, !forallb_forall, !Forall_forall. }
  split; [exact iff2|]. split.
  - intros data Hn. destruct data as [|y data]; [simpl; tauto|].
    rewrite in_inspection_rule2 by discriminate. unfold fires2.
    rewrite (short_history 7 _ Hn). discriminate.
  - intros older w x L Hx E. rewrite (iff2 older w L), !Forall_forall.
    apply eqb_not_ltb in E. destruct E as [E1 E2].
    intros [H|H]; specialize (H x Hx); congruence.
Qed.

(** X2.  On a history that ends with the six rates [a, b, c, d, e, f],
    the rising-trend message is in the result exactly when
    [a < b < c < d < e < f], the falling-trend message exactly when
    [a > b > c > d > e > f] (all strict); neither is for a history of
    fewer than six rates. *)
Theorem rule3_fires_iff_strictly_monotone (CL UCL LCL : float) :
  (forall older a b c d e f,
     (In msg_rule3_inc
         (inspection (older ++ [a; b; c; d; e; f]) CL UCL LCL) <->
      (a <? b) = true /\ (b <? c) = true /\ (c <? d) = true
      /\ (d <? e) = true /\ (e <? f) = true)
     /\ (In msg_rule3_dec
            (inspection (older ++ [a; b; c; d; e; f]) CL UCL LCL) <->
         (b <? a) = true /\ (c <? b) = true /\ (d <? c) = true
         /\ (e <? d) = true /\ (f <? e) = true))
  /\ (forall data, (length data < 6)%nat ->
        ~ In msg_rule3_inc (inspection data CL UCL LCL)
        /\ ~ In msg_rule3_dec (inspection data CL UCL LCL)).
Proof.
  split.
  - intros older a b c d e f.
    assert (Hd : older ++ [a; b; c; d; e; f] <> [])
      by (destruct older; discriminate).
    assert (I6 : increasing6 (older ++ [a; b; c; d; e; f]) = true <->
                 (a <? b) = true /\ (b <? c) = true /\ (c <? d) = true
                 /\ (d <? e) = true /\ (e <? f) = true).
    { unfold increasing6.
      rewrite (lastn_app 6 older [a; b; c; d; e; f] eq_refl).
      rewrite (length_app_ge 6 older [a; b; c; d; e; f] eq_refl).
      cbn. rewrite !andb_true_iff. tauto. }
    assert (D6 : decreasing6 (older ++ [a; b; c; d; e; f]) = true <->
                 (b <? a) = true /\ (c <? b) = true /\ (d <? c) = true
                 /\ (e <? d) = true /\ (f <? e) = true).
    { unfold decreasing6.
      rewrite (lastn_app 6 older [a; b; c; d; e; f] eq_refl).
      rewrite (length_app_ge 6 older [a; b; c; d; e; f] eq_refl).
      cbn. rewrite !andb_true_iff. tauto. }
    split.
    + now rewrite in_inspection_rule3_inc.
    + rewrite in_inspection_rule3_dec by exact Hd. rewrite <- D6. split.
      * tauto.
      * intros H. split; [now apply increasing6_decreasing6 | exact H].
  - intros data Hn. destruct data as [|y data]; [simpl; tauto|].
    rewrite in_inspection_rule3_inc, in_inspection_rule3_dec by discriminate.
    unfold increasing6, decreasing6. rewrite (short_history 6 _ Hn).
    cbn [andb]. split; [discriminate | intros [_ H]; discriminate].
Qed.

(** X3.  The result depends on the last seven rates only: older rates
    change nothing once seven rates or more follow them. *)
Theorem inspection_reads_last_seven
  (older recent : list float) (CL UCL LCL : float) :
  (7 <= length recent)%nat ->
  inspection (older ++ recent) CL UCL LCL = inspection recent CL UCL LCL.
Proof.
  intros H.
  assert (Hr : recent <> [])
    by (destruct recent; [cbn in H; lia | discriminate]).
  assert (Ho : older ++ recent <> [])
    by (destruct older; [exact Hr | discriminate]).
  rewrite (inspection_alarms _ _ _ _ Ho), (inspection_alarms _ _ _ _ Hr).
  now rewrite alarms_recent.
Qed.

(** X4.  A history whose latest rate is NaN is reported as in control,
    whatever the older rates and the limits: every comparison with a
    NaN is false, so no rule fires. *)
Theorem nan_rate_reported_in_control
  (older : list float) (x CL UCL LCL : float) :
  is_nan x = true ->
  inspection (older ++ [x]) CL UCL LCL = [msg_in_control].
Proof.
  intros N.
  assert (Hd : older ++ [x] <> []) by (destruct older; discriminate).
  rewrite (inspection_alarms _ _ _ _ Hd).
  assert (F1 : fires1 (older ++ [x]) UCL LCL = false).
  { unfold fires1. rewrite last_last.
    now rewrite (ltb_nan_r UCL x N), (ltb_nan_l x LCL N). }
  assert (F2 : fires2 (older ++ [x]) CL = false).
  { unfold fires2. destruct (lastn_snoc 6 older x) as [w ->].
    rewrite !forallb_last_false;
      [apply andb_false_r | now apply ltb_nan_l | now apply ltb_nan_r]. }
  assert (F4 : fires4 (older ++ [x]) CL UCL = false).
  { unfold fires4. destruct (lastn_snoc 3 older x) as [w ->].
    rewrite (forallb_last_false (fun x0 => mid_upper CL UCL <? x0))
      by now apply ltb_nan_r.
    apply andb_false_r. }
  assert (I6 : increasing6 (older ++ [x]) = false).
  { unfold increasing6. destruct (6 <=? _)%nat eqn:L; [|reflexivity].
    apply Nat.leb_le in L. destruct (split_lastn 6 _ L) as [E L6].
    destruct (list6 _ L6) as (a & b & c & d & e & f & Ew).
    rewrite Ew in E |- *.
    change [a; b; c; d; e; f] with ([a; b; c; d; e] ++ [f]) in E.
    rewrite app_assoc in E. apply app_inj_tail in E as [_ <-].
    cbn. rewrite (ltb_nan_r e x N). now rewrite !andb_false_r. }
  assert (D6 : decreasing6 (older ++ [x]) = false).
  { unfold decreasing6. destruct (6 <=? _)%nat eqn:L; [|reflexivity].
    apply Nat.leb_le in L. destruct (split_lastn 6 _ L) as [E L6].
    destruct (list6 _ L6) as (a & b & c & d & e & f & Ew).
    rewrite Ew in E |- *.
    change [a; b; c; d; e; f] with ([a; b; c; d; e] ++ [f]) in E.
    rewrite app_assoc in E. apply app_inj_tail in E as [_ <-].
    cbn. rewrite (ltb_nan_l x e N). now rewrite !andb_false_r. }
  unfold alarms. now rewrite F1, F2, F4, I6, D6.
Qed.

(** X5.  Under limits with [LCL <= CL], Rule 1 and Rule 4 never fire
    together, so that the result holds at most three messages. *)
Theorem rule1_excludes_rule4 (data : list float) (CL UCL LCL : float) :
  (LCL <=? CL) = true ->
  ~ (In msg_rule1 (inspection data CL UCL LCL)
     /\ In msg_rule4 (inspection data CL UCL LCL))
  /\ (length (inspection data CL UCL LCL) <= 3)%nat.
Proof.
  intros Hle. destruct data as [|y data]; [cbn; split; [tauto | lia]|].
  assert (Hd : y :: data <> []) by discriminate.
  assert (X : fires1 (y :: data) UCL LCL = true ->
              fires4 (y :: data) CL UCL = true -> False).
  { destruct (exists_last Hd) as (older & x & ->).
    rewrite fires1_table. unfold fires4.
    rewrite andb_true_iff, Nat.leb_le. intros F1 [L F4].
    destruct (lastn_snoc 3 older x) as [w Ew]. rewrite Ew in F4.
    rewrite !forallb_app in F4. cbn in F4.
    rewrite !andb_true_iff in F4.
    destruct F4 as [_ [_ [[Hx1 Hx2] _]]].
    destruct F1 as [F1|F1].
    - apply ltb_asym in F1. congruence.
    - pose proof (ltb_leb_trans _ _ _ F1 Hle). congruence. }
  rewrite (inspection_alarms _ _ _ _ Hd). unfold alarms, when.
  destruct (fires1 (y :: data) UCL LCL), (fires2 (y :: data) CL),
    (increasing6 (y :: data)), (decreasing6 (y :: data)),
    (fires4 (y :: data) CL UCL);
    try (exfalso; now apply X); cbn;
    (split; [intuition (discriminate || congruence) | lia]).
Qed.

End AlarmProperties.

Section EmptyBaseline.
Import Inspector InspectorFacts AlarmFacts.

Lemma limits_of_no_rates (production_counts : list Z) :
  calculate_control_limits [] production_counts = (nan, nan, 0).
Proof.
  unfold calculate_control_limits. change (np_mean []) with nan.
  rewrite mul_nan_l, div_nan_l. change (sqrt nan) with nan.
  rewrite mul_nan_r. reflexivity.
Qed.

Lemma nan_ltb (x : float) : (nan <? x) = false.
Proof. now apply ltb_nan_l. Qed.

Lemma ltb_nan (x : float) : (x <? nan) = false.
Proof. now apply ltb_nan_r. Qed.

Lemma forallb_nonempty_false {A : Type} (p : A -> bool) (w : list A) :
  w <> [] -> (forall x, p x = false) -> forallb p w = false.
Proof.
  intros Hw Hp. destruct w as [|x w]; [congruence|]. cbn. now rewrite Hp.
Qed.

Lemma lastn_nonempty {A : Type} (k : nat) (data : list A) :
  (S k <= length data)%nat -> lastn (S k) data <> [].
Proof.
  intros H. destruct (split_lastn (S k) data H) as [_ L].
  destruct (lastn (S k) data); [discriminate L | discriminate].
Qed.

(** X6.  The limits that the estimator returns for an empty rate
    sequence switch Rule 2 and Rule 4 off, whatever the history, and
    leave Rule 1 to fire on a negative latest rate only. *)
Theorem empty_baseline_disables_rules
  (production_counts : list Z) (data : list float) :
  let '(CL, UCL, LCL) := calculate_control_limits [] production_counts in
  ~ In msg_rule2 (inspection data CL UCL LCL)
  /\ ~ In msg_rule4 (inspection data CL UCL LCL)
  /\ (In msg_rule1 (inspection data CL UCL LCL) <->
      data <> [] /\ (last data 0 <? 0) = true).
Proof.
  rewrite limits_of_no_rates.
  destruct data as [|y data]; [cbn; intuition congruence|].
  assert (Hd : y :: data <> []) by discriminate.
  rewrite in_inspection_rule2, in_inspection_rule4, in_inspection_rule1
    by exact Hd.
  assert (F2 : fires2 (y :: data) nan = false).
  { unfold fires2. destruct (7 <=? _)%nat eqn:L; [|reflexivity].
    apply Nat.leb_le in L. pose proof (lastn_nonempty 6 _ L) as Hw.
    rewrite !forallb_nonempty_false by auto using nan_ltb, ltb_nan.
    reflexivity. }
  assert (F4 : fires4 (y :: data) nan nan = false).
  { unfold fires4. destruct (4 <=? _)%nat eqn:L; [|reflexivity].
    apply Nat.leb_le in L. pose proof (lastn_nonempty 3 _ L) as Hw.
    rewrite (forallb_nonempty_false (fun x => (nan <? x) && (x <? nan)))
      by (auto; intros x; now rewrite nan_ltb).
    apply andb_false_r. }
  rewrite F2, F4. split; [discriminate|]. split; [discriminate|].
  unfold fires1.
  rewrite nan_ltb. cbn [orb]. intuition congruence.
Qed.

End EmptyBaseline.

(** ** Dicts *)

Lemma dict_get_set_same {V : Type} (k : string) (v : V) d :
  dict_get k (dict_set k v d) = Some v.
Proof.
  induction d as [|[k' v'] d IH]; cbn.
  - now rewrite String.eqb_refl.
  - destruct (String.eqb k k') eqn:E; cbn; rewrite ?String.eqb_refl, ?E; auto.
Qed.

Lemma dict_get_set_other {V : Type} (k k' : string) (v : V) d :
  k <> k' -> dict_get k' (dict_set k v d) = dict_get k' d.
Proof.
  intros N. induction d as [|[k1 v1] d IH]; cbn.
  - apply String.eqb_neq in N. rewrite String.eqb_sym in N. now rewrite N.
  - destruct (String.eqb k k1) eqn:E; cbn.
    + apply String.eqb_eq in E. subst k1.
      apply String.eqb_neq in N. rewrite String.eqb_sym in N. now rewrite N.
    + destruct (String.eqb k' k1); auto.
Qed.

(** Overwriting an entry keeps the keys and their order. *)
Lemma dict_set_keys {V : Type} (k : string) (v : V) d :
  dict_get k d <> None -> map fst (dict_set k v d) = map fst d.
Proof.
  induction d as [|[k' v'] d IH]; cbn; [congruence|].
  destruct (String.eqb k k') eqn:E; cbn.
  - apply String.eqb_eq in E. now subst.
  - intros H. now rewrite IH.
Qed.

Lemma dict_get_in_keys {V : Type} (k : string) (d : list (string * V)) :
  dict_get k d <> None <-> In k (map fst d).
Proof.
  induction d as [|[k' v'] d IH]; cbn; [tauto|].
  destruct (String.eqb k k') eqn:E.
  - apply String.eqb_eq in E. subst. split; [auto | discriminate].
  - apply String.eqb_neq in E. rewrite IH. split; [auto|].
    intros [H|H]; [congruence | exact H].
Qed.

Section TraceFacts.
Import Trace.

Variable G : Type.
Variable standard_normal : G -> float * G.
Variable poisson_variate : float -> G -> Z * G.

Lemma has_keys_set {V : Type} names k (v : V) d :
  has_keys names d -> has_keys (k :: names) (dict_set k v d).
Proof.
  intros H n Hn. destruct (string_dec k n) as [<-|N].
  - rewrite dict_get_set_same. discriminate.
  - rewrite dict_get_set_other by exact N. destruct Hn as [Hn|Hn];
      [congruence | now apply H].
Qed.

Lemma has_keys_set_same {V : Type} names k (v : V) d :
  has_keys names d -> has_keys names (dict_set k v d).
Proof.
  intros H n Hn. destruct (string_dec k n) as [<-|N].
  - rewrite dict_get_set_same. discriminate.
  - rewrite dict_get_set_other by exact N. now apply H.
Qed.

(** *** Printing *)

Lemma silent_ret {A : Type} (a : A) : silent (@ret G A a).
Proof. intros w. reflexivity. Qed.

Lemma silent_raise {A : Type} (e : exn) : silent (@raise G A e).
Proof. intros w. reflexivity. Qed.

Lemma silent_lift {A : Type} (o : outcome A) : silent (@lift G A o).
Proof. intros w. reflexivity. Qed.

Lemma silent_with_gen {A : Type} (f : G -> A * G) : silent (with_gen f).
Proof. intros w. unfold with_gen. now destruct (f (gen w)). Qed.

Lemma silent_bind {A B : Type} (m : M G A) (f : A -> M G B) :
  silent m -> (forall a, silent (f a)) -> silent (bind m f).
Proof.
  intros Hm Hf w. unfold bind. specialize (Hm w).
  destruct (m w) as [[a|e] w1]; cbn [snd] in *.
  - now rewrite Hf.
  - exact Hm.
Qed.

Lemma silent_mhConverter mp md days shifts hps sigma :
  silent (mhConverter standard_normal poisson_variate
                      mp md days shifts hps sigma).
Proof.
  unfold mhConverter, np_random_normal, np_random_poisson.
  repeat first
    [ apply silent_bind; [|intros ?]
    | apply silent_lift | apply silent_ret | apply silent_raise
    | apply silent_with_gen
    | match goal with |- silent (if ?b then _ else _) => destruct b end ].
Qed.

(** *** Failures *)

Lemma fails_ret {A : Type} E (a : A) : fails_within E (@ret G A a).
Proof. intros w e H. discriminate H. Qed.

Lemma fails_raise {A : Type} (E : exn -> Prop) e :
  E e -> fails_within E (@raise G A e).
Proof. intros He w e' H. cbn in H. congruence. Qed.

Lemma fails_with_gen {A : Type} E (f : G -> A * G) :
  fails_within E (with_gen f).
Proof.
  intros w e. unfold with_gen. destruct (f (gen w)). discriminate.
Qed.

Lemma fails_print E (ev : event) : fails_within E (@print G ev).
Proof. intros w e H. discriminate H. Qed.

Lemma fails_bind {A B : Type} E (m : M G A) (f : A -> M G B) :
  fails_within E m -> (forall a, fails_within E (f a)) ->
  fails_within E (bind m f).
Proof.
  intros Hm Hf w e. unfold bind. specialize (Hm w).
  destruct (m w) as [[a|e'] w1]; cbn [fst] in *.
  - apply Hf.
  - intros H. apply Hm. congruence.
Qed.

Lemma fails_int E (x : float) :
  E ValueError -> E OverflowError -> fails_within E (@lift G Z (int x)).
Proof.
  intros HV HO w e. unfold lift, int. cbn [fst].
  destruct (Prim2SF x); intros H; inversion H; subst; assumption.
Qed.

Lemma fails_truediv E (a b : Z) :
  b <> 0%Z -> fails_within E (@lift G float (truediv a b)).
Proof.
  intros Hb w e. unfold lift, truediv. cbn [fst].
  apply Z.eqb_neq in Hb. rewrite Hb. discriminate.
Qed.

Lemma fails_comments E (comments : list string) :
  fails_within E
    (fold_right (fun c k => bind (print (PrintComment c)) (fun _ => k))
       (@ret G unit tt) comments).
Proof.
  induction comments as [|c cs IH]; cbn.
  - apply fails_ret.
  - apply fails_bind; [apply fails_print | intros _; exact IH].
Qed.

(** With working hours and a monthly production other than zero, a
    sample fails in a draw only: the last division is guarded. *)
Lemma fails_mhConverter mp md days shifts hps sigma :
  (days * shifts * hps <> 0)%Z -> mp <> 0%Z ->
  fails_within draw_failure
    (mhConverter standard_normal poisson_variate mp md days shifts hps sigma).
Proof.
  intros Hh Hp. unfold mhConverter.
  apply fails_bind; [now apply fails_truediv | intros avg].
  apply fails_bind.
  { unfold np_random_normal. destruct (_ <? 0).
    - apply fails_raise. now left.
    - apply fails_bind; [apply fails_with_gen | intros z; apply fails_ret]. }
  intros x. apply fails_bind; [apply fails_int; [now left | now right]|].
  intros prod. apply fails_bind; [now apply fails_truediv | intros rate].
  apply fails_bind.
  { unfold np_random_poisson. destruct (_ || _).
    - apply fails_raise. now left.
    - apply fails_with_gen. }
  intros d. apply fails_bind; [|intros r; apply fails_ret].
  destruct (0 <? prod)%Z eqn:P; [|apply fails_ret].
  apply fails_truediv. apply Z.ltb_lt in P. lia.
Qed.

End TraceFacts.

(** ** The simulation *)

Section SimulationFacts.
Import Trace.

Variable G : Type.
Variable standard_normal : G -> float * G.
Variable poisson_variate : float -> G -> Z * G.

Lemma hours_printed_app out1 out2 :
  hours_printed (out1 ++ out2) = hours_printed out1 ++ hours_printed out2.
Proof. apply flat_map_app. Qed.

Lemma lines_sampled_app out1 out2 :
  lines_sampled (out1 ++ out2) = lines_sampled out1 ++ lines_sampled out2.
Proof. apply flat_map_app. Qed.

Lemma hours_printed_comments cs : hours_printed (map PrintComment cs) = [].
Proof. induction cs as [|c cs IH]; [reflexivity | exact IH]. Qed.

Lemma lines_sampled_comments cs : lines_sampled (map PrintComment cs) = [].
Proof. induction cs as [|c cs IH]; [reflexivity | exact IH]. Qed.

Lemma default_hours_nonzero :
  (default_days * default_shifts * default_hours_per_shift <> 0)%Z.
Proof. discriminate. Qed.

Lemma fails_warm_up k line sigma failure_rates production_counts :
  monthly_production line <> 0%Z ->
  fails_within draw_failure
    (warm_up standard_normal poisson_variate k line sigma
             failure_rates production_counts).
Proof.
  intros Hp. revert failure_rates production_counts.
  induction k as [|k IH]; intros failure_rates production_counts; cbn.
  - apply fails_ret.
  - apply fails_bind.
    + apply fails_mhConverter; [exact default_hours_nonzero | exact Hp].
    + intros [[prod defects] rate]. apply IH.
Qed.

Lemma fails_initialize_control_limits line_name line sigma :
  monthly_production line <> 0%Z ->
  fails_within draw_failure
    (initialize_control_limits standard_normal poisson_variate
                               line_name line sigma).
Proof.
  intros Hp. unfold initialize_control_limits.
  apply fails_bind; [now apply fails_warm_up|].
  intros [failure_rates production_counts]. apply fails_ret.
Qed.

Lemma fails_freeze_limits lines control_limits :
  productive lines ->
  fails_within draw_failure
    (freeze_limits standard_normal poisson_variate lines control_limits).
Proof.
  intros HP. revert control_limits.
  induction HP as [|[line_name line] lines Hp HP IH]; intros control_limits;
    cbn.
  - apply fails_ret.
  - apply fails_bind; [now apply fails_initialize_control_limits|].
    intros [[CL UCL] LCL].
    apply fails_bind; [apply fails_print | intros _; apply IH].
Qed.

(** The first loop of [run_simulation] stores limits for every line. *)
Lemma freeze_limits_keys lines control_limits w cl w' :
  freeze_limits standard_normal poisson_variate lines control_limits w
  = (Returned cl, w') ->
  forall n, In n (map fst lines) \/ dict_get n control_limits <> None ->
            dict_get n cl <> None.
Proof.
  revert control_limits w.
  induction lines as [|[line_name line] lines IH]; intros control_limits w;
    cbn.
  - unfold ret. intros E n [[]|H]. now inversion E; subst.
  - unfold bind at 1.
    destruct (initialize_control_limits _ _ _ _ _ w)
      as [[[[CL UCL] LCL]|e] w1]; [|discriminate].
    unfold bind, print. intros E n Hn. apply (IH _ _ E).
    destruct (string_dec line_name n) as [<-|N].
    + right. rewrite dict_get_set_same. discriminate.
    + rewrite dict_get_set_other by exact N. tauto.
Qed.

(** The comments of a sample, printed one by one. *)
Lemma comments_printed (comments : list string) (w : world G) :
  fold_right (fun c k => bind (print (PrintComment c)) (fun _ => k))
             (ret tt) comments w
  = (Returned tt,
     {| gen := gen w; stdout := stdout w ++ map PrintComment comments |}).
Proof.
  revert w. induction comments as [|c cs IH]; intros w; cbn.
  - unfold ret. rewrite app_nil_r. now destruct w.
  - unfold bind, print. rewrite IH. cbn [gen stdout].
    now rewrite <- app_assoc.
Qed.

Lemma fails_tick sigma control_limits lines hourly_data current_hour :
  productive lines ->
  has_keys (map fst lines) control_limits ->
  has_keys (map fst lines) hourly_data ->
  fails_within draw_failure
    (tick standard_normal poisson_variate sigma control_limits lines
          hourly_data current_hour).
Proof.
  intros HP. revert hourly_data.
  induction HP as [|[line_name line] lines Hp HP IH]; intros hourly_data;
    cbn [tick map fst]; intros Kc Kh.
  - apply fails_ret.
  - pose proof (Kc line_name (or_introl eq_refl)) as K1.
    pose proof (Kh line_name (or_introl eq_refl)) as K2.
    destruct (dict_get line_name control_limits) as [[[CL UCL] LCL]|];
      [|congruence].
    destruct (dict_get line_name hourly_data) as [h|]; [|congruence].
    apply fails_bind.
    { apply fails_mhConverter; [exact default_hours_nonzero | exact Hp]. }
    intros [[prod defects] rate].
    apply fails_bind; [apply fails_print | intros _].
    apply fails_bind; [apply fails_comments | intros _].
    apply IH.
    + intros n Hn. apply Kc. now right.
    + apply has_keys_set_same. intros n Hn. apply Kh. now right.
Qed.

(** One tick keeps the keys of the histories, and prints the lines it
    samples, in order, and no hour header. *)
Lemma tick_returns sigma control_limits lines hourly_data current_hour
      w hd w' :
  tick standard_normal poisson_variate sigma control_limits lines
       hourly_data current_hour w
  = (Returned hd, w') ->
  map fst hd = map fst hourly_data
  /\ hours_printed (stdout w') = hours_printed (stdout w)
  /\ lines_sampled (stdout w')
     = lines_sampled (stdout w) ++ map fst lines.
Proof.
  revert hourly_data w.
  induction lines as [|[line_name line] lines IH]; intros hourly_data w;
    cbn [tick map fst].
  - unfold ret. intros E. inversion E; subst. now rewrite app_nil_r.
  - destruct (dict_get line_name control_limits) as [[[CL UCL] LCL]|];
      [|discriminate].
    destruct (dict_get line_name hourly_data) as [h|] eqn:Eh;
      [|destruct (dict_get _ _); discriminate].
    unfold bind at 1.
    pose proof (silent_mhConverter G standard_normal poisson_variate
                  (monthly_production line) (monthly_defects line)
                  default_days default_shifts default_hours_per_shift
                  sigma w) as S.
    destruct (mhConverter _ _ _ _ _ _ _ _ w)
      as [[[[prod defects] rate]|e] w1]; [|discriminate].
    cbn [snd] in S. unfold bind at 1. unfold print at 1.
    unfold bind at 1. rewrite comments_printed.
    intros E. apply IH in E. cbn [gen stdout] in E.
    destruct E as (E1 & E2 & E3). split; [|split].
    + rewrite E1. apply dict_set_keys. congruence.
    + rewrite E2, S, !hours_printed_app, hours_printed_comments.
      cbn. now rewrite !app_nil_r.
    + rewrite E3, S, !lines_sampled_app, lines_sampled_comments.
      cbn. now rewrite app_nil_r, <- app_assoc.
Qed.

Lemma silent_warm_up k line sigma failure_rates production_counts :
  silent (warm_up standard_normal poisson_variate k line sigma
                  failure_rates production_counts).
Proof.
  revert failure_rates production_counts.
  induction k as [|k IH]; intros failure_rates production_counts; cbn.
  - apply silent_ret.
  - apply silent_bind; [apply silent_mhConverter|].
    intros [[prod defects] rate]. apply IH.
Qed.

Lemma silent_initialize_control_limits line_name line sigma :
  silent (initialize_control_limits standard_normal poisson_variate
                                    line_name line sigma).
Proof.
  unfold initialize_control_limits.
  apply silent_bind; [apply silent_warm_up | intros [? ?]; apply silent_ret].
Qed.

(** The first loop prints no hour header and no sample. *)
Lemma freeze_limits_trace lines control_limits w :
  let w' := snd (freeze_limits standard_normal poisson_variate
                               lines control_limits w) in
  hours_printed (stdout w') = hours_printed (stdout w)
  /\ lines_sampled (stdout w') = lines_sampled (stdout w).
Proof.
  revert control_limits w.
  induction lines as [|[line_name line] lines IH]; intros control_limits w;
    cbn.
  - split; reflexivity.
  - unfold bind at 1 3.
    pose proof (silent_initialize_control_limits line_name line 0.03 w) as S.
    destruct (initialize_control_limits _ _ _ _ _ w)
      as [[[[CL UCL] LCL]|e] w1]; cbn [snd] in S |- *.
    + unfold bind, print.
      destruct (IH (dict_set line_name (CL, UCL, LCL) control_limits)
                   {| gen := gen w1;
                      stdout := stdout w1 ++ [PrintLimits line_name CL UCL LCL]
                   |}) as [H1 H2].
      cbn [stdout] in H1, H2. rewrite H1, H2, S.
      rewrite hours_printed_app, lines_sampled_app. cbn.
      now rewrite !app_nil_r.
    + now rewrite S.
Qed.

Lemma hours_from_S first k :
  hours_from first (S k) = first :: hours_from (first + 1) k.
Proof.
  unfold hours_from. cbn [seq map]. rewrite Z.add_0_r. f_equal.
  rewrite <- seq_shift, map_map. apply map_ext. intros i. lia.
Qed.

Lemma has_keys_same_keys {V W : Type} names
      (d : list (string * V)) (d' : list (string * W)) :
  map fst d' = map fst d -> has_keys names d -> has_keys names d'.
Proof.
  intros E K n Hn. apply dict_get_in_keys. rewrite E.
  apply dict_get_in_keys. now apply K.
Qed.

(** The failures of the monitoring loop: a draw, or the end of the
    console when no answer has asked to quit. *)
Lemma monitoring_fails sigma control_limits hourly_data current_hour
      console w e :
  productive PRODUCTION_LINES ->
  has_keys (map fst PRODUCTION_LINES) control_limits ->
  has_keys (map fst PRODUCTION_LINES) hourly_data ->
  fst (monitoring standard_normal poisson_variate sigma control_limits
                  hourly_data current_hour console w)
  = Raised e ->
  draw_failure e
  \/ (e = EOFError /\ Forall (fun a => wants_quit a = false) console).
Proof.
  intros HP Kc. revert hourly_data current_hour w.
  induction console as [|user_input console IH];
    intros hourly_data current_hour w Kh; cbn [monitoring];
    unfold bind at 1; unfold print at 1; unfold bind at 1.
  - pose proof (fails_tick sigma
                  control_limits PRODUCTION_LINES hourly_data current_hour
                  HP Kc Kh) as F.
    match goal with
    | |- context [tick standard_normal poisson_variate ?a ?b ?c ?d ?e ?w0] =>
      specialize (F w0);
      destruct (tick standard_normal poisson_variate a b c d e w0)
        as [[hd|e'] w1]
    end.
    + cbn. intros E. inversion E. right. split; [reflexivity | constructor].
    + cbn in F |- *. intros E. inversion E; subst. left. now apply F.
  - pose proof (fails_tick sigma
                  control_limits PRODUCTION_LINES hourly_data current_hour
                  HP Kc Kh) as F.
    match goal with
    | |- context [tick standard_normal poisson_variate ?a ?b ?c ?d ?e ?w0] =>
      specialize (F w0);
      pose proof (tick_returns a b c d e w0) as R;
      destruct (tick standard_normal poisson_variate a b c d e w0)
        as [[hd|e'] w1]
    end.
    + destruct (R hd w1 eq_refl) as (Ek & _).
      destruct (wants_quit user_input) eqn:Q; [discriminate|].
      intros E. apply IH in E.
      * destruct E as [E|[E1 E2]]; [now left | right].
        split; [exact E1 | now constructor].
      * now apply (has_keys_same_keys _ hourly_data).
    + cbn in F |- *. intros E. inversion E; subst. left. now apply F.
Qed.

(** A loop that returns has stopped at the first answer that asks to
    quit, after one tick per answer. *)
Lemma monitoring_returns sigma control_limits hourly_data current_hour
      console w w' :
  monitoring standard_normal poisson_variate sigma control_limits
             hourly_data current_hour console w
  = (Returned tt, w') ->
  exists pre q post,
    console = pre ++ q :: post
    /\ Forall (fun a => wants_quit a = false) pre
    /\ wants_quit q = true
    /\ hours_printed (stdout w')
       = hours_printed (stdout w) ++ hours_from current_hour (S (length pre))
    /\ lines_sampled (stdout w')
       = lines_sampled (stdout w)
         ++ concat (repeat (map fst PRODUCTION_LINES) (S (length pre)))
    /\ exists out,
         stdout w'
         = out ++ [PrintSummary (current_hour + Z.of_nat (length pre))].
Proof.
  revert hourly_data current_hour w.
  induction console as [|user_input console IH];
    intros hourly_data current_hour w; cbn [monitoring];
    unfold bind at 1; unfold print at 1; unfold bind at 1;
    match goal with
    | |- context [tick standard_normal poisson_variate ?a ?b ?c ?d ?e ?w0] =>
      pose proof (tick_returns a b c d e w0) as R;
      destruct (tick standard_normal poisson_variate a b c d e w0)
        as [[hd|e'] w1]
    end;
    try discriminate.
  destruct (R hd w1 eq_refl) as (_ & R2 & R3). cbn [stdout] in R2, R3.
  rewrite hours_printed_app in R2. rewrite lines_sampled_app in R3.
  cbn in R2, R3. rewrite app_nil_r in R3.
  destruct (wants_quit user_input) eqn:Q.
  - unfold print. intros E. inversion E; subst; clear E.
    exists [], user_input, console. cbn [length app stdout].
    split; [reflexivity|]. split; [constructor|]. split; [exact Q|].
    rewrite hours_printed_app, lines_sampled_app, R2, R3. cbn.
    rewrite !app_nil_r, !Z.add_0_r. split; [reflexivity|].
    split; [reflexivity|]. eauto.
  - intros E. apply IH in E.
    destruct E as (pre & q & post & -> & F & Q' & H1 & H2 & out & H3).
    exists (user_input :: pre), q, post. cbn [length app].
    split; [reflexivity|]. split; [now constructor|]. split; [exact Q'|].
    split; [|split].
    + rewrite H1, R2, (hours_from_S current_hour), <- app_assoc. reflexivity.
    + rewrite H2, R3. cbn [repeat concat]. now rewrite <- !app_assoc.
    + exists out. rewrite H3. do 3 f_equal. lia.
Qed.

End SimulationFacts.

Lemma production_lines_productive : Trace.productive PRODUCTION_LINES.
Proof. repeat constructor; discriminate. Qed.

Section SimulationProperties.
Import Trace.

Variable G : Type.
Variable standard_normal : G -> float * G.
Variable poisson_variate : float -> G -> Z * G.

(** X7.  [run_simulation] fails in three ways only: [ValueError] or
    [OverflowError] from a draw of a sample, and [EOFError] from the
    console, which takes that no answer has asked to quit.  It never
    fails on a missing line ([KeyError]) nor on a division by zero. *)
Theorem run_simulation_failures
  (sigma : float) (console : list str) (w : world G) (e : exn) :
  fst (run_simulation standard_normal poisson_variate sigma console w)
  = Raised e ->
  (e = ValueError \/ e = OverflowError \/ e = EOFError)
  /\ (e = EOFError -> Forall (fun a => wants_quit a = false) console).
Proof.
  unfold run_simulation, bind.
  pose proof (fails_freeze_limits G standard_normal poisson_variate
                PRODUCTION_LINES [] production_lines_productive w) as F.
  pose proof (freeze_limits_keys G standard_normal poisson_variate
                PRODUCTION_LINES [] w) as K.
  destruct (freeze_limits _ _ PRODUCTION_LINES [] w) as [[cl|e'] w1].
  - intros E. apply monitoring_fails in E.
    + destruct E as [[E|E]|[E1 E2]]; subst; (split; [tauto|]);
        try discriminate. intros _. exact E2.
    + exact production_lines_productive.
    + intros n Hn. apply (K cl w1 eq_refl). now left.
    + intros n Hn. apply dict_get_in_keys. rewrite map_map.
      cbn [fst]. exact Hn.
  - cbn [fst] in *. intros E. inversion E; subst.
    destruct (F e eq_refl) as [->| ->]; (split; [tauto | discriminate]).
Qed.

(** X8.  A run that returns has stopped at the first answer that asks
    to quit: the answers before it have not, the hours 1, 2, ... have
    been simulated, one per answer up to that one, each hour has
    sampled the eight lines in the order of the registry, and the
    last thing printed is the summary with the number of hours. *)
Theorem run_simulation_stops_at_first_quit
  (sigma : float) (console : list str) (w w' : world G) :
  run_simulation standard_normal poisson_variate sigma console w
  = (Returned tt, w') ->
  exists pre q post,
    console = pre ++ q :: post
    /\ Forall (fun a => wants_quit a = false) pre
    /\ wants_quit q = true
    /\ hours_printed (stdout w')
       = hours_printed (stdout w) ++ hours_from 1 (S (length pre))
    /\ lines_sampled (stdout w')
       = lines_sampled (stdout w)
         ++ concat (repeat (map fst PRODUCTION_LINES) (S (length pre)))
    /\ exists out,
         stdout w' = out ++ [PrintSummary (Z.of_nat (S (length pre)))].
Proof.
  unfold run_simulation, bind.
  pose proof (freeze_limits_trace G standard_normal poisson_variate
                PRODUCTION_LINES [] w) as T.
  destruct (freeze_limits _ _ PRODUCTION_LINES [] w) as [[cl|e'] w1];
    [|discriminate].
  cbn [snd] in T. destruct T as [T1 T2].
  intros E. apply monitoring_returns in E.
  destruct E as (pre & q & post & E & F & Q & H1 & H2 & out & H3).
  exists pre, q, post. rewrite <- T1, <- T2.
  repeat (split; [assumption|]). exists out. rewrite H3. do 3 f_equal. lia.
Qed.

(** X9.  One tick over lines with distinct names extends the history
    of each of these lines by one entry: the hour of the tick, a rate
    and a production count, at the end of the three lists; it leaves
    the other histories, and the keys and their order, as they were. *)
Theorem tick_extends_histories
  (sigma : float) (control_limits : list (string * (float * float * float)))
  (lines : list (string * line_data)) (hourly_data hd : list (string * history))
  (current_hour : Z) (w w' : world G) :
  NoDup (map fst lines) ->
  tick standard_normal poisson_variate sigma control_limits lines
       hourly_data current_hour w
  = (Returned hd, w') ->
  map fst hd = map fst hourly_data
  /\ forall name h, dict_get name hourly_data = Some h ->
       (In name (map fst lines) ->
        exists prod rate,
          dict_get name hd
          = Some {| hours := hours h ++ [current_hour];
                    rates := rates h ++ [rate];
                    productions := productions h ++ [prod] |})
       /\ (~ In name (map fst lines) -> dict_get name hd = Some h).
Proof.
  intros ND E.
  split; [apply (tick_returns _ _ _ _ _ _ _ _ _ _ _ E)|].
  revert hourly_data w ND E.
  induction lines as [|[line_name line] lines' IH]; intros hourly_data w ND;
    cbn [tick map fst].
  - unfold ret. intros E name h Hh. inversion E; subst.
    split; [intros [] | intros _; exact Hh].
  - inversion ND as [|? ? Hnot ND']; subst.
    destruct (dict_get line_name control_limits) as [[[CL UCL] LCL]|];
      [|discriminate].
    destruct (dict_get line_name hourly_data) as [h0|] eqn:Eh;
      [|discriminate].
    unfold bind at 1.
    destruct (mhConverter _ _ _ _ _ _ _ _ w)
      as [[[[prod defects] rate]|e] w1]; [|discriminate].
    unfold bind at 1. unfold print at 1.
    unfold bind at 1. rewrite comments_printed.
    intros E name h Hh.
    specialize (IH _ _ ND' E name).
    destruct (string_dec line_name name) as [<-|N].
    + rewrite dict_get_set_same in IH.
      destruct (IH _ eq_refl) as [_ IH2].
      assert (h = h0) by congruence. subst h0.
      split; [|intros X; exfalso; apply X; now left].
      intros _. exists prod, rate. now apply IH2.
    + rewrite dict_get_set_other in IH by exact N.
      destruct (IH h Hh) as [IH1 IH2]. split.
      * intros [X|X]; [congruence | now apply IH1].
      * intros X. apply IH2. intros Y. apply X. now right.
Qed.

End SimulationProperties.

(** ** The frozen limits and the lower limit *)

Section FrozenLimits.
Import Trace.

Variable G : Type.
Variable standard_normal : G -> float * G.
Variable poisson_variate : float -> G -> Z * G.

Lemma limit_events_app out1 out2 :
  limit_events (out1 ++ out2) = limit_events out1 ++ limit_events out2.
Proof. apply filter_app. Qed.

Lemma limit_events_lines cl :
  limit_events (map limit_line cl) = map limit_line cl.
Proof.
  unfold limit_events.
  induction cl as [|[n [[CL UCL] LCL]] cl IH]; [reflexivity|].
  cbn. now rewrite IH.
Qed.

Lemma freeze_limits_appends lines control_limits w cl w' :
  NoDup (map fst lines) ->
  (forall n, In n (map fst lines) -> ~ In n (map fst control_limits)) ->
  freeze_limits standard_normal poisson_variate lines control_limits w
  = (Returned cl, w') ->
  exists new,
    cl = control_limits ++ new
    /\ map fst new = map fst lines
    /\ stdout w' = stdout w ++ map limit_line new.
Proof.
  revert control_limits w.
  induction lines as [|[line_name line] lines IH]; intros control_limits w;
    cbn [freeze_limits map fst]; intros ND Hd.
  - unfold ret. intros E. inversion E; subst. exists [].
    now rewrite !app_nil_r.
  - inversion ND as [|? ? Hnot ND']; subst.
    unfold bind at 1.
    pose proof (silent_initialize_control_limits
                  G standard_normal poisson_variate
                  line_name line 0.03 w) as S.
    destruct (initialize_control_limits _ _ _ _ _ w)
      as [[[[CL UCL] LCL]|e] w1]; [|discriminate].
    cbn [snd] in S. unfold bind, print.
    rewrite dict_set_new by (apply Hd; now left).
    intros E. apply IH in E; [|exact ND'|].
    + destruct E as (new & -> & E1 & E2). cbn [stdout] in E2.
      exists ((line_name, (CL, UCL, LCL)) :: new).
      rewrite <- app_assoc. split; [reflexivity|].
      split; [cbn; now rewrite E1|].
      rewrite E2, S, <- app_assoc. reflexivity.
    + intros n Hn. rewrite map_app, in_app_iff. cbn.
      intros [H|[H|[]]]; [apply (Hd n); [now right | exact H]|].
      cbn in H. rewrite <- H in Hn. contradiction.
Qed.

(** X20.  The first loop of [run_simulation] stores one entry per
    line, in the order of the lines, and the limits it prints are,
    entry by entry, the limits it has stored for the monitoring. *)
Theorem frozen_limits_are_those_printed
  (lines : list (string * line_data)) (w w' : world G)
  (cl : list (string * (float * float * float))) :
  NoDup (map fst lines) ->
  freeze_limits standard_normal poisson_variate lines [] w
  = (Returned cl, w') ->
  map fst cl = map fst lines
  /\ stdout w' = stdout w ++ map Trace.limit_line cl
  /\ limit_events (stdout w')
     = limit_events (stdout w) ++ map Trace.limit_line cl.
Proof.
  intros ND E.
  destruct (freeze_limits_appends lines [] w cl w' ND) as (new & -> & E1 & E2);
    auto.
  cbn [app]. split; [exact E1|]. split; [exact E2|].
  now rewrite E2, limit_events_app, limit_events_lines.
Qed.

End FrozenLimits.

Section LowerLimit.
Import Estimator.

Lemma ltb_0_not_nan x : (0 <? x) = true -> is_nan x = false.
Proof.
  unfold is_nan. rewrite ltb_spec, negb_false_iff, eqb_spec.
  change (Prim2SF 0) with (S754_zero false).
  destruct (Prim2SF x) as [s|[|]| |[|] m e]; try discriminate; intros _;
    try reflexivity.
  unfold SFeqb, SFcompare. rewrite Z.compare_refl.
  change (Pos.compare_cont Eq m m) with (Pos.compare m m).
  now rewrite Pos.compare_refl.
Qed.

(** X21.  Whatever the input (empty, NaN or negative rates, zero or
    negative counts), the lower limit that the estimator returns is
    a number that is not negative: it is never NaN, even when CL and
    UCL are. *)
Theorem lower_limit_never_negative
  (failure_rates : list float) (production_counts : list Z) :
  let '(CL, UCL, LCL) :=
    calculate_control_limits failure_rates production_counts in
  (0 <=? LCL) = true /\ (LCL <? 0) = false /\ is_nan LCL = false.
Proof.
  unfold calculate_control_limits, max0.
  destruct (0 <? _) eqn:E.
  - split; [now apply ltb_0_leb|].
    split; [now apply ltb_asym | now apply ltb_0_not_nan].
  - repeat split.
Qed.

End LowerLimit.

(** ** Exact sums of counts *)

Module ExactFacts.
Import Binary64 Summation Exact Binary64Facts FloatVal Sums Estimator Spread.
Local Open Scope Z_scope.

Lemma eqb_true_val x y :
  FNN x -> FNN y -> (x =? y)%float = true <-> (val x == val y)%Q.
Proof.
  intros Fx Fy. rewrite eqb_spec. unfold SFeqb.
  rewrite (SFcompare_val _ _ (Prim2SF_valid x) (Prim2SF_valid y) Fx Fy).
  fold (val x) (val y). rewrite Qeq_alt.
  destruct (val x ?= val y)%Q; intuition discriminate.
Qed.

Lemma qsum_app l1 l2 : (qsum (l1 ++ l2) == qsum l1 + qsum l2)%Q.
Proof.
  unfold qsum. induction l1 as [|x l1 IH]; cbn [fold_right app]; [ring|].
  rewrite IH. ring.
Qed.

Lemma qsum_perm l l' : Permutation l l' -> (qsum l == qsum l')%Q.
Proof.
  unfold qsum.
  induction 1 as [|x l l' _ IH|x y l|l l' l'' _ IH1 _ IH2];
    cbn [fold_right].
  - reflexivity.
  - now rewrite IH.
  - ring.
  - now rewrite IH1.
Qed.

Lemma qsum_nonneg l : Forall FNN l -> (0 <= qsum l)%Q.
Proof.
  unfold qsum. induction 1 as [|x l Fx _ IH]; cbn [fold_right]; [lra|].
  pose proof (val_nonneg x Fx). lra.
Qed.

(** A sum of two naturals that stays below [2^53] is exact. *)
Lemma add_integral x y :
  integral x -> integral y -> (val x + val y < inject_Z (2 ^ 53))%Q ->
  integral (x + y) /\ (val (x + y) == val x + val y)%Q.
Proof.
  intros (Fx & zx & Hx & Ex) (Fy & zy & Hy & Ey) B.
  pose proof (add_rounds x y Fx Fy) as R.
  assert (E : (val x + val y == inject_Z (zx + zy) * bpow 0)%Q).
  { rewrite Ex, Ey, bpow_0, inject_Z_plus. ring. }
  assert (Hz : 0 <= zx + zy < 2 ^ 53).
  { split; [lia|]. rewrite E, bpow_0, Qmult_1_r, <- Zlt_Qlt in B. exact B. }
  destruct (rounds_le_rep _ _ (zx + zy) 0 R Hz ltac:(lia)) as [F U];
    [rewrite E; lra|].
  pose proof (rounds_ge_rep _ _ (zx + zy) 0 R F Hz ltac:(lia)) as L.
  assert (V : (val (x + y) == val x + val y)%Q).
  { rewrite E in L |- *. apply Qle_antisym; [exact U | apply L; lra]. }
  split; [|exact V]. split; [exact F|]. exists (zx + zy).
  split; [exact Hz|]. rewrite V, E, bpow_0. ring.
Qed.

(** Whatever the order and the bracketing, the float sum of naturals
    whose total is below [2^53] is that total. *)
Lemma sums_exact l s :
  sums l s -> Forall integral l -> (qsum l < inject_Z (2 ^ 53))%Q ->
  integral s /\ (val s == qsum l)%Q.
Proof.
  induction 1 as [|x|l1 l2 s1 s2 _ IH1 _ IH2|l l' s P _ IH]; intros HF B.
  - split; [|now rewrite val_0]. split; [exact FNN_0|]. exists 0.
    split; [lia | now rewrite val_0].
  - inversion HF; subst. split; [assumption|]. cbn [qsum fold_right]. ring.
  - apply Forall_app in HF as [HF1 HF2].
    rewrite qsum_app in B.
    assert (N1 : (0 <= qsum l1)%Q)
      by (apply qsum_nonneg; eapply Forall_impl; [|exact HF1]; now intros ? []).
    assert (N2 : (0 <= qsum l2)%Q)
      by (apply qsum_nonneg; eapply Forall_impl; [|exact HF2]; now intros ? []).
    destruct (IH1 HF1 ltac:(lra)) as [I1 V1].
    destruct (IH2 HF2 ltac:(lra)) as [I2 V2].
    destruct (add_integral s1 s2 I1 I2) as [I V]; [rewrite V1, V2; exact B|].
    split; [exact I|]. now rewrite V, V1, V2, qsum_app.
  - assert (HF' : Forall integral l).
    { apply Permutation_sym in P.
      now apply (Permutation_Forall P). }
    rewrite <- (qsum_perm _ _ P) in B |- *. now apply IH.
Qed.

Lemma Z2F_integral z : 0 <= z < 2 ^ 53 -> integral (Z2F z).
Proof.
  intros H. destruct (Z2F_exact z H) as [F V]. split; [exact F|]. eauto.
Qed.

Lemma qsum_counts counts :
  Forall (fun c => 0 <= c) counts -> total counts < 2 ^ 53 ->
  Forall integral (map Z2F counts)
  /\ (qsum (map Z2F counts) == inject_Z (total counts))%Q.
Proof.
  induction 1 as [|c counts Hc HF IH]; cbn [total fold_right map qsum];
    intros B.
  - split; [constructor | reflexivity].
  - fold (total counts) in *.
    assert (T : 0 <= total counts).
    { clear -HF. induction HF; cbn; [lia|]. fold (total l). lia. }
    destruct (IH ltac:(lia)) as [I V]. fold (qsum (map Z2F counts)).
    destruct (Z2F_exact c ltac:(lia)) as [Fc Vc]. split.
    + constructor; [apply Z2F_integral; lia | exact I].
    + rewrite Vc, V, inject_Z_plus. reflexivity.
Qed.

Lemma total_bounds lo hi counts :
  Forall (fun c => lo <= c <= hi) counts ->
  lo * Z.of_nat (length counts) <= total counts
  <= hi * Z.of_nat (length counts).
Proof.
  induction 1 as [|c counts Hc _ IH]; cbn [total fold_right length];
    [lia|]. fold (total counts). lia.
Qed.

End ExactFacts.

(** ** The estimator *)

Section EstimatorProperties.
Import Binary64 Summation Exact Binary64Facts FloatVal Sums Estimator Spread.
Import ExactFacts.

(** A finite sum divided by a count: the quotient, rounded. *)
Lemma quotient_rounds (s : float) (n : Z) :
  (0 < n < 2 ^ 53)%Z -> FNN s ->
  rounds (val s / inject_Z n) (Prim2SF (s / Z2F n)).
Proof.
  intros Hn FS.
  destruct (Z2F_positive n Hn) as (mN & eN & EN & VN).
  rewrite div_spec, EN.
  apply (rounds_ext (SFval (Prim2SF s) / F2Q (Zpos mN) eN)).
  - now rewrite VN.
  - apply SFdiv_rounds; [apply Prim2SF_valid | exact FS].
Qed.

(** X10.  For non-negative production counts whose total is below
    [2^53], the mean count has no accumulation error: the sum that
    [np.mean] forms is the exact total, the mean lies between the
    smallest and the largest count, and it is the exact quotient
    whenever the count divides the total (for equal counts, the
    common count). *)
Theorem mean_count_is_exact (production_counts : list Z) (lo hi : Z) :
  production_counts <> [] ->
  (Z.of_nat (length production_counts) < 2 ^ 53)%Z ->
  Forall (fun c => (lo <= c <= hi)%Z) production_counts ->
  (0 <= lo)%Z -> (hi < 2 ^ 53)%Z ->
  (total production_counts < 2 ^ 53)%Z ->
  (np_sum_int production_counts =? Z2F (total production_counts)) = true
  /\ (Z2F lo <=? np_mean_int production_counts) = true
  /\ (np_mean_int production_counts <=? Z2F hi) = true
  /\ forall q,
       total production_counts
       = (q * Z.of_nat (length production_counts))%Z ->
       (np_mean_int production_counts =? Z2F q) = true.
Proof.
  intros Hne Hn HF Hlo Hhi HT.
  assert (H0 : Forall (fun c => (0 <= c)%Z) production_counts).
  { eapply Forall_impl; [|exact HF]. cbn. intros; lia. }
  destruct (qsum_counts _ H0 HT) as [I V].
  destruct (sums_exact _ _ (np_sum_int_sums production_counts) I)
    as [[FS _] VS].
  { rewrite V, <- Zlt_Qlt. exact HT. }
  rewrite V in VS.
  pose proof (total_bounds lo hi _ HF) as [TL TU].
  set (T := total production_counts) in *.
  assert (T0 : (0 <= T)%Z) by nia.
  destruct (Z2F_exact T ltac:(lia)) as [FT VT].
  split; [apply (eqb_true_val _ _ FS FT); now rewrite VS, VT|].
  assert (R : rounds (inject_Z T
                      / inject_Z (Z.of_nat (length production_counts)))
                     (Prim2SF (np_mean_int production_counts))).
  { unfold np_mean_int.
    apply (rounds_ext (val (np_sum_int production_counts)
                       / inject_Z (Z.of_nat (length production_counts))));
      [now rewrite VS|].
    apply quotient_rounds; [|exact FS].
    split; [|exact Hn]. destruct production_counts; [congruence|].
    cbn [length]. lia. }
  set (n := Z.of_nat (length production_counts)) in *.
  set (avg_n := np_mean_int production_counts) in *.
  assert (Hn0 : (0 < n)%Z)
    by (unfold n; destruct production_counts; [congruence | cbn; lia]).
  pose proof (inject_Z_pos n Hn0) as Pn.
  assert (hi0 : (0 <= hi)%Z) by nia.
  assert (Q : forall k, (k * n <= T)%Z
                        <-> (inject_Z k <= inject_Z T / inject_Z n)%Q).
  { intros k. split; intros H.
    - apply Qle_shift_div_l; [exact Pn|].
      rewrite <- inject_Z_mult, <- Zle_Qle. exact H.
    - apply (Qmult_le_r _ _ _ Pn) in H.
      rewrite <- inject_Z_mult in H.
      assert (E : (inject_Z T / inject_Z n * inject_Z n == inject_Z T)%Q)
        by (field; lra).
      rewrite E, <- Zle_Qle in H. exact H. }
  assert (Q' : forall k, (T <= k * n)%Z
                         <-> (inject_Z T / inject_Z n <= inject_Z k)%Q).
  { intros k. split; intros H.
    - apply Qle_shift_div_r; [exact Pn|].
      rewrite <- inject_Z_mult, <- Zle_Qle. exact H.
    - apply (Qmult_le_r _ _ _ Pn) in H.
      rewrite <- inject_Z_mult in H.
      assert (E : (inject_Z T / inject_Z n * inject_Z n == inject_Z T)%Q)
        by (field; lra).
      rewrite E, <- Zle_Qle in H. exact H. }
  assert (B : forall k, (0 <= k < 2 ^ 53)%Z ->
                ((T <= k * n)%Z -> FNN avg_n /\ (val avg_n <= inject_Z k)%Q)
                /\ (FNN avg_n -> (k * n <= T)%Z ->
                    (inject_Z k <= val avg_n)%Q)).
  { intros k Hk. pose proof bpow_0 as B0. split.
    - intros H. apply Q' in H.
      destruct (rounds_le_rep _ _ k 0 R Hk ltac:(lia)) as [F U];
        [now rewrite B0, Qmult_1_r|].
      rewrite B0, Qmult_1_r in U. split; [exact F | exact U].
    - intros F H. apply Q in H.
      pose proof (rounds_ge_rep _ _ k 0 R F Hk ltac:(lia)) as L.
      rewrite B0, Qmult_1_r in L. now apply L. }
  destruct (B hi ltac:(lia)) as [Bhi _].
  destruct (Bhi ltac:(lia)) as [Favg Uavg].
  destruct (B lo ltac:(lia)) as [_ Blo].
  specialize (Blo Favg ltac:(lia)).
  destruct (Z2F_exact lo ltac:(lia)) as [Flo Vlo].
  destruct (Z2F_exact hi ltac:(lia)) as [Fhi Vhi].
  split; [apply (leb_true_val _ _ Flo Favg); now rewrite Vlo|].
  split; [apply (leb_true_val _ _ Favg Fhi); now rewrite Vhi|].
  intros q Hq.
  assert (Hq0 : (0 <= q < 2 ^ 53)%Z) by nia.
  destruct (B q Hq0) as [Bq1 Bq2].
  destruct (Bq1 ltac:(lia)) as [_ U]. specialize (Bq2 Favg ltac:(lia)).
  destruct (Z2F_exact q Hq0) as [Fq Vq].
  apply (eqb_true_val _ _ Favg Fq). rewrite Vq. now apply Qle_antisym.
Qed.

(** The variance term [CL * (1 - CL)] for a center line between 0
    and 1: a finite number between 0 and 1. *)
Lemma variance_term_bounds CL :
  FNN CL -> (val CL <= 1)%Q ->
  FNN (1 - CL) /\ FNN (CL * (1 - CL)) /\ (val (CL * (1 - CL)) <= 1)%Q.
Proof.
  intros FCL U. pose proof val_1 as V1. pose proof bpow_0 as B0.
  pose proof (val_nonneg CL FCL) as N.
  destruct (SFsub_spec (Prim2SF 1) (Prim2SF CL)
              (Prim2SF_valid _) (Prim2SF_valid _) FNN_1 FCL) as [R _].
  fold (val 1) (val CL) in R.
  assert (Le : (val CL <= val 1)%Q) by lra.
  specialize (R Le). rewrite <- sub_spec in R.
  destruct (rounds_le_rep _ _ 1 0 R ltac:(lia) ltac:(lia)) as [F1 U1].
  { change (inject_Z 1) with 1%Q. lra. }
  change (inject_Z 1) with 1%Q in U1. rewrite B0, Qmult_1_r in U1.
  pose proof (val_nonneg _ F1) as N1.
  pose proof (mul_rounds CL (1 - CL) FCL F1) as Rm.
  destruct (rounds_le_rep _ _ 1 0 Rm ltac:(lia) ltac:(lia)) as [Fm Um].
  { change (inject_Z 1) with 1%Q. rewrite B0. nra. }
  change (inject_Z 1) with 1%Q in Um. rewrite B0, Qmult_1_r in Um.
  auto.
Qed.

Lemma four_bounds : FNN 4 /\ (val 4 == 4)%Q.
Proof. split; [exact I | vm_compute; reflexivity]. Qed.

Lemma ltb_0_nn x : (0 <? x) = true -> nn (Prim2SF x).
Proof.
  rewrite ltb_spec. change (Prim2SF 0) with (S754_zero false).
  now destruct (Prim2SF x) as [s|[|]| |[|] m e].
Qed.

(** X11.  Under the conditions of the ordering of the limits
    (non-empty sequences, rates between 0 and 1, positive counts),
    the three limits are finite numbers, never NaN nor infinite:
    CL and LCL lie between 0 and 1, UCL between 0 and 4. *)
Theorem control_limits_are_finite
  (failure_rates : list float) (production_counts : list Z) :
  failure_rates <> [] -> production_counts <> [] ->
  (Z.of_nat (length failure_rates) < 2 ^ 53)%Z ->
  (Z.of_nat (length production_counts) < 2 ^ 53)%Z ->
  Forall (fun r => (0 <=? r) = true /\ (r <=? 1) = true) failure_rates ->
  Forall (fun c => (0 < c < 2 ^ 63)%Z) production_counts ->
  let '(CL, UCL, LCL) :=
    calculate_control_limits failure_rates production_counts in
  ((0 <=? CL) = true /\ (CL <=? 1) = true)
  /\ ((0 <=? UCL) = true /\ (UCL <=? 4) = true)
  /\ ((0 <=? LCL) = true /\ (LCL <=? 1) = true).
Proof.
  intros Hr Hc Hnr Hnc HFr HFc. unfold calculate_control_limits.
  destruct (np_mean_bounds 0 0 failure_rates) as (FCL & _ & UCL1);
    try lia; auto.
  { apply Forall_impl with (2 := HFr). intros r [H0 H1].
    now apply rate_bounds. }
  set (CL := np_mean failure_rates) in *.
  destruct (np_mean_int_bounds 1 63 production_counts)
    as (Favg & Lavg & _); try lia; auto.
  { apply Forall_impl with (2 := HFc). intros c Hc0.
    now apply count_bounds. }
  set (avg_n := np_mean_int production_counts) in *.
  pose proof bpow_0 as B0. pose proof val_1 as V1.
  change (inject_Z 1) with 1%Q in Lavg. rewrite B0 in UCL1.
  destruct (variance_term_bounds CL FCL UCL1) as (F1 & Fm & Um).
  pose proof (val_nonneg _ Fm) as Nm.
  (* the quotient, its square root and three times the square root *)
  pose proof (div_rounds _ avg_n Fm Favg ltac:(lra)) as Rq.
  destruct (rounds_le_rep _ _ 1 0 Rq ltac:(lia) ltac:(lia)) as [Fq Uq].
  { change (inject_Z 1) with 1%Q. rewrite B0, Qmult_1_r.
    apply Qle_shift_div_r; lra. }
  change (inject_Z 1) with 1%Q in Uq. rewrite B0, Qmult_1_r in Uq.
  destruct (sqrt_le_rep _ 1 0 Fq ltac:(lia) ltac:(lia)) as [Fs Us].
  { change (inject_Z 1) with 1%Q. rewrite B0. lra. }
  change (inject_Z 1) with 1%Q in Us. rewrite B0, Qmult_1_r in Us.
  destruct (Z2F_exact 3 ltac:(lia)) as [F3 V3].
  change (inject_Z 3) with 3%Q in V3.
  pose proof (val_nonneg _ Fs) as Ns.
  pose proof (mul_rounds (Z2F 3) _ F3 Fs) as Rt.
  destruct (rounds_le_rep _ _ 3 0 Rt ltac:(lia) ltac:(lia)) as [Ft Ut].
  { change (inject_Z 3) with 3%Q. rewrite B0. nra. }
  change (inject_Z 3) with 3%Q in Ut. rewrite B0, Qmult_1_r in Ut.
  set (t3 := Z2F 3 * sqrt (CL * (1 - CL) / avg_n)) in *.
  (* the upper limit *)
  pose proof (add_rounds CL t3 FCL Ft) as Ru.
  destruct (rounds_le_rep _ _ 4 0 Ru ltac:(lia) ltac:(lia)) as [Fu Uu].
  { change (inject_Z 4) with 4%Q. rewrite B0. lra. }
  change (inject_Z 4) with 4%Q in Uu. rewrite B0, Qmult_1_r in Uu.
  destruct four_bounds as [F4 V4].
  (* the lower limit *)
  assert (Nt : nn (Prim2SF t3))
    by (unfold FNN in Ft; now destruct (Prim2SF t3) as [s|[|]| |[|] m e]).
  destruct (limits_around CL t3 FCL Nt) as (L0 & L1 & _).
  assert (FL : FNN (max0 (CL - t3))).
  { apply (nn_leb_FNN _ CL); [|exact FCL | exact L1].
    unfold max0. destruct (0 <? CL - t3) eqn:E; [now apply ltb_0_nn|].
    exact I. }
  split; [|split]; split.
  - now apply leb_0_FNN.
  - apply (leb_true_val _ _ FCL FNN_1). lra.
  - now apply leb_0_FNN.
  - apply (leb_true_val _ _ Fu F4). lra.
  - exact L0.
  - apply (leb_true_val _ _ FL FNN_1).
    apply (leb_true_val _ _ FL FCL) in L1. lra.
Qed.

(** A float sum of zeros is zero. *)
Lemma sums_zeros l s : sums l s -> Forall (eq 0) l -> s = 0.
Proof.
  induction 1 as [|x|l1 l2 s1 s2 _ IH1 _ IH2|l l' s P _ IH]; intros HF.
  - reflexivity.
  - now inversion HF.
  - apply Forall_app in HF as [HF1 HF2].
    now rewrite (IH1 HF1), (IH2 HF2).
  - apply IH. apply Permutation_sym in P.
    now apply (Permutation_Forall P).
Qed.

Lemma np_mean_int_zeros production_counts :
  production_counts <> [] ->
  (Z.of_nat (length production_counts) < 2 ^ 53)%Z ->
  Forall (fun c => c = 0%Z) production_counts ->
  np_mean_int production_counts = 0.
Proof.
  intros Hne Hn HF. unfold np_mean_int.
  rewrite (sums_zeros _ _ (np_sum_int_sums _)).
  - destruct (Z2F_positive (Z.of_nat (length production_counts)))
      as (m & e & E & _).
    { destruct production_counts; [congruence|]. cbn [length] in *. lia. }
    apply Prim2SF_inj. rewrite div_spec, E. reflexivity.
  - apply Forall_map. eapply Forall_impl; [|exact HF].
    cbn. intros c ->. reflexivity.
Qed.

(** X12.  When every production count is zero the estimator divides
    by a zero mean count without an error: the upper limit it
    returns is plus infinity or NaN, and the lower limit is 0. *)
Theorem zero_counts_give_no_upper_limit
  (failure_rates : list float) (production_counts : list Z) :
  failure_rates <> [] -> production_counts <> [] ->
  (Z.of_nat (length failure_rates) < 2 ^ 53)%Z ->
  (Z.of_nat (length production_counts) < 2 ^ 53)%Z ->
  Forall (fun r => (0 <=? r) = true /\ (r <=? 1) = true) failure_rates ->
  Forall (fun c => c = 0%Z) production_counts ->
  let '(CL, UCL, LCL) :=
    calculate_control_limits failure_rates production_counts in
  (UCL = infinity \/ UCL = nan) /\ LCL = 0.
Proof.
  intros Hr Hc Hnr Hnc HFr HFc. unfold calculate_control_limits.
  rewrite (np_mean_int_zeros _ Hc Hnc HFc).
  destruct (np_mean_bounds 0 0 failure_rates) as (FCL & _ & UCL1);
    try lia; auto.
  { apply Forall_impl with (2 := HFr). intros r [H0 H1].
    now apply rate_bounds. }
  set (CL := np_mean failure_rates) in *.
  rewrite bpow_0 in UCL1.
  destruct (variance_term_bounds CL FCL UCL1) as (_ & Fm & _).
  set (v := CL * (1 - CL)) in *.
  assert (Q : v / 0 = infinity \/ v / 0 = nan).
  { unfold FNN in Fm.
    destruct (Prim2SF v) as [s|s| |[|] m e] eqn:Ev; try contradiction.
    - right. apply Prim2SF_inj. rewrite div_spec, Ev. reflexivity.
    - left. apply Prim2SF_inj. rewrite div_spec, Ev. reflexivity. }
  assert (A : forall s, Prim2SF (CL + SF2Prim (S754_infinity s))
                        = S754_infinity s).
  { intros s. rewrite add_spec, Prim2SF_SF2Prim by reflexivity.
    unfold FNN in FCL. now destruct (Prim2SF CL) as [?|?| |[|] m e]. }
  destruct Q as [-> | ->].
  - change (sqrt infinity) with infinity.
    change (Z2F 3 * infinity) with infinity. split.
    + left. apply Prim2SF_inj. apply (A false).
    + unfold max0.
      assert (E : Prim2SF (CL - infinity) = S754_infinity true).
      { rewrite sub_spec. change (Prim2SF infinity) with (S754_infinity false).
        unfold FNN in FCL. now destruct (Prim2SF CL) as [?|?| |[|] m e]. }
      rewrite ltb_spec, E. reflexivity.
  - change (sqrt nan) with nan. rewrite mul_nan_r, add_nan_r, sub_nan_r.
    split; [now right | reflexivity].
Qed.

End EstimatorProperties.

(** ** Signs *)

Module SignFacts.
Import Binary64 Exact Binary64Facts FloatVal Estimator Spread.
Local Open Scope Z_scope.

Lemma binary_round_aux_opp s m e l :
  binary_round_aux prec emax (negb s) m e l
  = SFopp (binary_round_aux prec emax s m e l).
Proof.
  unfold binary_round_aux.
  destruct (shr_fexp prec emax m e l) as [mrs1 e1].
  destruct (shr_fexp prec emax _ e1 loc_Exact) as [mrs2 e2].
  destruct (shr_m mrs2); try reflexivity.
  now destruct (e2 <=? emax - prec).
Qed.

Lemma binary_round_opp m e :
  binary_round prec emax true m e = SFopp (binary_round prec emax false m e).
Proof.
  unfold binary_round. destruct (shl_align _ _ _) as [mz ez].
  apply (binary_round_aux_opp false).
Qed.

Lemma SFmul_opp_r x y : SF64mul x (SFopp y) = SFopp (SF64mul x y).
Proof.
  destruct x as [sx|sx| |sx mx ex], y as [sy|sy| |sy my ey]; cbn;
    try reflexivity; try (now destruct sx, sy).
  rewrite <- binary_round_aux_opp. now destruct sx, sy.
Qed.

Lemma mul_opp_r (x y : float) : (x * - y = - (x * y))%float.
Proof.
  apply Prim2SF_inj. rewrite mul_spec, !opp_spec, mul_spec.
  apply SFmul_opp_r.
Qed.

Lemma opp_involutive (x : float) : (- - x = x)%float.
Proof.
  apply Prim2SF_inj. rewrite !opp_spec.
  now destruct (Prim2SF x) as [[|]|[|]| |[|] m e].
Qed.

Lemma valid_binary_opp x : valid_binary (SFopp x) = valid_binary x.
Proof. now destruct x. Qed.

Lemma SF2Prim_opp x :
  valid_binary x = true -> SF2Prim (SFopp x) = (- SF2Prim x)%float.
Proof.
  intros V. apply Prim2SF_inj.
  rewrite opp_spec, !Prim2SF_SF2Prim; [reflexivity | exact V|].
  now rewrite valid_binary_opp.
Qed.

(** [float(-z)] is [-float(z)]. *)
Lemma Z2F_opp z : 0 < z -> Z2F (- z) = (- Z2F z)%float.
Proof.
  intros Hz. destruct z as [|p|p]; try lia. unfold Z2F.
  cbn [Z.opp binary_normalize]. rewrite binary_round_opp.
  apply SF2Prim_opp.
  destruct (binary_round_spec false p 0) as (m3 & e3 & -> & C & _).
  now apply SFofZ_valid.
Qed.

(** A number below zero is the opposite of a positive one. *)
Lemma ltb_0_opp y :
  (y <? 0)%float = true ->
  exists y', y = (- y')%float /\ positive (Prim2SF y').
Proof.
  intros H. exists (- y)%float. split; [now rewrite opp_involutive|].
  rewrite opp_spec. rewrite ltb_spec in H.
  change (Prim2SF 0) with (S754_zero false) in H.
  now destruct (Prim2SF y) as [s|[|]| |[|] m e].
Qed.

Lemma opp_positive_ltb r :
  positive (Prim2SF r) -> (- r <? 0)%float = true.
Proof.
  rewrite ltb_spec, opp_spec. change (Prim2SF 0) with (S754_zero false).
  now destruct (Prim2SF r) as [s|[|]| |[|] m e].
Qed.

Lemma rounds_above_positive v y r :
  valid_binary y = true -> positive y -> fin_nn y ->
  (SFval y <= v)%Q -> rounds v r -> positive r.
Proof.
  intros Vy Py Fy Le [N B]. destruct (B y Vy Fy) as [B1 _].
  specialize (B1 Le).
  destruct y as [sy|sy| |[|] my ey]; try contradiction.
  destruct r as [s|[|]| |[|] m e]; try contradiction; try exact I.
  discriminate B1.
Qed.

(** The product of a number that is at least 1 and a positive number
    is positive: it does not round to zero. *)
Lemma SFmul_positive x y :
  valid_binary x = true -> valid_binary y = true ->
  at_least_one x -> positive y -> positive (SF64mul x y).
Proof.
  intros Vx Vy Ax Py.
  destruct x as [sx|[|]| |[|] mx ex]; try contradiction;
    destruct y as [sy|[|]| |[|] my ey]; try contradiction; try exact I.
  cbn [at_least_one] in Ax.
  apply (rounds_above_positive
           (SFval (S754_finite false mx ex) * SFval (S754_finite false my ey))
           (S754_finite false my ey)); auto.
  - cbn [SFval]. pose proof (F2Q_pos (Zpos my) ey ltac:(lia)). nra.
  - now apply SFmul_rounds.
Qed.

Lemma SFmul_positive_r x y :
  valid_binary x = true -> valid_binary y = true ->
  positive x -> at_least_one y -> positive (SF64mul x y).
Proof.
  intros Vx Vy Px Ay.
  destruct x as [sx|[|]| |[|] mx ex]; try contradiction;
    destruct y as [sy|[|]| |[|] my ey]; try contradiction; try exact I.
  cbn [at_least_one] in Ay.
  apply (rounds_above_positive
           (SFval (S754_finite false mx ex) * SFval (S754_finite false my ey))
           (S754_finite false mx ex)); auto.
  - cbn [SFval]. pose proof (F2Q_pos (Zpos mx) ex ltac:(lia)). nra.
  - now apply SFmul_rounds.
Qed.

Lemma FNN_at_least_one x :
  FNN x -> (1 <= val x)%Q -> at_least_one (Prim2SF x).
Proof.
  intros F L. destruct (FNN_positive x F ltac:(lra)) as (m & e & E).
  unfold val in L. rewrite E in L |- *. exact L.
Qed.

(** [float(z)] for [z >= 1] is at least 1. *)
Lemma Z2F_at_least_one z : 1 <= z -> at_least_one (Prim2SF (Z2F z)).
Proof.
  intros Hz. destruct (Z2F_spec z ltac:(lia)) as (m & e & E & C & B).
  assert (C1 : canon (2 ^ 52) (-52)) by (unfold canon; lia).
  destruct (B _ _ C1) as [B1 _].
  assert (V1 : (F2Q (2 ^ 52) (-52) == 1)%Q) by (vm_compute; reflexivity).
  assert (L : (1 <= F2Q m e)%Q).
  { rewrite <- V1. apply B1. rewrite V1.
    change 1%Q with (inject_Z 1). rewrite <- Zle_Qle. exact Hz. }
  rewrite E. destruct m as [|p|p].
  - rewrite F2Q_0 in L. lra.
  - cbn [SFofZ]. destruct (e <=? emax - prec); [exact L | exact I].
  - destruct C as [[C _] _]. lia.
Qed.

(** The quotient of two naturals below [2^53]. *)
Lemma quotient_bounds a b :
  0 < a < 2 ^ 53 -> 0 < b < 2 ^ 53 ->
  FNN (Z2F a / Z2F b)
  /\ (0 < val (Z2F a / Z2F b))%Q
  /\ (b <= a -> (1 <= val (Z2F a / Z2F b))%Q).
Proof.
  intros Ha Hb.
  destruct (Z2F_exact a ltac:(lia)) as [Fa Va].
  destruct (Z2F_exact b ltac:(lia)) as [Fb Vb].
  pose proof (inject_Z_pos a ltac:(lia)) as Pa.
  pose proof (inject_Z_pos b ltac:(lia)) as Pb.
  assert (Ia : (1 <= inject_Z a)%Q)
    by (change 1%Q with (inject_Z 1); rewrite <- Zle_Qle; lia).
  assert (Ib : (inject_Z b <= inject_Z (2 ^ 53))%Q)
    by (rewrite <- Zle_Qle; lia).
  assert (Ia' : (inject_Z a <= inject_Z (2 ^ 53))%Q)
    by (rewrite <- Zle_Qle; lia).
  assert (Ib' : (1 <= inject_Z b)%Q)
    by (change 1%Q with (inject_Z 1); rewrite <- Zle_Qle; lia).
  assert (R : rounds (inject_Z a / inject_Z b)
                     (Prim2SF (Z2F a / Z2F b))).
  { apply (rounds_ext (val (Z2F a) / val (Z2F b))); [now rewrite Va, Vb|].
    apply div_rounds; auto. lra. }
  pose proof (bpow_Z 53 ltac:(lia)) as B53.
  pose proof (bpow_add 52 1) as B1. change (52 + 1) with 53 in B1.
  pose proof (bpow_Z 52 ltac:(lia)) as B52.
  pose proof (bpow_add (-53) 53) as Bm. change (-53 + 53) with 0 in Bm.
  pose proof bpow_0 as B0. pose proof (bpow_pos (-53)) as Pm.
  destruct (rounds_le_rep _ _ (2 ^ 52 - 1) 2 R ltac:(lia) ltac:(lia))
    as [F U].
  { apply Qle_shift_div_r; [exact Pb|].
    assert (E : (inject_Z (2 ^ 52 - 1) * bpow 2 == inject_Z (2 ^ 54 - 4))%Q)
      by (vm_compute; reflexivity).
    rewrite E.
    assert (X : (inject_Z a <= inject_Z (2 ^ 54 - 4))%Q)
      by (rewrite <- Zle_Qle; lia).
    assert (N : (0 <= inject_Z (2 ^ 54 - 4))%Q)
      by (change 0%Q with (inject_Z 0); rewrite <- Zle_Qle; lia).
    nra. }
  assert (L : (inject_Z 1 * bpow (-53) <= val (Z2F a / Z2F b))%Q).
  { apply (rounds_ge_rep _ _ _ _ R F); [lia | lia |].
    change (inject_Z 1) with 1%Q. apply Qle_shift_div_l; [exact Pb|].
    rewrite B53 in Bm. nra. }
  change (inject_Z 1) with 1%Q in L.
  split; [exact F|]. split; [lra|]. intros Hab.
  assert (L1 : (inject_Z 1 * bpow 0 <= val (Z2F a / Z2F b))%Q).
  { apply (rounds_ge_rep _ _ _ _ R F); [lia | lia |].
    change (inject_Z 1) with 1%Q. apply Qle_shift_div_l; [exact Pb|].
    rewrite B0. rewrite Zle_Qle in Hab. lra. }
  change (inject_Z 1) with 1%Q in L1. lra.
Qed.

(** A share of a count is between 0 and 1. *)
Lemma ratio_in_unit_interval d k :
  0 <= d <= k -> 0 < k < 2 ^ 53 ->
  (0 <=? Z2F d / Z2F k)%float = true /\ (Z2F d / Z2F k <=? 1)%float = true.
Proof.
  intros Hd Hk.
  destruct (Z2F_exact d ltac:(lia)) as [Fd Vd].
  destruct (Z2F_exact k ltac:(lia)) as [Fk Vk].
  pose proof (inject_Z_pos k ltac:(lia)) as Pk.
  assert (R : rounds (inject_Z d / inject_Z k) (Prim2SF (Z2F d / Z2F k))).
  { apply (rounds_ext (val (Z2F d) / val (Z2F k))); [now rewrite Vd, Vk|].
    apply div_rounds; auto. lra. }
  destruct (rounds_le_rep _ _ 1 0 R ltac:(lia) ltac:(lia)) as [F U].
  { change (inject_Z 1) with 1%Q. rewrite bpow_0.
    apply Qle_shift_div_r; [exact Pk|].
    assert (X : (inject_Z d <= inject_Z k)%Q) by (rewrite <- Zle_Qle; lia).
    lra. }
  change (inject_Z 1) with 1%Q in U. rewrite bpow_0, Qmult_1_r in U.
  split; [now apply leb_0_FNN|].
  apply (leb_true_val _ _ F FNN_1). now rewrite val_1.
Qed.

(** The non-finite numbers *)

Lemma is_finite_false x : is_finite x = false -> nonfinite (Prim2SF x).
Proof.
  unfold is_finite, is_nan, is_infinity.
  rewrite negb_false_iff, orb_true_iff, negb_true_iff, !eqb_spec, abs_spec.
  change (Prim2SF infinity) with (S754_infinity false).
  destruct (Prim2SF x) as [s|s| |s m e]; try (intros; exact I).
  - intros [H|H]; [now destruct s | discriminate H].
  - intros [H|H]; [|discriminate H].
    unfold SFeqb, SFcompare in H. rewrite Z.compare_refl in H.
    change (Pos.compare_cont Eq m m) with (Pos.compare m m) in H.
    rewrite Pos.compare_refl in H. now destruct s.
Qed.

Lemma SFmul_nonfinite_r x y : nonfinite y -> nonfinite (SF64mul x y).
Proof. now destruct x, y. Qed.

Lemma SFmul_nonfinite_l x y : nonfinite x -> nonfinite (SF64mul x y).
Proof. now destruct x, y. Qed.

Lemma SFadd_nonfinite_r x y : nonfinite y -> nonfinite (SF64add x y).
Proof. now destruct x as [?|[|]| |? ? ?], y as [?|[|]| |? ? ?]. Qed.

Lemma int_nonfinite x :
  nonfinite (Prim2SF x) ->
  int x = Raised ValueError \/ int x = Raised OverflowError.
Proof. unfold int. destruct (Prim2SF x); try contradiction; auto. Qed.

End SignFacts.

(** ** The hourly sample *)

Section SampleProperties.
Import Binary64 Exact Binary64Facts FloatVal Estimator Spread SignFacts Trace.

Variable G : Type.
Variable standard_normal : G -> float * G.
Variable poisson_variate : float -> G -> Z * G.

(** A negative scale is refused before the draw. *)
Lemma negative_scale_refused avg sigma w :
  FNN avg -> (1 <= val avg)%Q -> (sigma <? 0) = true ->
  np_random_normal G standard_normal avg (avg * sigma) w
  = (Raised ValueError, w).
Proof.
  intros Fa La Hs. destruct (ltb_0_opp sigma Hs) as (s' & -> & Ps).
  unfold np_random_normal. rewrite mul_opp_r, opp_positive_ltb.
  - reflexivity.
  - rewrite mul_spec.
    apply SFmul_positive; auto using Prim2SF_valid.
    now apply FNN_at_least_one.
Qed.

(** With a sigma that is NaN or infinite the sample is not a finite
    number, and [int] refuses it. *)
Lemma nonfinite_sample_refused avg sigma w :
  is_finite sigma = false ->
  exists e,
    fst (bind (np_random_normal G standard_normal avg (avg * sigma))
              (fun x => lift (int x)) w) = Raised e
    /\ draw_failure e.
Proof.
  intros H. apply is_finite_false in H.
  unfold np_random_normal, bind at 1.
  destruct (avg * sigma <? 0); [exists ValueError; cbn; split; [|left]; auto|].
  unfold bind, with_gen, ret, lift.
  destruct (standard_normal (gen w)) as [z g].
  assert (N : nonfinite (Prim2SF (avg + avg * sigma * z))).
  { rewrite add_spec. apply SFadd_nonfinite_r.
    rewrite mul_spec. apply SFmul_nonfinite_l.
    rewrite mul_spec. now apply SFmul_nonfinite_r. }
  destruct (int_nonfinite _ N) as [-> | ->]; cbn;
    [exists ValueError | exists OverflowError]; split; auto;
    [now left | now right].
Qed.

Lemma mhConverter_negative_scale sigma w :
  (sigma <? 0) = true ->
  mhConverter standard_normal poisson_variate 800000 11000
              default_days default_shifts default_hours_per_shift sigma w
  = (Raised ValueError, w).
Proof.
  intros Hs. unfold mhConverter, bind, lift, truediv.
  change (default_days * default_shifts * default_hours_per_shift =? 0)%Z
    with false.
  destruct (quotient_bounds 800000 416) as (Fa & _ & La); try lia.
  specialize (La ltac:(lia)).
  change (default_days * default_shifts * default_hours_per_shift)%Z
    with 416%Z.
  now rewrite (negative_scale_refused _ sigma w Fa La Hs).
Qed.

Lemma mhConverter_nonfinite_scale sigma w :
  is_finite sigma = false ->
  exists e,
    fst (mhConverter standard_normal poisson_variate 800000 11000
           default_days default_shifts default_hours_per_shift sigma w)
    = Raised e
    /\ (e = ValueError \/ e = OverflowError).
Proof.
  intros H. unfold mhConverter. unfold bind at 1. unfold lift at 1.
  unfold truediv.
  change (default_days * default_shifts * default_hours_per_shift =? 0)%Z
    with false.
  cbv iota.
  match goal with |- context [np_random_normal _ _ ?a _] =>
    destruct (nonfinite_sample_refused a sigma w H) as (e & E & D) end.
  exists e. split; [|exact D]. revert E. unfold bind.
  destruct (np_random_normal G standard_normal _ _ w)
    as [[x|e'] w1]; [|cbn; congruence].
  unfold lift. cbn [fst]. now intros ->.
Qed.

Lemma bind_fails {A B : Type} (m : M G A) (f : A -> M G B) w e :
  fst (m w) = Raised e -> bind m f w = (Raised e, snd (m w)).
Proof.
  unfold bind. destruct (m w) as [[a|e'] w1]; cbn; [discriminate|].
  congruence.
Qed.

(** A tick fails where the sample of its first line fails. *)
Lemma tick_first_fails sigma control_limits line_name line lines
      hourly_data current_hour w e :
  dict_get line_name control_limits <> None ->
  dict_get line_name hourly_data <> None ->
  fst (mhConverter standard_normal poisson_variate
         (monthly_production line) (monthly_defects line)
         default_days default_shifts default_hours_per_shift sigma w)
  = Raised e ->
  let r := tick standard_normal poisson_variate sigma control_limits
                ((line_name, line) :: lines) hourly_data current_hour w in
  fst r = Raised e
  /\ stdout (snd r)
     = stdout (snd (mhConverter standard_normal poisson_variate
                      (monthly_production line) (monthly_defects line)
                      default_days default_shifts default_hours_per_shift
                      sigma w)).
Proof.
  intros Kc Kh E. cbn [tick].
  destruct (dict_get line_name control_limits) as [[[CL UCL] LCL]|];
    [|congruence].
  destruct (dict_get line_name hourly_data) as [h|]; [|congruence].
  unfold bind.
  destruct (mhConverter _ _ _ _ _ _ _ _ w) as [[r|e'] w1];
    cbn [fst snd] in *; [discriminate|].
  split; [congruence | reflexivity].
Qed.

(** X13.  [mhConverter] raises [ZeroDivisionError] only for zero
    working hours or a zero monthly production.  With zero working
    hours it does so at once, before any draw; with a zero monthly
    production it never returns. *)
Theorem mhConverter_division_by_zero
  (monthly_production monthly_defects days shifts hours_per_shift : Z)
  (sigma : float) (w : world G) :
  ((days * shifts * hours_per_shift = 0)%Z ->
   mhConverter standard_normal poisson_variate monthly_production
               monthly_defects days shifts hours_per_shift sigma w
   = (Raised ZeroDivisionError, w))
  /\ (fst (mhConverter standard_normal poisson_variate monthly_production
                       monthly_defects days shifts hours_per_shift sigma w)
      = Raised ZeroDivisionError ->
      (days * shifts * hours_per_shift = 0)%Z \/ monthly_production = 0%Z)
  /\ (monthly_production = 0%Z ->
      forall r,
        fst (mhConverter standard_normal poisson_variate monthly_production
                         monthly_defects days shifts hours_per_shift sigma w)
        <> Returned r).
Proof.
  split; [|split].
  - intros H. unfold mhConverter, bind, lift, truediv. now rewrite H.
  - intros H.
    destruct (Z.eq_dec (days * shifts * hours_per_shift) 0) as [|Hh];
      [now left|].
    destruct (Z.eq_dec monthly_production 0) as [|Hp]; [now right|].
    exfalso.
    destruct (fails_mhConverter G standard_normal poisson_variate
                monthly_production monthly_defects days shifts
                hours_per_shift sigma Hh Hp w _ H); discriminate.
  - intros -> r. unfold mhConverter, bind, lift.
    destruct (truediv 0 _) as [avg|e]; [|discriminate].
    destruct (np_random_normal G standard_normal _ _ w) as [[x|e] w1];
      [|discriminate].
    destruct (int x) as [k|e]; [|discriminate].
    cbn. discriminate.
Qed.

(** X14.  With a sigma that is NaN or infinite, [mhConverter] never
    returns: the sample is not a finite number, and [int] refuses it
    (when the draw itself has not been refused). *)
Theorem mhConverter_nonfinite_sigma
  (monthly_production monthly_defects days shifts hours_per_shift : Z)
  (sigma : float) (w : world G) :
  is_finite sigma = false ->
  exists e,
    fst (mhConverter standard_normal poisson_variate monthly_production
                     monthly_defects days shifts hours_per_shift sigma w)
    = Raised e
    /\ (e = ZeroDivisionError \/ e = ValueError \/ e = OverflowError).
Proof.
  intros H. unfold mhConverter. unfold bind at 1. unfold lift at 1.
  destruct (truediv monthly_production _) as [avg|e] eqn:Ea.
  2:{ unfold truediv in Ea. destruct (_ =? 0)%Z; inversion Ea.
      exists ZeroDivisionError. cbn. auto. }
  destruct (nonfinite_sample_refused avg sigma w H) as (e & E & D).
  exists e. split; [|destruct D; auto]. revert E. unfold bind.
  destruct (np_random_normal G standard_normal avg (avg * sigma) w)
    as [[x|e'] w1]; [|cbn; congruence].
  unfold lift. cbn [fst]. now intros ->.
Qed.

(** X15.  With a negative sigma and at least one unit produced per
    working hour, [mhConverter] raises [ValueError] before any draw:
    the scale of the normal distribution is negative. *)
Theorem mhConverter_negative_sigma
  (monthly_production monthly_defects days shifts hours_per_shift : Z)
  (sigma : float) (w : world G) :
  (0 < days * shifts * hours_per_shift <= monthly_production)%Z ->
  (monthly_production < 2 ^ 53)%Z ->
  (sigma <? 0) = true ->
  mhConverter standard_normal poisson_variate monthly_production
              monthly_defects days shifts hours_per_shift sigma w
  = (Raised ValueError, w).
Proof.
  intros Hh Hp Hs. unfold mhConverter, bind, lift, truediv.
  set (th := (days * shifts * hours_per_shift)%Z) in *.
  replace (th =? 0)%Z with false by (symmetry; apply Z.eqb_neq; lia).
  destruct (quotient_bounds monthly_production th) as (Fa & _ & La);
    try lia.
  specialize (La ltac:(lia)).
  set (avg := Z2F monthly_production / Z2F th) in *.
  now rewrite (negative_scale_refused avg sigma w Fa La Hs).
Qed.

(** X16.  With positive monthly figures, a production count that
    [mhConverter] returns is never negative: a negative count makes
    the Poisson mean negative, and the draw is refused.  The rate
    returned with a count of zero is 0, and with a positive count it
    is the quotient of the defects by the count, which lies between
    0 and 1 when the defects are between 0 and the count. *)
Theorem mhConverter_count_never_negative
  (monthly_production monthly_defects days shifts hours_per_shift : Z)
  (sigma : float) (w w' : world G) (prod defects : Z) (rate : float) :
  (0 < monthly_production < 2 ^ 53)%Z ->
  (0 < monthly_defects < 2 ^ 53)%Z ->
  mhConverter standard_normal poisson_variate monthly_production
              monthly_defects days shifts hours_per_shift sigma w
  = (Returned (prod, defects, rate), w') ->
  (0 <= prod)%Z
  /\ (prod = 0%Z -> rate = 0)
  /\ ((0 < prod)%Z -> rate = Z2F defects / Z2F prod)
  /\ ((0 <= defects <= prod)%Z -> (prod < 2 ^ 53)%Z ->
      (0 <=? rate) = true /\ (rate <=? 1) = true).
Proof.
  intros Hp Hd. unfold mhConverter, bind, lift, ret.
  destruct (truediv monthly_production _) as [avg|e]; [|discriminate].
  destruct (np_random_normal G standard_normal avg (avg * sigma) w)
    as [[x|e] w1]; [|discriminate].
  destruct (int x) as [k|e]; [|discriminate].
  unfold truediv at 1.
  replace (monthly_production =? 0)%Z with false
    by (symmetry; apply Z.eqb_neq; lia).
  set (defect_rate := Z2F monthly_defects / Z2F monthly_production).
  unfold np_random_poisson.
  destruct (defect_rate * Z2F k <? 0) eqn:Neg; [discriminate|].
  cbn [orb].
  destruct (is_nan _ || _); [discriminate|].
  unfold with_gen. destruct (poisson_variate _ (gen w1)) as [d g].
  assert (K : (0 <= k)%Z).
  { destruct (Z_lt_le_dec k 0) as [Lt|]; [exfalso | assumption].
    replace k with (- - k)%Z in Neg by lia.
    rewrite (Z2F_opp (- k)), mul_opp_r, opp_positive_ltb in Neg;
      [discriminate | | lia].
    rewrite mul_spec.
    destruct (quotient_bounds monthly_defects monthly_production)
      as (Fd & Pd & _); try lia.
    apply SFmul_positive_r; auto using Prim2SF_valid.
    - fold defect_rate.
      destruct (FNN_positive defect_rate Fd Pd) as (m & e & ->). exact I.
    - apply Z2F_at_least_one. lia. }
  destruct (0 <? k)%Z eqn:Pos.
  - unfold truediv. apply Z.ltb_lt in Pos.
    replace (k =? 0)%Z with false by (symmetry; apply Z.eqb_neq; lia).
    intros E. inversion E; subst. split; [lia|]. split; [lia|].
    split; [reflexivity|]. intros Hd' Hk'.
    apply ratio_in_unit_interval; lia.
  - apply Z.ltb_ge in Pos. intros E. inversion E; subst.
    split; [lia|]. split; [reflexivity|]. split; [lia|].
    intros _ _. split; reflexivity.
Qed.

(** X17.  With a sigma that is negative, NaN or infinite,
    [run_simulation] never returns and never asks the console: once
    the limits are frozen (with the in-control sigma), the first
    sample of the first hour is refused with [ValueError] or
    [OverflowError], before any sample is printed. *)
Theorem run_simulation_rejects_bad_sigma
  (sigma : float) (console : list str) (w : world G) :
  (sigma <? 0) = true \/ is_finite sigma = false ->
  exists e,
    fst (run_simulation standard_normal poisson_variate sigma console w)
    = Raised e
    /\ (e = ValueError \/ e = OverflowError)
    /\ lines_sampled
         (stdout (snd (run_simulation standard_normal poisson_variate
                                      sigma console w)))
       = lines_sampled (stdout w).
Proof.
  intros Hs. unfold run_simulation, bind.
  pose proof (fails_freeze_limits G standard_normal poisson_variate
                PRODUCTION_LINES [] production_lines_productive w) as F.
  pose proof (freeze_limits_keys G standard_normal poisson_variate
                PRODUCTION_LINES [] w) as K.
  pose proof (freeze_limits_trace G standard_normal poisson_variate
                PRODUCTION_LINES [] w) as [_ T].
  destruct (freeze_limits _ _ PRODUCTION_LINES [] w) as [[cl|e] w1];
    cbn [snd fst] in *.
  2:{ exists e. split; [reflexivity|]. split; [now apply F | exact T]. }
  rewrite <- T. clear T F.
  pose proof (K cl w1 eq_refl "First Exterior"%string
                (or_introl (or_introl eq_refl))) as K1.
  clear K.
  assert (M : exists e,
    fst (mhConverter standard_normal poisson_variate 800000 11000
           default_days default_shifts default_hours_per_shift sigma
           {| gen := gen w1; stdout := stdout w1 ++ [PrintHour 1] |})
    = Raised e
    /\ (e = ValueError \/ e = OverflowError)
    /\ stdout (snd (mhConverter standard_normal poisson_variate 800000 11000
           default_days default_shifts default_hours_per_shift sigma
           {| gen := gen w1; stdout := stdout w1 ++ [PrintHour 1] |}))
       = stdout w1 ++ [PrintHour 1]).
  { set (w2 := {| gen := gen w1; stdout := stdout w1 ++ [PrintHour 1] |}).
    pose proof (silent_mhConverter G standard_normal poisson_variate
                  800000 11000 default_days default_shifts
                  default_hours_per_shift sigma w2) as S.
    destruct Hs as [Hs|Hs].
    - exists ValueError. rewrite mhConverter_negative_scale by exact Hs.
      auto.
    - destruct (mhConverter_nonfinite_scale sigma w2 Hs) as (e & E & D).
      exists e. auto. }
  destruct M as (e & E & D & S). exists e.
  assert (R : forall hd,
    dict_get "First Exterior"%string hd <> None ->
    let r := bind (print (PrintHour 1))
               (fun _ => tick standard_normal poisson_variate sigma cl
                              PRODUCTION_LINES hd 1) w1 in
    fst r = Raised e
    /\ lines_sampled (stdout (snd r)) = lines_sampled (stdout w1)).
  { intros hd Kh. unfold bind, print.
    destruct (tick_first_fails sigma cl "First Exterior"%string
                {| monthly_production := 800000; monthly_defects := 11000 |}
                (tl PRODUCTION_LINES) hd 1 _ e K1 Kh E) as [T1 T2].
    split; [exact T1|].
    change PRODUCTION_LINES
      with (("First Exterior"%string,
             {| monthly_production := 800000; monthly_defects := 11000 |})
            :: tl PRODUCTION_LINES).
    rewrite T2. cbn [monthly_production monthly_defects].
    rewrite S, lines_sampled_app. cbn. now rewrite app_nil_r. }
  specialize (R (map (fun l => (fst l, {| hours := []; rates := [];
                                           productions := [] |}))
                    PRODUCTION_LINES) ltac:(cbn; discriminate)).
  cbn zeta in R. unfold bind, print in R. destruct R as [R1 R2].
  assert (X : monitoring standard_normal poisson_variate sigma cl
                (map (fun l => (fst l, {| hours := []; rates := [];
                                          productions := [] |}))
                     PRODUCTION_LINES) 1 console w1
              = (Raised e,
                 snd (tick standard_normal poisson_variate sigma cl
                        PRODUCTION_LINES
                        (map (fun l => (fst l, {| hours := []; rates := [];
                                                  productions := [] |}))
                             PRODUCTION_LINES) 1
                        {| gen := gen w1;
                           stdout := stdout w1 ++ [PrintHour 1] |}))).
  { destruct console as [|user_input console]; cbn [monitoring];
      unfold bind at 1; unfold print at 1; apply bind_fails; exact R1. }
  rewrite X. cbn [fst snd]. auto.
Qed.

End SampleProperties.

(** ** The summary chart *)

Section ChartFacts.
Import Inspector InspectorFacts.

Lemma of_uint_zfill width d : Z.of_uint (zfill width d) = Z.of_uint d.
Proof.
  unfold zfill. induction (width - Decimal.nb_digits d)%nat as [|k IH];
    [reflexivity | exact IH].
Qed.

(** The number can be read back from its formatted text. *)
Lemma read_format_03d n : read_int (format_03d n) = Some n.
Proof.
  unfold read_int, format_03d. rewrite DecimalString.NilEmpty.isi.
  cbn [option_map]. f_equal. rewrite <- (DecimalZ.of_to n) at 2.
  destruct (Z.to_int n) as [d|d]; cbn [Z.of_int];
    now rewrite of_uint_zfill.
Qed.

Lemma append_inv_head (s a b : string) :
  (s ++ a)%string = (s ++ b)%string -> a = b.
Proof.
  induction s as [|c s IH]; cbn; [auto|]. intros H. inversion H. auto.
Qed.

Lemma list_ascii_of_string_app (a b : string) :
  list_ascii_of_string (a ++ b)
  = (list_ascii_of_string a ++ list_ascii_of_string b)%list.
Proof. induction a as [|c a IH]; cbn; [reflexivity | now rewrite IH]. Qed.

Lemma append_inv_tail (a b s : string) :
  (a ++ s)%string = (b ++ s)%string -> a = b.
Proof.
  intros H. apply (f_equal list_ascii_of_string) in H.
  rewrite !list_ascii_of_string_app in H. apply app_inv_tail in H.
  apply (f_equal string_of_list_ascii) in H.
  now rewrite !string_of_list_ascii_of_string in H.
Qed.

Lemma string_app_assoc (a b c : string) :
  ((a ++ b) ++ c)%string = (a ++ b ++ c)%string.
Proof. induction a as [|x a IH]; cbn; [reflexivity | now rewrite IH]. Qed.

Lemma summary_filename_parts (output_dir : string) :
  exists prefix,
    forall h,
      summary_filename output_dir h
      = (prefix ++ format_03d h ++ ".png")%string.
Proof.
  unfold summary_filename, path_join.
  destruct (_ || _).
  - exists (output_dir ++ "summary_hour_")%string. intros h.
    now rewrite !string_app_assoc.
  - exists (output_dir ++ "/summary_hour_")%string. intros h.
    now rewrite !string_app_assoc.
Qed.

End ChartFacts.

Section ChartProperties.
Import Inspector InspectorFacts.

(** X18.  The marker that the summary chart puts on the latest point
    of a line is red exactly when [inspection] reports Rule 1 on the
    same rates and limits, green otherwise; there is no marker
    exactly on an empty history. *)
Theorem chart_marker_agrees_with_rule1
  (rates : list float) (CL UCL LCL : float) :
  (last_point_color rates UCL LCL = Some red <->
   In msg_rule1 (inspection rates CL UCL LCL))
  /\ (last_point_color rates UCL LCL = Some green <->
      rates <> [] /\ ~ In msg_rule1 (inspection rates CL UCL LCL))
  /\ (last_point_color rates UCL LCL = None <-> rates = []).
Proof.
  destruct rates as [|x rates].
  - cbn. repeat split; try discriminate; try tauto;
      intros [H _]; congruence.
  - assert (Hd : x :: rates <> []) by discriminate.
    rewrite (in_inspection_rule1 _ CL UCL LCL Hd).
    unfold last_point_color, fires1. cbn [length Nat.ltb Nat.leb].
    destruct (_ || _); repeat split; try discriminate; try congruence;
      try tauto; intros [_ H]; congruence.
Qed.

(** X19.  The name of the chart file determines the hour: the hour
    can be read back from the formatted number, and the charts of two
    different hours of a run are saved under different names. *)
Theorem summary_filename_determines_hour
  (output_dir : string) (h1 h2 : Z) :
  read_int (format_03d h1) = Some h1
  /\ (summary_filename output_dir h1 = summary_filename output_dir h2 ->
      h1 = h2).
Proof.
  split; [apply read_format_03d|].
  destruct (summary_filename_parts output_dir) as [prefix E].
  rewrite !E. intros H. apply append_inv_head in H.
  apply append_inv_tail in H.
  apply (f_equal read_int) in H. rewrite !read_format_03d in H.
  congruence.
Qed.

End ChartProperties.

(** ** The further properties at fixed inputs *)

Lemma inspection_reads_last_seven_witness :
  inspection ([0.5; 0.0001]
              ++ [0.011; 0.012; 0.013; 0.011; 0.012; 0.013; 0.014])
             0.01 0.0168 0.0032
  = inspection [0.011; 0.012; 0.013; 0.011; 0.012; 0.013; 0.014]
               0.01 0.0168 0.0032.
Proof.
  apply (inspection_reads_last_seven
           [0.5; 0.0001]
           [0.011; 0.012; 0.013; 0.011; 0.012; 0.013; 0.014]
           0.01 0.0168 0.0032).
  cbn. lia.
Defined.

Lemma nan_rate_reported_in_control_witness :
  inspection ([0.02; 0.02] ++ [nan]) 0.01 0.0168 0.0032 = [msg_in_control].
Proof.
  apply (nan_rate_reported_in_control [0.02; 0.02] nan 0.01 0.0168 0.0032).
  reflexivity.
Defined.

Lemma rule1_excludes_rule4_witness :
  let result := inspection [0.012; 0.02] 0.01 0.0168 0.0032 in
  ~ (In msg_rule1 result /\ In msg_rule4 result)
  /\ (length result <= 3)%nat.
Proof.
  apply (rule1_excludes_rule4 [0.012; 0.02] 0.01 0.0168 0.0032).
  reflexivity.
Defined.

(** A run on a generator whose variates are all zero, with a console
    that is closed at once. *)
Lemma run_simulation_failures_witness :
  (EOFError = ValueError \/ EOFError = OverflowError \/ EOFError = EOFError)
  /\ (EOFError = EOFError ->
      Forall (fun a => wants_quit a = false) (@nil str)).
Proof.
  apply (run_simulation_failures script scripted_normal scripted_poisson
           0.03 [] {| gen := ([], []); stdout := [] |} EOFError).
  vm_compute. reflexivity.
Defined.

(** A run of two hours: ENTER, then [Q] between a file separator
    (U+001C) and a no-break space (U+00A0). *)
Lemma run_simulation_stops_at_first_quit_witness :
  let console : list str := [[]; [28; 81; 160]; [113]]%N in
  let w : world script := {| gen := ([], []); stdout := [] |} in
  let w' := snd (run_simulation scripted_normal scripted_poisson
                                0.03 console w) in
  exists pre q post,
    console = pre ++ q :: post
    /\ Forall (fun a => wants_quit a = false) pre
    /\ wants_quit q = true
    /\ Trace.hours_printed (stdout w')
       = Trace.hours_printed (stdout w)
         ++ Trace.hours_from 1 (S (length pre))
    /\ Trace.lines_sampled (stdout w')
       = Trace.lines_sampled (stdout w)
         ++ concat (repeat (map fst PRODUCTION_LINES) (S (length pre)))
    /\ exists out,
         stdout w' = out ++ [PrintSummary (Z.of_nat (S (length pre)))].
Proof.
  intros console w w'.
  apply (run_simulation_stops_at_first_quit
           script scripted_normal scripted_poisson 0.03 console w w').
  vm_compute. reflexivity.
Defined.

Lemma tick_extends_histories_witness :
  let control_limits :=
    map (fun l => (fst l, (0.01, 0.0168, 0.0032))) PRODUCTION_LINES in
  let hourly_data :=
    map (fun l => (fst l, {| hours := []; rates := []; productions := [] |}))
        PRODUCTION_LINES in
  let w : world script := {| gen := ([], []); stdout := [] |} in
  let r := tick scripted_normal scripted_poisson 0.03 control_limits
                PRODUCTION_LINES hourly_data 1 w in
  let hd := match fst r with Returned hd => hd | Raised _ => [] end in
  map fst hd = map fst hourly_data
  /\ forall name h, dict_get name hourly_data = Some h ->
       (In name (map fst PRODUCTION_LINES) ->
        exists prod rate,
          dict_get name hd
          = Some {| hours := hours h ++ [1%Z];
                    rates := rates h ++ [rate];
                    productions := productions h ++ [prod] |})
       /\ (~ In name (map fst PRODUCTION_LINES) ->
           dict_get name hd = Some h).
Proof.
  intros control_limits hourly_data w r hd.
  apply (tick_extends_histories script scripted_normal scripted_poisson
           0.03 control_limits PRODUCTION_LINES hourly_data hd 1 w (snd r)).
  - exact production_lines_distinct.
  - vm_compute. reflexivity.
Defined.

Lemma mean_count_is_exact_witness :
  (np_sum_int [1923; 1980; 1871]%Z
   =? Z2F (Exact.total [1923; 1980; 1871]%Z)) = true
  /\ (Z2F 1871 <=? np_mean_int [1923; 1980; 1871]%Z) = true
  /\ (np_mean_int [1923; 1980; 1871]%Z <=? Z2F 1980) = true
  /\ forall q,
       Exact.total [1923; 1980; 1871]%Z
       = (q * Z.of_nat (length [1923; 1980; 1871]%Z))%Z ->
       (np_mean_int [1923; 1980; 1871]%Z =? Z2F q) = true.
Proof.
  apply (mean_count_is_exact [1923; 1980; 1871]%Z 1871 1980).
  - discriminate.
  - reflexivity.
  - repeat constructor; lia.
  - lia.
  - reflexivity.
  - reflexivity.
Defined.

Lemma control_limits_are_finite_witness :
  let '(CL, UCL, LCL) :=
    calculate_control_limits [0.0125; 0.015; 0] [1923%Z; 1980%Z; 1871%Z] in
  ((0 <=? CL) = true /\ (CL <=? 1) = true)
  /\ ((0 <=? UCL) = true /\ (UCL <=? 4) = true)
  /\ ((0 <=? LCL) = true /\ (LCL <=? 1) = true).
Proof.
  apply (control_limits_are_finite [0.0125; 0.015; 0]
                                   [1923%Z; 1980%Z; 1871%Z]).
  - discriminate.
  - discriminate.
  - reflexivity.
  - reflexivity.
  - repeat constructor.
  - repeat constructor.
Defined.

Lemma zero_counts_give_no_upper_limit_witness :
  let '(CL, UCL, LCL) :=
    calculate_control_limits [0.0125; 0.015; 0] [0%Z; 0%Z; 0%Z] in
  (UCL = infinity \/ UCL = nan) /\ LCL = 0.
Proof.
  apply (zero_counts_give_no_upper_limit [0.0125; 0.015; 0]
                                         [0%Z; 0%Z; 0%Z]).
  - discriminate.
  - discriminate.
  - reflexivity.
  - reflexivity.
  - repeat constructor.
  - repeat constructor.
Defined.

Lemma mhConverter_nonfinite_sigma_witness :
  exists e,
    fst (mhConverter scripted_normal scripted_poisson
                     800000 11000 26 2 8 infinity
                     {| gen := ([0.01], [27%Z]); stdout := [] |})
    = Raised e
    /\ (e = ZeroDivisionError \/ e = ValueError \/ e = OverflowError).
Proof.
  apply (mhConverter_nonfinite_sigma script scripted_normal scripted_poisson
           800000 11000 26 2 8 infinity
           {| gen := ([0.01], [27%Z]); stdout := [] |}).
  reflexivity.
Defined.

Lemma mhConverter_negative_sigma_witness :
  mhConverter scripted_normal scripted_poisson 800000 11000 26 2 8 (-0.1)
              {| gen := ([0.01], [27%Z]); stdout := [] |}
  = (Raised ValueError, {| gen := ([0.01], [27%Z]); stdout := [] |}).
Proof.
  apply (mhConverter_negative_sigma script scripted_normal scripted_poisson
           800000 11000 26 2 8 (-0.1)
           {| gen := ([0.01], [27%Z]); stdout := [] |}).
  - lia.
  - reflexivity.
  - reflexivity.
Defined.

Lemma mhConverter_count_never_negative_witness :
  (0 <= 1923)%Z
  /\ (1923%Z = 0%Z -> Z2F 27 / Z2F 1923 = 0)
  /\ ((0 < 1923)%Z -> Z2F 27 / Z2F 1923 = Z2F 27 / Z2F 1923)
  /\ ((0 <= 27 <= 1923)%Z -> (1923 < 2 ^ 53)%Z ->
      (0 <=? Z2F 27 / Z2F 1923) = true /\ (Z2F 27 / Z2F 1923 <=? 1) = true).
Proof.
  apply (mhConverter_count_never_negative
           script scripted_normal scripted_poisson
           800000 11000 26 2 8 0.03
           {| gen := ([0.01], [27%Z]); stdout := [] |}
           {| gen := ([], []); stdout := [] |}
           1923 27 (Z2F 27 / Z2F 1923)).
  - lia.
  - lia.
  - vm_compute. reflexivity.
Defined.

Lemma run_simulation_rejects_bad_sigma_witness :
  let w : world script := {| gen := ([], []); stdout := [] |} in
  exists e,
    fst (run_simulation scripted_normal scripted_poisson (-0.1)
                        [[]; [113%N]] w)
    = Raised e
    /\ (e = ValueError \/ e = OverflowError)
    /\ Trace.lines_sampled
         (stdout (snd (run_simulation scripted_normal scripted_poisson (-0.1)
                                      [[]; [113%N]] w)))
       = Trace.lines_sampled (stdout w).
Proof.
  intros w.
  apply (run_simulation_rejects_bad_sigma
           script scripted_normal scripted_poisson (-0.1)
           [[]; [113%N]] w).
  left. reflexivity.
Defined.

Lemma frozen_limits_are_those_printed_witness :
  let w : world script := {| gen := ([], []); stdout := [] |} in
  let r := freeze_limits scripted_normal scripted_poisson
                         PRODUCTION_LINES [] w in
  let cl := match fst r with Returned cl => cl | Raised _ => [] end in
  map fst cl = map fst PRODUCTION_LINES
  /\ stdout (snd r) = stdout w ++ map Trace.limit_line cl
  /\ limit_events (stdout (snd r))
     = limit_events (stdout w) ++ map Trace.limit_line cl.
Proof.
  intros w r cl.
  apply (frozen_limits_are_those_printed
           script scripted_normal scripted_poisson PRODUCTION_LINES
           w (snd r) cl).
  - exact production_lines_distinct.
  - vm_compute. reflexivity.
Defined.
